(** * The gossip protocol core: p2p/gossip/protocol.go

    A shallow embedding of the [Protocol] controller of package [gossip]:
    message intake with deduplication, the peer registry, the priority
    classifier, the propagation pipeline (queue-feeding loop, consumer loop,
    concurrent fan-out joined by a wait group) and shutdown.

    Sequential code is written in a small state monad over a [World] (the
    controller's fields plus the trace of observable effects).  The concurrent
    loops are program counters advanced by a step function that a schedule
    drives; every interleaving of the modelled threads is a schedule. *)

From stdpp Require Import base option list gmap fin_maps fin_sets strings.
From Stdlib Require Import ZArith Lia.
From Stdlib.Strings Require Import Byte.

(** ** Go basics *)

(** Go's [error]: [None] is [nil]. *)
Definition error : Type := string.

(** The outcome of code that may panic. *)
Inductive result (A : Type) : Type :=
| Ok (a : A)
| Panic (msg : string).
Arguments Ok {A} a.
Arguments Panic {A} msg.

(** A channel of [struct{}] that is only ever closed (the shutdown signal). *)
Inductive chan_signal : Type := ChanOpen | ChanClosed.

#[global] Instance chan_signal_eq_dec : EqDecision chan_signal.
Proof. solve_decision. Defined.

(** [close(c)]: closing a closed channel panics. *)
Definition close_chan (c : chan_signal) : result chan_signal :=
  match c with
  | ChanOpen => Ok ChanClosed
  | ChanClosed => Panic "close of closed channel"
  end.

#[global] Instance byte_eq_dec : EqDecision byte.
Proof.
  intros x y. destruct (Byte.eqb x y) eqn:E.
  - left. by apply Byte.byte_dec_bl.
  - right. intros ->. rewrite Byte.byte_dec_lb in E; done.
Defined.

Definition byte_of_N_total (n : N) : byte := default Byte.x00 (Byte.of_N n).

Lemma byte_of_to_N (b : byte) : byte_of_N_total (Byte.to_N b) = b.
Proof. unfold byte_of_N_total. by rewrite Byte.of_to_N. Qed.

#[global] Instance byte_countable : Countable byte :=
  inj_countable' Byte.to_N byte_of_N_total byte_of_to_N.

(** ** Package p2pcrypto *)
Module p2pcrypto.

(** Modelled from the spec: the declaration of [PublicKey] is not among the
    sources; the spec calls it an opaque stable public identifier, a
    fixed-size byte sequence.  The code compares keys with [==] and uses
    them as map keys, which is all the model needs. *)
Record PublicKey : Type := { Bytes : list byte }.

#[global] Instance PublicKey_eq_dec : EqDecision PublicKey.
Proof. solve_decision. Defined.

Lemma PublicKey_of_Bytes (k : PublicKey) : Build_PublicKey (Bytes k) = k.
Proof. by destruct k. Qed.

#[global] Instance PublicKey_countable : Countable PublicKey :=
  inj_countable' Bytes Build_PublicKey PublicKey_of_Bytes.

End p2pcrypto.

(** ** Package types *)
Module types.

(** [Hash12] is a [[12]byte] array. *)
Record Hash12 : Type := { hash_bytes : list byte }.

#[global] Instance Hash12_eq_dec : EqDecision Hash12.
Proof. solve_decision. Defined.

Lemma Hash12_of_bytes (h : Hash12) : Build_Hash12 (hash_bytes h) = h.
Proof. by destruct h. Qed.

#[global] Instance Hash12_countable : Countable Hash12 :=
  inj_countable' hash_bytes Build_Hash12 Hash12_of_bytes.

(** The digest behind [CalcMessageHash12] is not among the sources: it is a
    parameter of the development. *)
Class Digest12 : Type := digest12 : list byte → Hash12.

(** Modelled from the spec: [CalcMessageHash12] is not among the sources.
    The fingerprint is "a fixed-size digest (12 bytes) computed
    deterministically from the message payload bytes concatenated with the
    sub-protocol name". *)
Definition CalcMessageHash12 `{Digest12} (msg : list byte) (protocol : string) : Hash12 :=
  digest12 (msg ++ String.list_byte_of_string protocol).

(** Modelled from the spec: [DoubleCache] is not among the sources.  "Two
    generations of a fingerprint set, each capped at a maximum fingerprint
    count.  Insertion always goes into the current generation.  When the
    current generation reaches capacity, it becomes the previous generation
    and a new empty current generation begins; the previous generation is
    dropped.  Lookup checks both current and previous generations." *)
Record DoubleCache : Type := {
  dc_cap : Z;
  dc_previous : gset Hash12;
  dc_current : gset Hash12;
}.

(** Modelled from the spec: a new cache has two empty generations. *)
Definition NewDoubleCache (size : Z) : DoubleCache :=
  {| dc_cap := size; dc_previous := ∅; dc_current := ∅ |}.

(** Modelled from the spec: lookup in both generations. *)
Definition dc_get (a : DoubleCache) (key : Hash12) : bool :=
  bool_decide (key ∈ dc_current a) || bool_decide (key ∈ dc_previous a).

(** Modelled from the spec: the current generation is full exactly when its
    fingerprint count has reached the capacity. *)
Definition dc_full (a : DoubleCache) : bool :=
  bool_decide (dc_cap a ≤ Z.of_nat (size (dc_current a)))%Z.

(** Modelled from the spec: insertion, with the swap-on-full rule (spec 9).
    The key goes into the current generation; when that generation is at
    capacity, it first becomes the previous one, the old previous one is
    dropped, and the key starts a new current generation. *)
Definition dc_insert (a : DoubleCache) (key : Hash12) : DoubleCache :=
  if dc_full a
  then {| dc_cap := dc_cap a; dc_previous := dc_current a; dc_current := {[ key ]} |}
  else {| dc_cap := dc_cap a; dc_previous := dc_previous a;
          dc_current := {[ key ]} ∪ dc_current a |}.

(** Modelled from the spec: [CheckAndMark], which the code calls
    [GetOrInsert]: "returns true if the fingerprint was already known,
    false if it was novel and has now been recorded".  The call is atomic
    (spec 4.1), hence one function of the cache. *)
Definition GetOrInsert (a : DoubleCache) (key : Hash12) : bool * DoubleCache :=
  if dc_get a key then (true, a) else (false, dc_insert a key).

(** The cache after a sequence of [GetOrInsert] calls. *)
Definition dc_run (a : DoubleCache) (keys : list Hash12) : DoubleCache :=
  foldl (λ c k, (GetOrInsert c k).2) a keys.

(** Both generations hold at most [dc_cap] fingerprints. *)
Definition dc_capped (a : DoubleCache) : Prop :=
  (Z.of_nat (size (dc_previous a)) ≤ dc_cap a)%Z ∧
  (Z.of_nat (size (dc_current a)) ≤ dc_cap a)%Z.

(** [GetOrInsert a key] rotates the generations: [key] is novel and the
    current generation is full. *)
Definition dc_rotates (a : DoubleCache) (key : Hash12) : bool :=
  negb (dc_get a key) && dc_full a.

End types.

(** ** Package service *)
Module service.

(** [Data] is an interface the code reads through [Bytes()] alone;
    [DataBytes] is the implementation that [Broadcast] builds.  Their
    declarations are not among the sources: [Bytes()] of a [DataBytes] is
    taken to be its [Payload]. *)
Inductive Data : Type :=
| DataBytes (Payload : list byte).

Definition Bytes (d : Data) : list byte :=
  match d with DataBytes p => p end.

(** Modelled from the spec: the declaration of [MessageValidation] is not
    among the sources; it is the record "(sender identifier, sub-protocol
    name, raw message bytes)" read through [Sender()], [Protocol()] and
    [Message()]. *)
Record MessageValidation : Type := {
  mv_sender : p2pcrypto.PublicKey;
  mv_msg : list byte;
  mv_prot : string;
}.

Definition Sender (m : MessageValidation) : p2pcrypto.PublicKey := mv_sender m.
Definition Message (m : MessageValidation) : list byte := mv_msg m.
Definition Protocol (m : MessageValidation) : string := mv_prot m.

End service.

(** ** Package priorityq *)
Module priorityq.

(** Modelled from the spec: the declaration of [Priority] is not among the
    sources; it is "a small ordered enum of priority levels {Low, Mid,
    High}". *)
Inductive Priority : Type := High | Mid | Low.

#[global] Instance Priority_eq_dec : EqDecision Priority.
Proof. solve_decision. Defined.

(** Modelled from the spec: the order of the levels, [Low] the lowest; a
    larger rank is served first. *)
Definition rank (p : Priority) : nat :=
  match p with Low => 0 | Mid => 1 | High => 2 end.

(** What travels through the queue is an [interface{}]: the consumer
    type-asserts it to [service.MessageValidation]. *)
Inductive item : Type :=
| ItemValidation (m : service.MessageValidation)
| ItemOther.

(** Modelled from the spec: the "distinguishable closed-error". *)
Definition ErrQueueClosed : error := "the queue is closed".

(** Modelled from the spec: the queue is not among the sources.  It is "an
    external ordered, priority-aware queue" with [Write], [Read] and
    [Close]; its capacity and back-pressure are the implementation's and
    are left out.  [pending] holds the written items, oldest first. *)
Record Queue : Type := {
  pending : list (Priority * item);
  closed : bool;
}.

(** Modelled from the spec: a new queue is open and empty. *)
Definition New : Queue := {| pending := []; closed := false |}.

(** Modelled from the spec: "Write after Close fails with an error". *)
Definition Write (q : Queue) (prio : Priority) (m : item) : option error * Queue :=
  if closed q then (Some ErrQueueClosed, q)
  else (None, {| pending := pending q ++ [(prio, m)]; closed := closed q |}).

(** Modelled from the spec: the oldest pending item of level [prio], and
    the rest. *)
Fixpoint take (prio : Priority) (l : list (Priority * item))
  : option (item * list (Priority * item)) :=
  match l with
  | [] => None
  | (p, m) :: l' =>
      if decide (p = prio) then Some (m, l')
      else match take prio l' with
           | Some (m', r) => Some (m', (p, m) :: r)
           | None => None
           end
  end.

(** Modelled from the spec: "among items of equal priority,
    first-written-first-read; higher-priority items are preferred over
    lower-priority items". *)
Definition next (l : list (Priority * item)) : option (item * list (Priority * item)) :=
  match take High l with
  | Some r => Some r
  | None => match take Mid l with
            | Some r => Some r
            | None => take Low l
            end
  end.

(** What a call of [Read] does. *)
Inductive read_result : Type :=
| ReadItem (m : item) (q : Queue)
| ReadError (err : error)
| ReadBlocks.

(** Modelled from the spec: "Read blocks the calling loop until an item is
    available or the queue is closed, in which case it returns a
    distinguishable closed-error". *)
Definition Read (q : Queue) : read_result :=
  if closed q then ReadError ErrQueueClosed
  else match next (pending q) with
       | Some (m, rest) => ReadItem m {| pending := rest; closed := closed q |}
       | None => ReadBlocks
       end.

(** Modelled from the spec: [Close] closes the queue. *)
Definition Close (q : Queue) : Queue :=
  {| pending := pending q; closed := true |}.

End priorityq.

(** ** Package metrics *)
Module metrics.

(** The three metrics the code updates, by their names in the code; the
    counters are labelled by sub-protocol.  An update is an event of the
    trace. *)
Inductive Metric : Type :=
| OldGossipMessages
| NewGossipMessages
| PropagationQueueLen.

End metrics.

(** ** Package log *)
Module log.

Inductive Level : Type := Debug | Info | Warning | Error.

(** The structured fields of a log line: the code renders keys with
    [String()] and hashes with [Bytes2Hex]; the model keeps the values. *)
Inductive Field : Type :=
| String (key val : string)
| Key (key : string) (pubkey : p2pcrypto.PublicKey)
| Hash (key : string) (h : types.Hash12)
| Err (err : error).

End log.

(** ** Observable effects *)

(** What the controller does to the outside: log lines, metric updates and
    calls into the network layer together with what the call returned. *)
Inductive Event : Type :=
| EvLog (lvl : log.Level) (text : string) (fields : list log.Field)
| EvMetricAdd (m : metrics.Metric) (label : string) (delta : Z)
| EvMetricSet (m : metrics.Metric) (value : Z)
| EvSendMessage (peerPubkey : p2pcrypto.PublicKey) (protocol : string)
    (payload : list byte) (err : option error)
| EvProcessGossipProtocolMessage (sender : p2pcrypto.PublicKey) (protocol : string)
    (data : service.Data) (err : option error).

(** The trace of a run: the newest event is at the head. *)
Definition Trace : Type := list Event.

(** ** Package gossip *)

Definition oldMessageCacheSize : Z := 10000.
Definition propagateHandleBufferSize : Z := 5000.

(** The interface of the underlying p2p layer.  The layer is external: what
    a call returns is its own business, so each method is a function of the
    history of the run and of the arguments.  [SubscribePeerEvents] only
    hands out the two event streams, which reach the registry through
    [addPeer] and [removePeer]. *)
Record baseNetwork : Type := {
  SendMessage : Trace → p2pcrypto.PublicKey → string → list byte → option error;
  ProcessGossipProtocolMessage :
    Trace → p2pcrypto.PublicKey → string → service.Data → option error;
}.

(** [peer] stores a peer's state; [sender] is the network's [SendMessage]. *)
Record peer : Type := {
  pubkey : p2pcrypto.PublicKey;
  peer_net : baseNetwork;
}.

Definition newPeer (net : baseNetwork) (pubkey : p2pcrypto.PublicKey) : peer :=
  {| pubkey := pubkey; peer_net := net |}.

(** [Protocol] runs the gossip protocol.  The embedded logger is the trace;
    [config] is stored and never read.  [propagateQ] is a buffered channel:
    the list of the records in it, oldest first. *)
Record Protocol : Type := {
  net : baseNetwork;
  localNodePubkey : p2pcrypto.PublicKey;
  peers : gmap p2pcrypto.PublicKey peer;
  shutdown : chan_signal;
  oldMessageQ : types.DoubleCache;
  propagateQ : list service.MessageValidation;
  pq : priorityq.Queue;
  priorities : gmap string priorityq.Priority;
}.

Definition NewProtocol (base : baseNetwork) (localNodePubkey : p2pcrypto.PublicKey)
  : Protocol :=
  {| net := base;
     localNodePubkey := localNodePubkey;
     peers := ∅;
     shutdown := ChanOpen;
     oldMessageQ := types.NewDoubleCache oldMessageCacheSize;
     propagateQ := [];
     pq := priorityq.New;
     priorities := ∅ |}.

Definition set_peers (f : gmap p2pcrypto.PublicKey peer → gmap p2pcrypto.PublicKey peer)
  (prot : Protocol) : Protocol :=
  {| net := net prot; localNodePubkey := localNodePubkey prot;
     peers := f (peers prot); shutdown := shutdown prot;
     oldMessageQ := oldMessageQ prot; propagateQ := propagateQ prot;
     pq := pq prot; priorities := priorities prot |}.

Definition set_shutdown (c : chan_signal) (prot : Protocol) : Protocol :=
  {| net := net prot; localNodePubkey := localNodePubkey prot;
     peers := peers prot; shutdown := c;
     oldMessageQ := oldMessageQ prot; propagateQ := propagateQ prot;
     pq := pq prot; priorities := priorities prot |}.

Definition set_oldMessageQ (c : types.DoubleCache) (prot : Protocol) : Protocol :=
  {| net := net prot; localNodePubkey := localNodePubkey prot;
     peers := peers prot; shutdown := shutdown prot;
     oldMessageQ := c; propagateQ := propagateQ prot;
     pq := pq prot; priorities := priorities prot |}.

Definition set_propagateQ (l : list service.MessageValidation) (prot : Protocol) : Protocol :=
  {| net := net prot; localNodePubkey := localNodePubkey prot;
     peers := peers prot; shutdown := shutdown prot;
     oldMessageQ := oldMessageQ prot; propagateQ := l;
     pq := pq prot; priorities := priorities prot |}.

Definition set_pq (q : priorityq.Queue) (prot : Protocol) : Protocol :=
  {| net := net prot; localNodePubkey := localNodePubkey prot;
     peers := peers prot; shutdown := shutdown prot;
     oldMessageQ := oldMessageQ prot; propagateQ := propagateQ prot;
     pq := q; priorities := priorities prot |}.

Definition set_priorities
  (f : gmap string priorityq.Priority → gmap string priorityq.Priority)
  (prot : Protocol) : Protocol :=
  {| net := net prot; localNodePubkey := localNodePubkey prot;
     peers := peers prot; shutdown := shutdown prot;
     oldMessageQ := oldMessageQ prot; propagateQ := propagateQ prot;
     pq := pq prot; priorities := f (priorities prot) |}.

(** *** The state monad of the sequential code *)

Record World : Type := {
  w_prot : Protocol;
  w_trace : Trace;
}.

Definition M (A : Type) : Type := World → A * World.

Definition ret {A : Type} (a : A) : M A := λ w, (a, w).

Definition bind {A B : Type} (m : M A) (k : A → M B) : M B :=
  λ w, let '(a, w') := m w in k a w'.

#[global] Instance M_ret : MRet M := @ret.
#[global] Instance M_bind : MBind M := λ A B k m, bind m k.

(** Read and update the controller. *)
Definition gets {A : Type} (f : Protocol → A) : M A := λ w, (f (w_prot w), w).

Definition modify (f : Protocol → Protocol) : M unit :=
  λ w, (tt, {| w_prot := f (w_prot w); w_trace := w_trace w |}).

Definition emit (e : Event) : M unit :=
  λ w, (tt, {| w_prot := w_prot w; w_trace := e :: w_trace w |}).

Definition Log (lvl : log.Level) (text : string) (fields : list log.Field) : M unit :=
  emit (EvLog lvl text fields).

(** A call of [prot.net.SendMessage]: the network answers, the trace records
    the call and the answer. *)
Definition net_SendMessage (peerPubkey : p2pcrypto.PublicKey) (protocol : string)
  (payload : list byte) : M (option error) :=
  λ w, let err := SendMessage (net (w_prot w)) (w_trace w) peerPubkey protocol payload in
       (err, {| w_prot := w_prot w;
                w_trace := EvSendMessage peerPubkey protocol payload err :: w_trace w |}).

(** A call of [prot.net.ProcessGossipProtocolMessage] with [prot.propagateQ]
    as the channel on which the validator reports. *)
Definition net_ProcessGossipProtocolMessage (sender : p2pcrypto.PublicKey)
  (protocol : string) (data : service.Data) : M (option error) :=
  λ w, let err := ProcessGossipProtocolMessage (net (w_prot w)) (w_trace w)
                    sender protocol data in
       (err, {| w_prot := w_prot w;
                w_trace := EvProcessGossipProtocolMessage sender protocol data err
                             :: w_trace w |}).

(** *** The sequential methods *)

(** [Close] stops all protocol routines: [close(prot.shutdown)]. *)
Definition Close (w : World) : result World :=
  match close_chan (shutdown (w_prot w)) with
  | Ok c => Ok {| w_prot := set_shutdown c (w_prot w); w_trace := w_trace w |}
  | Panic msg => Panic msg
  end.

(** [markMessageAsOld] adds the hash to the old messages queue; it returns
    true if the message was already processed before. *)
Definition markMessageAsOld (h : types.Hash12) : M bool :=
  q ← gets oldMessageQ;
  let '(ok, q') := types.GetOrInsert q h in
  modify (set_oldMessageQ q');;
  ret ok.

Definition addPeer (peer : p2pcrypto.PublicKey) : M unit :=
  n ← gets net;
  modify (set_peers (λ ps, <[ peer := newPeer n peer ]> ps));;
  Log log.Info "adding peer" [log.Key "peer" peer].

Definition removePeer (peer : p2pcrypto.PublicKey) : M unit :=
  modify (set_peers (λ ps, delete peer ps));;
  Log log.Info "deleting peer" [log.Key "peer" peer].

(** [peersCount] and [hasPeer], used for testing only. *)
Definition peersCount : M Z :=
  gets (λ prot, Z.of_nat (size (peers prot))).

Definition hasPeer (key : p2pcrypto.PublicKey) : M bool :=
  gets (λ prot, bool_decide (is_Some (peers prot !! key))).

Section WithDigest.
Context `{types.Digest12}.

Definition processMessage (sender : p2pcrypto.PublicKey) (protocol : string)
  (msg : service.Data) : M (option error) :=
  let h := types.CalcMessageHash12 (service.Bytes msg) protocol in
  isOld ← markMessageAsOld h;
  if isOld : bool then
    emit (EvMetricAdd metrics.OldGossipMessages protocol 1);;
    Log log.Debug "old_gossip_message"
         [log.Key "from" sender; log.String "protocol" protocol; log.Hash "hash" h];;
    ret None
  else
    Log log.Debug "new_gossip_message"
         [log.Key "from" sender; log.String "protocol" protocol; log.Hash "hash" h];;
    emit (EvMetricAdd metrics.NewGossipMessages protocol 1);;
    net_ProcessGossipProtocolMessage sender protocol msg.

(** [Broadcast] processes the message internally, with the local node as
    its sender. *)
Definition Broadcast (payload : list byte) (nextProt : string) : M (option error) :=
  Log log.Debug "Broadcasting message from type %s" [log.String "arg" nextProt];;
  local ← gets localNodePubkey;
  processMessage local nextProt (service.DataBytes payload).

(** [Relay] processes a message received from [sender]. *)
Definition Relay (sender : p2pcrypto.PublicKey) (protocol : string)
  (msg : service.Data) : M (option error) :=
  processMessage sender protocol msg.

End WithDigest.

Definition getPriority (protoName : string) : M priorityq.Priority :=
  ps ← gets priorities;
  match ps !! protoName with
  | None =>
      Log log.Warning "note: no priority found for protocol"
           [log.String "protoName" protoName];;
      ret priorityq.Low
  | Some v => ret v
  end.

(** [SetPriority] sets the priority for [protoName] in the queue. *)
Definition SetPriority (protoName : string) (priority : priorityq.Priority) : M unit :=
  modify (set_priorities (λ ps, <[ protoName := priority ]> ps)).

(** *** Fan-out: [propagateMessage]

    [propagateMessage] copies the registry's keys under the read lock, then
    ranges over the copy: for each key other than [exclude] it adds one to
    the wait group and launches a goroutine; at the end it waits for the
    group.  The goroutines run concurrently with the loop and with one
    another, so the call is a small machine: the state of the caller (the
    keys still to visit), the goroutines launched so far and the wait
    group's counter. *)

(** Where a sending goroutine stands: about to call [SendMessage], about to
    log the failure, about to call [wg.Done], finished. *)
Inductive send_pc : Type :=
| SendCall
| SendWarn (err : error)
| SendDone
| SendExit.

#[global] Instance send_pc_eq_dec : EqDecision send_pc.
Proof. solve_decision. Defined.

Record fanout : Type := {
  fo_payload : list byte;
  fo_h : types.Hash12;
  fo_nextProt : string;
  fo_exclude : p2pcrypto.PublicKey;
  fo_range : list p2pcrypto.PublicKey;
  fo_gos : list (p2pcrypto.PublicKey * send_pc);
  fo_wg : Z;
}.

(** The registry's keys in the order in which Go's [range] visits the map on
    this run: any order of the keys may come up. *)
Definition is_snapshot (ps : gmap p2pcrypto.PublicKey peer)
  (order : list p2pcrypto.PublicKey) : Prop :=
  order ≡ₚ (map_to_list ps).*1.

#[global] Instance is_snapshot_dec ps order : Decision (is_snapshot ps order).
Proof. unfold is_snapshot. apply _. Defined.

(** The state once the keys are copied (the registry lock is released). *)
Definition propagateMessage_init (payload : list byte) (h : types.Hash12)
  (nextProt : string) (exclude : p2pcrypto.PublicKey)
  (order : list p2pcrypto.PublicKey) : fanout :=
  {| fo_payload := payload; fo_h := h; fo_nextProt := nextProt;
     fo_exclude := exclude; fo_range := order; fo_gos := []; fo_wg := 0 |}.

Definition set_range (r : list p2pcrypto.PublicKey) (f : fanout) : fanout :=
  {| fo_payload := fo_payload f; fo_h := fo_h f; fo_nextProt := fo_nextProt f;
     fo_exclude := fo_exclude f; fo_range := r; fo_gos := fo_gos f;
     fo_wg := fo_wg f |}.

(** [wg.Add(1); go func(pubkey) {...}(p)] *)
Definition launch (p : p2pcrypto.PublicKey) (f : fanout) : fanout :=
  {| fo_payload := fo_payload f; fo_h := fo_h f; fo_nextProt := fo_nextProt f;
     fo_exclude := fo_exclude f; fo_range := fo_range f;
     fo_gos := fo_gos f ++ [(p, SendCall)];
     fo_wg := (fo_wg f + 1)%Z |}.

Definition set_go (i : nat) (g : p2pcrypto.PublicKey * send_pc) (f : fanout) : fanout :=
  {| fo_payload := fo_payload f; fo_h := fo_h f; fo_nextProt := fo_nextProt f;
     fo_exclude := fo_exclude f; fo_range := fo_range f;
     fo_gos := <[ i := g ]> (fo_gos f);
     fo_wg := fo_wg f |}.

(** [wg.Done()] *)
Definition wg_done (f : fanout) : fanout :=
  {| fo_payload := fo_payload f; fo_h := fo_h f; fo_nextProt := fo_nextProt f;
     fo_exclude := fo_exclude f; fo_range := fo_range f;
     fo_gos := fo_gos f;
     fo_wg := (fo_wg f - 1)%Z |}.

(** The threads of one call: the caller, and the goroutines by launch
    order. *)
Inductive fo_thread : Type :=
| FoMain
| FoSend (i : nat).

(** What one step of a thread does to the call. *)
Inductive fo_outcome : Type :=
| FoStep (f : fanout)
| FoReturn
| FoBlocked.

(** One step of the caller: one iteration of the [range] loop, or the return
    from [wg.Wait()], which blocks while the counter is not zero. *)
Definition propagateMessage_main (f : fanout) : M fo_outcome :=
  match fo_range f with
  | p :: rest =>
      if decide (fo_exclude f = p)
      then ret (FoStep (set_range rest f))
      else ret (FoStep (launch p (set_range rest f)))
  | [] =>
      if decide (fo_wg f = 0%Z) then ret FoReturn else ret FoBlocked
  end.

(** One step of the [i]-th goroutine. *)
Definition propagateMessage_send (i : nat) (f : fanout) : M fo_outcome :=
  match fo_gos f !! i with
  | Some (pubkey, SendCall) =>
      err ← net_SendMessage pubkey (fo_nextProt f) (fo_payload f);
      match err with
      | Some e => ret (FoStep (set_go i (pubkey, SendWarn e) f))
      | None => ret (FoStep (set_go i (pubkey, SendDone) f))
      end
  | Some (pubkey, SendWarn e) =>
      Log log.Warning "Failed sending"
        [log.String "protocol" (fo_nextProt f); log.Hash "hash" (fo_h f);
         log.Key "to" pubkey; log.Err e];;
      ret (FoStep (set_go i (pubkey, SendDone) f))
  | Some (pubkey, SendDone) =>
      ret (FoStep (wg_done (set_go i (pubkey, SendExit) f)))
  | Some (_, SendExit) | None => ret FoBlocked
  end.

Definition propagateMessage_step (t : fo_thread) (f : fanout) : M fo_outcome :=
  match t with
  | FoMain => propagateMessage_main f
  | FoSend i => propagateMessage_send i f
  end.

(** A call under a schedule: the scheduler names the thread that moves
    next; naming a thread that cannot move changes nothing. *)
Inductive fo_status : Type :=
| Running (f : fanout)
| Returned.

Fixpoint propagateMessage_run (sched : list fo_thread) (st : fo_status) (w : World)
  : fo_status * World :=
  match sched, st with
  | [], _ | _, Returned => (st, w)
  | t :: sched', Running f =>
      match propagateMessage_step t f w with
      | (FoStep f', w') => propagateMessage_run sched' (Running f') w'
      | (FoReturn, w') => propagateMessage_run sched' Returned w'
      | (FoBlocked, _) => propagateMessage_run sched' (Running f) w
      end
  end.

(** Tests on where a goroutine stands. *)
Definition is_call (pc : send_pc) : bool :=
  match pc with SendCall => true | _ => false end.

Definition is_warn (pc : send_pc) : bool :=
  match pc with SendWarn _ => true | _ => false end.

Definition is_exit (pc : send_pc) : bool :=
  match pc with SendExit => true | _ => false end.

Definition past_call (pc : send_pc) : bool := negb (is_call pc).

Definition not_exit (pc : send_pc) : bool := negb (is_exit pc).

(** The keys of the goroutines that stand where [P] says, in launch
    order. *)
Fixpoint keys_where (P : send_pc → bool) (gos : list (p2pcrypto.PublicKey * send_pc))
  : list p2pcrypto.PublicKey :=
  match gos with
  | [] => []
  | (p, pc) :: rest => if P pc then p :: keys_where P rest else keys_where P rest
  end.

(** The goroutines that have not called [wg.Done] yet. *)
Definition unfinished (gos : list (p2pcrypto.PublicKey * send_pc)) : nat :=
  length (keys_where not_exit gos).

(** The wait group counts the goroutines that are not finished. *)
Definition fanout_wf (f : fanout) : Prop :=
  fo_wg f = Z.of_nat (unfinished (fo_gos f)).

(** The steps a goroutine has left. *)
Definition steps_left (pc : send_pc) : nat :=
  match pc with
  | SendCall => 3
  | SendWarn _ => 2
  | SendDone => 1
  | SendExit => 0
  end.

(** A bound on the steps a call has left, the return included. *)
Definition fanout_measure (f : fanout) : nat :=
  1 + 4 * length (fo_range f) + sum_list_with (λ g, steps_left g.2) (fo_gos f).

(** *** Reading a trace *)

(** The peers to which the trace holds a [SendMessage] call, newest
    first. *)
Fixpoint sent_to (tr : Trace) : list p2pcrypto.PublicKey :=
  match tr with
  | [] => []
  | EvSendMessage p _ _ _ :: tr' => p :: sent_to tr'
  | _ :: tr' => sent_to tr'
  end.

(** The peers to which a send failed. *)
Fixpoint failed_to (tr : Trace) : list p2pcrypto.PublicKey :=
  match tr with
  | [] => []
  | EvSendMessage p _ _ (Some _) :: tr' => p :: failed_to tr'
  | _ :: tr' => failed_to tr'
  end.

(** The peers named by a "Failed sending" warning. *)
Fixpoint warned_to (tr : Trace) : list p2pcrypto.PublicKey :=
  match tr with
  | [] => []
  | EvLog log.Warning "Failed sending" [_; _; log.Key _ p; _] :: tr' => p :: warned_to tr'
  | _ :: tr' => warned_to tr'
  end.

(** The hand-offs to the validator: the calls of
    [ProcessGossipProtocolMessage], newest first. *)
Fixpoint handoffs (tr : Trace) : list (p2pcrypto.PublicKey * string * service.Data) :=
  match tr with
  | [] => []
  | EvProcessGossipProtocolMessage s p d _ :: tr' => (s, p, d) :: handoffs tr'
  | _ :: tr' => handoffs tr'
  end.

(** The messages counted as duplicates: the sub-protocols of the
    [OldGossipMessages] increments. *)
Fixpoint duplicates (tr : Trace) : list string :=
  match tr with
  | [] => []
  | EvMetricAdd metrics.OldGossipMessages label _ :: tr' => label :: duplicates tr'
  | _ :: tr' => duplicates tr'
  end.

(** *** The loops

    [Start] launches [propagationEventLoop], which launches [handlePQ] and
    then selects between a validated record on [propagateQ] and the shutdown
    signal.  [handlePQ] reads the priority queue and propagates what it
    reads.  Each loop is a program counter; a step is one turn of a loop (or
    of a goroutine of the running fan-out), or a call from outside.  The
    membership loop is represented by the [addPeer] and [removePeer] calls
    it launches. *)

(** [propagationEventLoop]: not launched, about to launch [handlePQ], at the
    [select], returned. *)
Inductive feeder_pc : Type :=
| FeederNotStarted
| FeederSpawn
| FeederSelect
| FeederExited.

#[global] Instance feeder_pc_eq_dec : EqDecision feeder_pc.
Proof. solve_decision. Defined.

(** [handlePQ]: not launched, at [prot.pq.Read()], at the call of
    [propagateMessage] with its arguments, inside the call, returned. *)
Inductive consumer_pc : Type :=
| ConsumerNotStarted
| ConsumerRead
| ConsumerCall (payload : list byte) (h : types.Hash12) (nextProt : string)
    (exclude : p2pcrypto.PublicKey)
| ConsumerFanout (f : fanout)
| ConsumerExited.

Record Sys : Type := {
  sys_world : World;
  feeder : feeder_pc;
  consumer : consumer_pc;
}.

Definition NewSys (base : baseNetwork) (localNodePubkey : p2pcrypto.PublicKey) : Sys :=
  {| sys_world := {| w_prot := NewProtocol base localNodePubkey; w_trace := [] |};
     feeder := FeederNotStarted;
     consumer := ConsumerNotStarted |}.

(** The moves of a run.  Calls from outside: [Start] (made once), [Close],
    [Broadcast], [Relay] and [SetPriority]; an [addPeer] or [removePeer] that
    the membership loop launched; the validator reporting an accepted
    message on [propagateQ].  Turns of the loops: the launch of [handlePQ],
    the two branches of the [select], a [Read] with what follows it up to
    the call of [propagateMessage], the copy of the registry's keys in the
    order [order], and a step of a thread of the running fan-out.  A call
    from outside runs as one move; a send that is called returns. *)
Inductive Action : Type :=
| ActStart
| ActClose
| ActBroadcast (payload : list byte) (nextProt : string)
| ActRelay (sender : p2pcrypto.PublicKey) (protocol : string) (msg : service.Data)
| ActSetPriority (protoName : string) (priority : priorityq.Priority)
| ActAddPeer (peer : p2pcrypto.PublicKey)
| ActRemovePeer (peer : p2pcrypto.PublicKey)
| ActValidated (m : service.MessageValidation)
| ActFeederSpawn
| ActFeederMessage
| ActFeederShutdown
| ActConsumerRead
| ActConsumerSnapshot (order : list p2pcrypto.PublicKey)
| ActFanout (t : fo_thread).

(** What an action does: the next state, nothing because the thread cannot
    move (it is blocked, or is not at that point), or a panic. *)
Inductive outcome : Type :=
| Next (s : Sys)
| Blocked
| Crash (msg : string).

(** Run a piece of sequential code of a thread and move its counters. *)
Definition exec {A : Type} (m : M A) (s : Sys) (k : A → feeder_pc * consumer_pc) : outcome :=
  let '(a, w) := m (sys_world s) in
  Next {| sys_world := w; feeder := (k a).1; consumer := (k a).2 |}.

Definition stay {A : Type} (s : Sys) : A → feeder_pc * consumer_pc :=
  λ _, (feeder s, consumer s).

(** The message branch of the [select] of [propagationEventLoop], for the
    record [msgV] received from [propagateQ]. *)
Definition propagationEventLoop_message (msgV : service.MessageValidation) : M unit :=
  prio ← getPriority (service.Protocol msgV);
  q ← gets pq;
  let '(err, q') := priorityq.Write q prio (priorityq.ItemValidation msgV) in
  modify (set_pq q');;
  match err with
  | Some e =>
      Log log.Error "fatal: could not write to priority queue"
        [log.Err e; log.String "protocol" (service.Protocol msgV)]
  | None => ret tt
  end;;
  l ← gets propagateQ;
  emit (EvMetricSet metrics.PropagationQueueLen (Z.of_nat (length l))).

(** The shutdown branch. *)
Definition propagationEventLoop_shutdown : M unit :=
  modify (λ prot, set_pq (priorityq.Close (pq prot)) prot);;
  Log log.Error "propagate event loop stopped: protocol shutdown" [].

Section WithDigestLoops.
Context `{types.Digest12}.

(** One turn of [handlePQ] from the value that [Read] returned to the call
    of [propagateMessage] (or to the next turn, or to the return). *)
Definition handlePQ_read (r : priorityq.read_result) : M (option consumer_pc) :=
  match r with
  | priorityq.ReadBlocks => ret None
  | priorityq.ReadError err =>
      Log log.Info "priority queue was closed, existing" [log.Err err];;
      ret (Some ConsumerExited)
  | priorityq.ReadItem mi q' =>
      modify (set_pq q');;
      match mi with
      | priorityq.ItemOther =>
          Log log.Error "could not convert to message validation, ignoring message" [];;
          ret (Some ConsumerRead)
      | priorityq.ItemValidation m =>
          let h := types.CalcMessageHash12 (service.Message m) (service.Protocol m) in
          Log log.Debug "new_gossip_message_relay"
            [log.String "protocol" (service.Protocol m); log.Hash "hash" h];;
          ret (Some (ConsumerCall (service.Message m) h (service.Protocol m)
                       (service.Sender m)))
      end
  end.

Definition step (a : Action) (s : Sys) : outcome :=
  let prot := w_prot (sys_world s) in
  match a with
  | ActStart =>
      match feeder s with
      | FeederNotStarted =>
          Next {| sys_world := sys_world s; feeder := FeederSpawn; consumer := consumer s |}
      | _ => Blocked
      end
  | ActClose =>
      match Close (sys_world s) with
      | Ok w => Next {| sys_world := w; feeder := feeder s; consumer := consumer s |}
      | Panic msg => Crash msg
      end
  | ActBroadcast payload nextProt => exec (Broadcast payload nextProt) s (stay s)
  | ActRelay sender protocol msg => exec (Relay sender protocol msg) s (stay s)
  | ActSetPriority protoName priority => exec (SetPriority protoName priority) s (stay s)
  | ActAddPeer peer => exec (addPeer peer) s (stay s)
  | ActRemovePeer peer => exec (removePeer peer) s (stay s)
  | ActValidated m =>
      if decide (Z.of_nat (length (propagateQ prot)) < propagateHandleBufferSize)%Z
      then exec (modify (set_propagateQ (propagateQ prot ++ [m]))) s (stay s)
      else Blocked
  | ActFeederSpawn =>
      match feeder s with
      | FeederSpawn =>
          Next {| sys_world := sys_world s; feeder := FeederSelect; consumer := ConsumerRead |}
      | _ => Blocked
      end
  | ActFeederMessage =>
      match feeder s, propagateQ prot with
      | FeederSelect, msgV :: rest =>
          exec (modify (set_propagateQ rest);; propagationEventLoop_message msgV) s (stay s)
      | _, _ => Blocked
      end
  | ActFeederShutdown =>
      match feeder s, shutdown prot with
      | FeederSelect, ChanClosed =>
          exec propagationEventLoop_shutdown s (λ _, (FeederExited, consumer s))
      | _, _ => Blocked
      end
  | ActConsumerRead =>
      match consumer s with
      | ConsumerRead =>
          match handlePQ_read (priorityq.Read (pq prot)) (sys_world s) with
          | (Some c, w) => Next {| sys_world := w; feeder := feeder s; consumer := c |}
          | (None, _) => Blocked
          end
      | _ => Blocked
      end
  | ActConsumerSnapshot order =>
      match consumer s with
      | ConsumerCall payload h nextProt exclude =>
          if decide (is_snapshot (peers prot) order)
          then Next {| sys_world := sys_world s; feeder := feeder s;
                       consumer := ConsumerFanout
                                     (propagateMessage_init payload h nextProt exclude order) |}
          else Blocked
      | _ => Blocked
      end
  | ActFanout t =>
      match consumer s with
      | ConsumerFanout f =>
          match propagateMessage_step t f (sys_world s) with
          | (FoStep f', w) =>
              Next {| sys_world := w; feeder := feeder s; consumer := ConsumerFanout f' |}
          | (FoReturn, w) =>
              Next {| sys_world := w; feeder := feeder s; consumer := ConsumerRead |}
          | (FoBlocked, _) => Blocked
          end
      | _ => Blocked
      end
  end.

(** A run of the system under a schedule; it stops at the first action that
    cannot be taken. *)
Fixpoint run (sched : list Action) (s : Sys) : outcome :=
  match sched with
  | [] => Next s
  | a :: sched' =>
      match step a s with
      | Next s' => run sched' s'
      | o => o
      end
  end.

End WithDigestLoops.

(** What holds of every state of a run: a running fan-out has a sound wait
    group; [handlePQ] is launched by [propagationEventLoop] and by no one
    else; the queue is closed by the shutdown branch and by nothing else;
    [handlePQ] has not returned while the queue is open; and the shutdown
    branch is taken only once the signal has fired. *)
Definition sys_wf (s : Sys) : Prop :=
  (∀ f, consumer s = ConsumerFanout f → fanout_wf f) ∧
  (consumer s = ConsumerNotStarted
   ↔ feeder s = FeederNotStarted ∨ feeder s = FeederSpawn) ∧
  (priorityq.closed (pq (w_prot (sys_world s))) = true ↔ feeder s = FeederExited) ∧
  (consumer s = ConsumerExited → feeder s = FeederExited) ∧
  (feeder s = FeederExited → shutdown (w_prot (sys_world s)) = ChanClosed).

(** How a cache that started as [c0] relates to the list [d] of the novel
    fingerprints inserted since, oldest first: [d] ends with the inserted
    part of the previous generation followed by that of the current one. *)
Definition dc_tracks (c0 c : types.DoubleCache) (d : list types.Hash12) : Prop :=
  ∃ old pv cu : list types.Hash12,
    d = old ++ pv ++ cu ∧
    (Z.of_nat (length pv) ≤ types.dc_cap c)%Z ∧
    (Z.of_nat (length cu) ≤ types.dc_cap c)%Z ∧
    (∀ x, x ∈ d → x ∈ types.dc_previous c → x ∈ pv) ∧
    (∀ x, x ∈ d → x ∈ types.dc_current c → x ∈ cu) ∧
    (∀ x, x ∈ cu → x ∈ types.dc_current c) ∧
    (∀ x, types.dc_get c x = true → types.dc_get c0 x = true ∨ x ∈ d).

(** *** Submissions

    A message enters through [Broadcast] or through [Relay]. *)
Inductive submission : Type :=
| ViaBroadcast (payload : list byte) (nextProt : string)
| ViaRelay (sender : p2pcrypto.PublicKey) (protocol : string) (msg : service.Data).

Definition sub_payload (s : submission) : list byte :=
  match s with
  | ViaBroadcast payload _ => payload
  | ViaRelay _ _ msg => service.Bytes msg
  end.

Definition sub_protocol (s : submission) : string :=
  match s with
  | ViaBroadcast _ nextProt => nextProt
  | ViaRelay _ protocol _ => protocol
  end.

(** The arguments with which the submission reaches the validator. *)
Definition sub_handoff (local : p2pcrypto.PublicKey) (s : submission)
  : p2pcrypto.PublicKey * string * service.Data :=
  match s with
  | ViaBroadcast payload nextProt => (local, nextProt, service.DataBytes payload)
  | ViaRelay sender protocol msg => (sender, protocol, msg)
  end.

Section WithDigestSubmissions.
Context `{types.Digest12}.

Definition sub_hash (s : submission) : types.Hash12 :=
  types.CalcMessageHash12 (sub_payload s) (sub_protocol s).

Definition submit (s : submission) : M (option error) :=
  match s with
  | ViaBroadcast payload nextProt => Broadcast payload nextProt
  | ViaRelay sender protocol msg => Relay sender protocol msg
  end.

(** The world after a sequence of submissions, one after the other. *)
Definition submits (l : list submission) (w : World) : World :=
  foldl (λ w s, (submit s w).2) w l.

End WithDigestSubmissions.

(** The events that [w'] has and [w] had not. *)
Definition events_since (w w' : World) : Trace :=
  take (length (w_trace w') - length (w_trace w)) (w_trace w').

(** The hashes that the log lines of a trace carry, newest first. *)
Definition field_hashes (fs : list log.Field) : list types.Hash12 :=
  flat_map (λ f, match f with log.Hash _ h => [h] | _ => [] end) fs.

Fixpoint logged_hashes (tr : Trace) : list types.Hash12 :=
  match tr with
  | [] => []
  | EvLog _ _ fields :: tr' => field_hashes fields ++ logged_hashes tr'
  | _ :: tr' => logged_hashes tr'
  end.

(** The log line with which [Broadcast] starts. *)
Definition sub_prelude (s : submission) : Trace :=
  match s with
  | ViaBroadcast _ nextProt =>
      [EvLog log.Debug "Broadcasting message from type %s" [log.String "arg" nextProt]]
  | ViaRelay _ _ _ => []
  end.

(** *** Sequences of registry and classifier calls *)

Inductive peer_op : Type :=
| OpAdd (peer : p2pcrypto.PublicKey)
| OpRemove (peer : p2pcrypto.PublicKey).

Definition apply_op (o : peer_op) : M unit :=
  match o with
  | OpAdd peer => addPeer peer
  | OpRemove peer => removePeer peer
  end.

Definition apply_ops (ops : list peer_op) (w : World) : World :=
  foldl (λ w o, (apply_op o w).2) w ops.

Definition set_priorities_all (sets : list (string * priorityq.Priority)) (w : World) : World :=
  foldl (λ w np, (SetPriority np.1 np.2 w).2) w sets.

(** The priority that the last [SetPriority] call for [name] set, if there
    was one. *)
Fixpoint last_set (sets : list (string * priorityq.Priority)) (name : string)
  : option priorityq.Priority :=
  match sets with
  | [] => None
  | (n, p) :: rest =>
      match last_set rest name with
      | Some q => Some q
      | None => if decide (n = name) then Some p else None
      end
  end.

(** The cases of a step of a call, one per branch of [propagateMessage_main]
    and of [propagateMessage_send]. *)
Inductive step_case (f : fanout) (w : World) : fo_thread → fo_outcome → World → Prop :=
| case_skip p rest :
    fo_range f = p :: rest → fo_exclude f = p →
    step_case f w FoMain (FoStep (set_range rest f)) w
| case_launch p rest :
    fo_range f = p :: rest → fo_exclude f ≠ p →
    step_case f w FoMain (FoStep (launch p (set_range rest f))) w
| case_return :
    fo_range f = [] → fo_wg f = 0%Z →
    step_case f w FoMain FoReturn w
| case_wait :
    fo_range f = [] → fo_wg f ≠ 0%Z →
    step_case f w FoMain FoBlocked w
| case_call i p :
    fo_gos f !! i = Some (p, SendCall) →
    let err := SendMessage (net (w_prot w)) (w_trace w) p (fo_nextProt f) (fo_payload f) in
    step_case f w (FoSend i)
      (FoStep (set_go i (p, match err with Some e => SendWarn e | None => SendDone end) f))
      {| w_prot := w_prot w;
         w_trace := EvSendMessage p (fo_nextProt f) (fo_payload f) err :: w_trace w |}
| case_warn i p e :
    fo_gos f !! i = Some (p, SendWarn e) →
    step_case f w (FoSend i) (FoStep (set_go i (p, SendDone) f))
      {| w_prot := w_prot w;
         w_trace :=
           EvLog log.Warning "Failed sending"
             [log.String "protocol" (fo_nextProt f); log.Hash "hash" (fo_h f);
              log.Key "to" p; log.Err e] :: w_trace w |}
| case_done i p :
    fo_gos f !! i = Some (p, SendDone) →
    step_case f w (FoSend i) (FoStep (wg_done (set_go i (p, SendExit) f))) w
| case_idle i :
    (∀ p pc, fo_gos f !! i = Some (p, pc) → pc = SendExit) →
    step_case f w (FoSend i) FoBlocked w.

(** *** The invariant of a fan-out

    [f0] is the call as it started, [f] the call now, and [new] what the
    call has added to the trace. *)

(** An event of the call: a send of the call's payload on its
    sub-protocol, or the warning about a failed send. *)
Definition fanout_event (f0 : fanout) (e : Event) : Prop :=
  match e with
  | EvSendMessage _ protocol payload _ =>
      protocol = fo_nextProt f0 ∧ payload = fo_payload f0
  | EvLog log.Warning "Failed sending"
      [log.String "protocol" protocol; log.Hash "hash" h; log.Key "to" _; log.Err _] =>
      protocol = fo_nextProt f0 ∧ h = fo_h f0
  | _ => False
  end.

(** The keys that the loop does not skip. *)
Definition targets (exclude : p2pcrypto.PublicKey) (order : list p2pcrypto.PublicKey)
  : list p2pcrypto.PublicKey :=
  filter (λ p, exclude ≠ p) order.

Definition fanout_inv (f0 f : fanout) (new : Trace) : Prop :=
  fanout_wf f ∧
  (fo_payload f = fo_payload f0 ∧ fo_h f = fo_h f0 ∧
   fo_nextProt f = fo_nextProt f0 ∧ fo_exclude f = fo_exclude f0) ∧
  (fo_gos f).*1 ++ targets (fo_exclude f0) (fo_range f)
  = targets (fo_exclude f0) (fo_range f0) ∧
  sent_to new ≡ₚ keys_where past_call (fo_gos f) ∧
  failed_to new ≡ₚ warned_to new ++ keys_where is_warn (fo_gos f) ∧
  Forall (fanout_event f0) new.

(** What holds of the trace of a call that has returned. *)
Definition fanout_done (f0 : fanout) (new : Trace) : Prop :=
  sent_to new ≡ₚ targets (fo_exclude f0) (fo_range f0) ∧
  failed_to new ≡ₚ warned_to new ∧
  Forall (fanout_event f0) new.

(** What a run keeps: the invariant while the call is running, the final
    facts once it has returned. *)
Definition fanout_status_inv (f0 : fanout) (st : fo_status) (new : Trace) : Prop :=
  match st with
  | Running f => fanout_inv f0 f new
  | Returned => fanout_done f0 new
  end.

(** *** Reading a sequence of registry calls *)

(** The key that a call names. *)
Definition op_key (o : peer_op) : p2pcrypto.PublicKey :=
  match o with OpAdd peer | OpRemove peer => peer end.

(** Whether a call adds its key. *)
Definition op_adds (o : peer_op) : bool :=
  match o with OpAdd _ => true | OpRemove _ => false end.

(** What the last call on [key] was: [Some true] for [addPeer], [Some
    false] for [removePeer], [None] when no call names [key]. *)
Fixpoint last_op (ops : list peer_op) (key : p2pcrypto.PublicKey) : option bool :=
  match ops with
  | [] => None
  | o :: rest =>
      match last_op rest key with
      | Some b => Some b
      | None => if decide (op_key o = key) then Some (op_adds o) else None
      end
  end.

(** The log line of a call. *)
Definition op_log (o : peer_op) : Event :=
  match o with
  | OpAdd peer => EvLog log.Info "adding peer" [log.Key "peer" peer]
  | OpRemove peer => EvLog log.Info "deleting peer" [log.Key "peer" peer]
  end.

(** What a call does to the registry. *)
Definition op_peers (n : baseNetwork) (o : peer_op)
  (ps : gmap p2pcrypto.PublicKey peer) : gmap p2pcrypto.PublicKey peer :=
  match o with
  | OpAdd peer => <[ peer := newPeer n peer ]> ps
  | OpRemove peer => delete peer ps
  end.

(** *** Reading the counters and the log *)

#[global] Instance Metric_eq_dec : EqDecision metrics.Metric.
Proof. solve_decision. Defined.

(** What a trace adds to the counter [m] under the label [label]. *)
Fixpoint metric_added (m : metrics.Metric) (label : string) (tr : Trace) : Z :=
  match tr with
  | [] => 0
  | EvMetricAdd m' label' delta :: tr' =>
      ((if decide (m' = m ∧ label' = label) then delta else 0) + metric_added m label tr')%Z
  | _ :: tr' => metric_added m label tr'
  end.

(** The submissions of a list on the sub-protocol [label]. *)
Definition on_protocol (label : string) (l : list submission) : list submission :=
  filter (λ s, sub_protocol s = label) l.

(** The levels of the log lines of a trace. *)
Fixpoint log_levels (tr : Trace) : list log.Level :=
  match tr with
  | [] => []
  | EvLog lvl _ _ :: tr' => lvl :: log_levels tr'
  | _ :: tr' => log_levels tr'
  end.

(** The events of message intake: debug lines, counter increments and
    calls of the validator. *)
Definition intake_event (e : Event) : Prop :=
  match e with
  | EvLog log.Debug _ _ | EvMetricAdd _ _ _ | EvProcessGossipProtocolMessage _ _ _ _ => True
  | _ => False
  end.

(** *** Reading a run of the pipeline *)

(** The sends of a trace with what they carry (peer, sub-protocol,
    payload), newest first. *)
Fixpoint sends (tr : Trace) : list (p2pcrypto.PublicKey * string * list byte) :=
  match tr with
  | [] => []
  | EvSendMessage p protocol payload _ :: tr' => (p, protocol, payload) :: sends tr'
  | _ :: tr' => sends tr'
  end.

#[global] Instance Level_eq_dec : EqDecision log.Level.
Proof. solve_decision. Defined.

(** The fields of the log lines of level [lvl] that carry the text [text],
    newest first. *)
Fixpoint logged (lvl : log.Level) (text : string) (tr : Trace) : list (list log.Field) :=
  match tr with
  | [] => []
  | EvLog lvl' text' fields :: tr' =>
      if decide (lvl' = lvl ∧ text' = text)
      then fields :: logged lvl text tr' else logged lvl text tr'
  | _ :: tr' => logged lvl text tr'
  end.

(** The values that the trace sets a metric to, newest first. *)
Fixpoint metric_values (m : metrics.Metric) (tr : Trace) : list Z :=
  match tr with
  | [] => []
  | EvMetricSet m' v :: tr' =>
      if decide (m' = m) then v :: metric_values m tr' else metric_values m tr'
  | _ :: tr' => metric_values m tr'
  end.

(** The records that the validator reports in a schedule, in order. *)
Fixpoint validated (sched : list Action) : list service.MessageValidation :=
  match sched with
  | [] => []
  | ActValidated m :: sched' => m :: validated sched'
  | _ :: sched' => validated sched'
  end.

(** The record [m] stands behind a send: the send carries the record's
    message on the record's sub-protocol, to a peer other than the
    record's sender. *)
Definition carries (m : service.MessageValidation)
  (a : p2pcrypto.PublicKey * string * list byte) : Prop :=
  service.Protocol m = a.1.2 ∧ service.Message m = a.2 ∧ service.Sender m ≠ a.1.1.

(** What holds of the pipeline in every state of a run in which the
    validator has reported the records [V]: the buffered channel holds at
    most its capacity; what waits in the channel, in the priority queue and
    in the consumer's hands is a reported record; a running fan-out has
    launched no goroutine for the sender it excludes; every send carries a
    reported record; the consumer has met no item of another type; and the
    queue-length metric has stayed within the capacity. *)
Definition pipeline_inv (V : list service.MessageValidation) (s : Sys) : Prop :=
  let prot := w_prot (sys_world s) in
  let tr := w_trace (sys_world s) in
  (Z.of_nat (length (propagateQ prot)) ≤ propagateHandleBufferSize)%Z ∧
  (∀ m, m ∈ propagateQ prot → m ∈ V) ∧
  (∀ prio it, (prio, it) ∈ priorityq.pending (pq prot) →
              ∃ m, it = priorityq.ItemValidation m ∧ m ∈ V) ∧
  match consumer s with
  | ConsumerCall payload _ nextProt exclude =>
      ∃ m, m ∈ V ∧ service.Message m = payload ∧ service.Protocol m = nextProt ∧
           service.Sender m = exclude
  | ConsumerFanout f =>
      (∃ m, m ∈ V ∧ service.Message m = fo_payload f ∧ service.Protocol m = fo_nextProt f ∧
            service.Sender m = fo_exclude f) ∧
      Forall (λ g, fo_exclude f ≠ g.1) (fo_gos f)
  | _ => True
  end ∧
  (∀ a, a ∈ sends tr → ∃ m, m ∈ V ∧ carries m a) ∧
  logged log.Error "could not convert to message validation, ignoring message" tr = [] ∧
  Forall (λ v, (0 ≤ v ≤ propagateHandleBufferSize)%Z)
    (metric_values metrics.PropagationQueueLen tr).

Definition with_world (w : World) (s : Sys) : Sys :=
  {| sys_world := w; feeder := feeder s; consumer := consumer s |}.

Definition with_consumer (c : consumer_pc) (s : Sys) : Sys :=
  {| sys_world := sys_world s; feeder := feeder s; consumer := c |}.

Definition with_feeder (c : feeder_pc) (s : Sys) : Sys :=
  {| sys_world := sys_world s; feeder := c; consumer := consumer s |}.

Definition log_event (lvl : log.Level) (text : string) (fields : list log.Field)
  (w : World) : World :=
  {| w_prot := w_prot w; w_trace := EvLog lvl text fields :: w_trace w |}.

Section WithDigestEffects.
Context `{types.Digest12}.

(** The cases of a step of the system, one per branch of [step]. *)
Inductive step_effect (s : Sys) : Action → Sys → Prop :=
| eff_start :
    feeder s = FeederNotStarted →
    step_effect s ActStart (with_feeder FeederSpawn s)
| eff_close :
    shutdown (w_prot (sys_world s)) = ChanOpen →
    step_effect s ActClose
      (with_world {| w_prot := set_shutdown ChanClosed (w_prot (sys_world s));
                     w_trace := w_trace (sys_world s) |} s)
| eff_broadcast payload nextProt :
    step_effect s (ActBroadcast payload nextProt)
      (with_world (submit (ViaBroadcast payload nextProt) (sys_world s)).2 s)
| eff_relay sender protocol msg :
    step_effect s (ActRelay sender protocol msg)
      (with_world (submit (ViaRelay sender protocol msg) (sys_world s)).2 s)
| eff_set_priority protoName priority :
    step_effect s (ActSetPriority protoName priority)
      (with_world {| w_prot := set_priorities (λ ps, <[ protoName := priority ]> ps)
                                 (w_prot (sys_world s));
                     w_trace := w_trace (sys_world s) |} s)
| eff_peer o :
    step_effect s (match o with OpAdd p => ActAddPeer p | OpRemove p => ActRemovePeer p end)
      (with_world (apply_op o (sys_world s)).2 s)
| eff_validated m :
    (Z.of_nat (length (propagateQ (w_prot (sys_world s)))) < propagateHandleBufferSize)%Z →
    step_effect s (ActValidated m)
      (with_world {| w_prot := set_propagateQ (propagateQ (w_prot (sys_world s)) ++ [m])
                                 (w_prot (sys_world s));
                     w_trace := w_trace (sys_world s) |} s)
| eff_feeder_spawn :
    feeder s = FeederSpawn →
    step_effect s ActFeederSpawn
      {| sys_world := sys_world s; feeder := FeederSelect; consumer := ConsumerRead |}
| eff_feeder_message m rest new :
    feeder s = FeederSelect →
    propagateQ (w_prot (sys_world s)) = m :: rest →
    new = (if priorityq.closed (pq (w_prot (sys_world s)))
           then [EvLog log.Error "fatal: could not write to priority queue"
                   [log.Err priorityq.ErrQueueClosed;
                    log.String "protocol" (service.Protocol m)]]
           else [])
          ++ (match priorities (w_prot (sys_world s)) !! service.Protocol m with
              | Some _ => []
              | None => [EvLog log.Warning "note: no priority found for protocol"
                           [log.String "protoName" (service.Protocol m)]]
              end) →
    step_effect s ActFeederMessage
      (with_world
         {| w_prot :=
              set_pq (priorityq.Write (pq (w_prot (sys_world s)))
                        (default priorityq.Low
                           (priorities (w_prot (sys_world s)) !! service.Protocol m))
                        (priorityq.ItemValidation m)).2
                (set_propagateQ rest (w_prot (sys_world s)));
            w_trace := EvMetricSet metrics.PropagationQueueLen (Z.of_nat (length rest))
                       :: new ++ w_trace (sys_world s) |} s)
| eff_feeder_shutdown :
    feeder s = FeederSelect →
    shutdown (w_prot (sys_world s)) = ChanClosed →
    step_effect s ActFeederShutdown
      (with_feeder FeederExited
         (with_world
            (log_event log.Error "propagate event loop stopped: protocol shutdown" []
               {| w_prot := set_pq (priorityq.Close (pq (w_prot (sys_world s))))
                              (w_prot (sys_world s));
                  w_trace := w_trace (sys_world s) |}) s))
| eff_read_closed err :
    consumer s = ConsumerRead →
    priorityq.Read (pq (w_prot (sys_world s))) = priorityq.ReadError err →
    step_effect s ActConsumerRead
      (with_consumer ConsumerExited
         (with_world
            (log_event log.Info "priority queue was closed, existing" [log.Err err]
               (sys_world s)) s))
| eff_read_record m q' :
    consumer s = ConsumerRead →
    priorityq.Read (pq (w_prot (sys_world s)))
    = priorityq.ReadItem (priorityq.ItemValidation m) q' →
    let h := types.CalcMessageHash12 (service.Message m) (service.Protocol m) in
    step_effect s ActConsumerRead
      (with_consumer
         (ConsumerCall (service.Message m) h (service.Protocol m) (service.Sender m))
         (with_world
            (log_event log.Debug "new_gossip_message_relay"
               [log.String "protocol" (service.Protocol m); log.Hash "hash" h]
               {| w_prot := set_pq q' (w_prot (sys_world s));
                  w_trace := w_trace (sys_world s) |}) s))
| eff_read_other q' :
    consumer s = ConsumerRead →
    priorityq.Read (pq (w_prot (sys_world s))) = priorityq.ReadItem priorityq.ItemOther q' →
    step_effect s ActConsumerRead
      (with_world
         (log_event log.Error "could not convert to message validation, ignoring message" []
            {| w_prot := set_pq q' (w_prot (sys_world s));
               w_trace := w_trace (sys_world s) |}) s)
| eff_snapshot payload h nextProt exclude order :
    consumer s = ConsumerCall payload h nextProt exclude →
    is_snapshot (peers (w_prot (sys_world s))) order →
    step_effect s (ActConsumerSnapshot order)
      (with_consumer (ConsumerFanout (propagateMessage_init payload h nextProt exclude order)) s)
| eff_fanout_step t f f' w' :
    consumer s = ConsumerFanout f →
    step_case f (sys_world s) t (FoStep f') w' →
    step_effect s (ActFanout t) (with_consumer (ConsumerFanout f') (with_world w' s))
| eff_fanout_return t f w' :
    consumer s = ConsumerFanout f →
    step_case f (sys_world s) t FoReturn w' →
    step_effect s (ActFanout t) (with_consumer ConsumerRead (with_world w' s)).

(** [s'] is reached from [s] by steps taken while a call of
    [propagateMessage] is running: any thread may move, the call's own and
    the others; nothing is taken once the call has returned. *)
Inductive call_steps (s : Sys) : Sys → Prop :=
| call_steps_refl : call_steps s s
| call_steps_step s1 a s2 f :
    call_steps s s1 →
    consumer s1 = ConsumerFanout f →
    step a s1 = Next s2 →
    call_steps s s2.

(** Whether a schedule is taken while the call that is running in [s] is
    running: every action starts in a state whose consumer is inside the
    call. *)
Fixpoint in_call (sched : list Action) (s : Sys) : bool :=
  match sched with
  | [] => true
  | a :: sched' =>
      match consumer s, step a s with
      | ConsumerFanout _, Next s' => in_call sched' s'
      | _, _ => false
      end
  end.

End WithDigestEffects.

(** What holds while the call that started with the keys [order] and the
    excluded key [exclude] is running, and once it has returned; [new] is
    what the whole system has added to the trace since the call started. *)
Definition call_inv (exclude : p2pcrypto.PublicKey) (order : list p2pcrypto.PublicKey)
  (c : consumer_pc) (new : Trace) : Prop :=
  match c with
  | ConsumerFanout f =>
      fanout_wf f ∧
      fo_exclude f = exclude ∧
      (fo_gos f).*1 ++ targets exclude (fo_range f) = targets exclude order ∧
      sent_to new ≡ₚ keys_where past_call (fo_gos f) ∧
      failed_to new ≡ₚ warned_to new ++ keys_where is_warn (fo_gos f)
  | ConsumerRead =>
      sent_to new ≡ₚ targets exclude order ∧
      failed_to new ≡ₚ warned_to new
  | _ => False
  end.

(** *** The membership loop: [Start] and [eventLoop]

    [Start] asks the network for the two streams of peer events and
    launches [eventLoop] on them, then [propagationEventLoop].  [eventLoop]
    selects between a key on [peerConn], a key on [peerDisc] and the shutdown
    signal; for a key it launches [addPeer] or [removePeer] in a goroutine of
    its own and goes on; it returns when a stream is closed or the signal has
    fired, and logs on its way out (the deferred call). *)

(** A channel of keys: the keys sent and not yet received, oldest first
    (a sender that is blocked in its send has its key here), and whether the
    channel has been closed. *)
Record chan_keys : Type := {
  ch_queue : list p2pcrypto.PublicKey;
  ch_closed : bool;
}.

Definition chan_make : chan_keys := {| ch_queue := []; ch_closed := false |}.

(** [peer, ok := <-c]: a key that was sent, with [ok] true; on a closed
    channel with nothing left, the zero value with [ok] false; otherwise the
    receive blocks. *)
Inductive recv_result : Type :=
| RecvValue (peer : p2pcrypto.PublicKey) (c : chan_keys)
| RecvClosed
| RecvBlocks.

Definition chan_recv (c : chan_keys) : recv_result :=
  match ch_queue c with
  | peer :: rest => RecvValue peer {| ch_queue := rest; ch_closed := ch_closed c |}
  | [] => if ch_closed c then RecvClosed else RecvBlocks
  end.

(** [c <- peer] and [close(c)], which the network does: both panic on a
    closed channel. *)
Definition chan_send (peer : p2pcrypto.PublicKey) (c : chan_keys) : result chan_keys :=
  if ch_closed c then Panic "send on closed channel"
  else Ok {| ch_queue := ch_queue c ++ [peer]; ch_closed := false |}.

Definition chan_close (c : chan_keys) : result chan_keys :=
  if ch_closed c then Panic "close of closed channel"
  else Ok {| ch_queue := ch_queue c; ch_closed := true |}.

(** [eventLoop]: not launched, at the [select], returned. *)
Inductive member_pc : Type :=
| MemberNotStarted
| MemberSelect
| MemberExited.

#[global] Instance member_pc_eq_dec : EqDecision member_pc.
Proof. solve_decision. Defined.

(** The node: the controller with its propagation loops, the membership
    loop, the two streams that [SubscribePeerEvents] handed out, and the
    goroutines that [eventLoop] has launched and that have not run yet, in
    launch order. *)
Record Node : Type := {
  node_sys : Sys;
  member : member_pc;
  peerConn : chan_keys;
  peerDisc : chan_keys;
  node_gos : list peer_op;
}.

Definition NewNode (base : baseNetwork) (localNodePubkey : p2pcrypto.PublicKey) : Node :=
  {| node_sys := NewSys base localNodePubkey;
     member := MemberNotStarted;
     peerConn := chan_make;
     peerDisc := chan_make;
     node_gos := [] |}.

Definition set_node_sys (s : Sys) (n : Node) : Node :=
  {| node_sys := s; member := member n; peerConn := peerConn n; peerDisc := peerDisc n;
     node_gos := node_gos n |}.

Definition set_member (c : member_pc) (n : Node) : Node :=
  {| node_sys := node_sys n; member := c; peerConn := peerConn n; peerDisc := peerDisc n;
     node_gos := node_gos n |}.

Definition set_peerConn (c : chan_keys) (n : Node) : Node :=
  {| node_sys := node_sys n; member := member n; peerConn := c; peerDisc := peerDisc n;
     node_gos := node_gos n |}.

Definition set_peerDisc (c : chan_keys) (n : Node) : Node :=
  {| node_sys := node_sys n; member := member n; peerConn := peerConn n; peerDisc := c;
     node_gos := node_gos n |}.

Definition set_node_gos (l : list peer_op) (n : Node) : Node :=
  {| node_sys := node_sys n; member := member n; peerConn := peerConn n;
     peerDisc := peerDisc n; node_gos := l |}.

(** The moves of a node.  [NodeStart] is the call of [Start] (made once).
    [NodeSys] is a move of the controller or of the propagation loops, as in
    [step]; [Start], [addPeer] and [removePeer] are not among them: here
    [Start] launches the membership loop as well, and the registry is
    changed by the goroutines of that loop alone.  The network sends a key
    on a stream or closes a stream.  The membership loop takes a branch of
    its [select].  [NodeGo i] runs the [i]-th goroutine that is waiting. *)
Inductive NodeAction : Type :=
| NodeStart
| NodeSys (a : Action)
| NetConnect (peer : p2pcrypto.PublicKey)
| NetDisconnect (peer : p2pcrypto.PublicKey)
| NetCloseConn
| NetCloseDisc
| MemberConn
| MemberDisc
| MemberShutdown
| NodeGo (i : nat).

Inductive node_outcome : Type :=
| NodeNext (n : Node)
| NodeBlocked
| NodeCrash (msg : string).

(** The return of [eventLoop], with its deferred log line. *)
Definition eventLoop_return (n : Node) : Node :=
  set_member MemberExited
    (set_node_sys
       (with_world (log_event log.Info "Gossip protocol shutdown" [] (sys_world (node_sys n)))
          (node_sys n)) n).

(** A branch of the [select] that receives from a stream: [go
    prot.addPeer(peer)] or [go prot.removePeer(peer)] for a key, the return
    when the stream is closed. *)
Definition eventLoop_recv (c : chan_keys) (call : p2pcrypto.PublicKey → peer_op)
  (set : chan_keys → Node → Node) (n : Node) : node_outcome :=
  match chan_recv c with
  | RecvValue peer c' => NodeNext (set_node_gos (node_gos n ++ [call peer]) (set c' n))
  | RecvClosed => NodeNext (eventLoop_return n)
  | RecvBlocks => NodeBlocked
  end.

(** What the network does to a stream. *)
Definition net_chan (r : result chan_keys) (set : chan_keys → Node → Node) (n : Node)
  : node_outcome :=
  match member n with
  | MemberNotStarted => NodeBlocked
  | _ => match r with
         | Ok c => NodeNext (set c n)
         | Panic msg => NodeCrash msg
         end
  end.

Section WithDigestNode.
Context `{types.Digest12}.

Definition node_step (a : NodeAction) (n : Node) : node_outcome :=
  match a with
  | NodeStart =>
      match member n, step ActStart (node_sys n) with
      | MemberNotStarted, Next s => NodeNext (set_member MemberSelect (set_node_sys s n))
      | _, _ => NodeBlocked
      end
  | NodeSys a' =>
      match a' with
      | ActStart | ActAddPeer _ | ActRemovePeer _ => NodeBlocked
      | _ =>
          match step a' (node_sys n) with
          | Next s => NodeNext (set_node_sys s n)
          | Blocked => NodeBlocked
          | Crash msg => NodeCrash msg
          end
      end
  | NetConnect peer => net_chan (chan_send peer (peerConn n)) set_peerConn n
  | NetDisconnect peer => net_chan (chan_send peer (peerDisc n)) set_peerDisc n
  | NetCloseConn => net_chan (chan_close (peerConn n)) set_peerConn n
  | NetCloseDisc => net_chan (chan_close (peerDisc n)) set_peerDisc n
  | MemberConn =>
      match member n with
      | MemberSelect => eventLoop_recv (peerConn n) OpAdd set_peerConn n
      | _ => NodeBlocked
      end
  | MemberDisc =>
      match member n with
      | MemberSelect => eventLoop_recv (peerDisc n) OpRemove set_peerDisc n
      | _ => NodeBlocked
      end
  | MemberShutdown =>
      match member n, shutdown (w_prot (sys_world (node_sys n))) with
      | MemberSelect, ChanClosed => NodeNext (eventLoop_return n)
      | _, _ => NodeBlocked
      end
  | NodeGo i =>
      match node_gos n !! i with
      | Some o =>
          NodeNext
            (set_node_gos (delete i (node_gos n))
               (set_node_sys
                  (with_world (apply_op o (sys_world (node_sys n))).2 (node_sys n)) n))
      | None => NodeBlocked
      end
  end.

(** A run of the node under a schedule; it stops at the first action that
    cannot be taken. *)
Fixpoint node_run (sched : list NodeAction) (n : Node) : node_outcome :=
  match sched with
  | [] => NodeNext n
  | a :: sched' =>
      match node_step a n with
      | NodeNext n' => node_run sched' n'
      | o => o
      end
  end.

End WithDigestNode.

(** The registry call that a log line reports. *)
Definition applied_op (e : Event) : option peer_op :=
  match e with
  | EvLog log.Info text [log.Key _ peer] =>
      if decide (text = "adding peer") then Some (OpAdd peer)
      else if decide (text = "deleting peer") then Some (OpRemove peer)
      else None
  | _ => None
  end.

(** The registry calls that a trace reports, newest first. *)
Definition applied_ops (tr : Trace) : list peer_op := omap applied_op tr.

(** The peer events that the network sends in a schedule, as the registry
    calls they ask for. *)
Fixpoint net_ops (sched : list NodeAction) : list peer_op :=
  match sched with
  | [] => []
  | NetConnect peer :: sched' => OpAdd peer :: net_ops sched'
  | NetDisconnect peer :: sched' => OpRemove peer :: net_ops sched'
  | _ :: sched' => net_ops sched'
  end.

(** Where a peer event can be: in its stream, in a goroutine that has not
    run, or applied to the registry. *)
Definition node_ops (n : Node) : list peer_op :=
  (OpAdd <$> ch_queue (peerConn n)) ++ (OpRemove <$> ch_queue (peerDisc n))
  ++ node_gos n ++ applied_ops (w_trace (sys_world (node_sys n))).

(** The registry that the logged calls make of the empty registry when
    they are applied in the order of the log. *)
Definition logged_registry (n : baseNetwork) (tr : Trace) : gmap p2pcrypto.PublicKey peer :=
  foldl (λ ps o, op_peers n o ps) ∅ (rev (applied_ops tr)).

(** What holds of every state of a run of the node in which the network
    has sent the events [sent]: every event is in one place; the registry is
    what the log says; the loop has logged its return exactly when it has
    returned, and it has returned for a reason; and before [Start] the
    network has sent nothing. *)
Definition node_inv (base : baseNetwork) (sent : list peer_op) (n : Node) : Prop :=
  let w := sys_world (node_sys n) in
  sys_wf (node_sys n) ∧
  net (w_prot w) = base ∧
  sent ≡ₚ node_ops n ∧
  peers (w_prot w) = logged_registry base (w_trace w) ∧
  logged log.Info "Gossip protocol shutdown" (w_trace w)
  = (if decide (member n = MemberExited) then [[]] else []) ∧
  (member n = MemberExited →
   shutdown (w_prot w) = ChanClosed ∨ ch_closed (peerConn n) = true
   ∨ ch_closed (peerDisc n) = true) ∧
  (member n = MemberNotStarted → sent = []).

(** The action of [step] that makes a registry call. *)
Definition op_action (o : peer_op) : Action :=
  match o with
  | OpAdd peer => ActAddPeer peer
  | OpRemove peer => ActRemovePeer peer
  end.

(** *** The launch of the sends *)

(** The call once the caller has gone through its loop and no goroutine has
    moved: one goroutine per key that is not skipped, each about to send,
    and the wait group at their number. *)
Definition all_launched (f0 : fanout) : fanout :=
  let ts := targets (fo_exclude f0) (fo_range f0) in
  {| fo_payload := fo_payload f0; fo_h := fo_h f0; fo_nextProt := fo_nextProt f0;
     fo_exclude := fo_exclude f0; fo_range := [];
     fo_gos := fo_gos f0 ++ ((λ p, (p, SendCall)) <$> ts);
     fo_wg := (fo_wg f0 + Z.of_nat (length ts))%Z |}.

(** *** Sample inputs

    Concrete keys, messages, a network and a digest on which the theorems
    below are instantiated. *)

Definition keyA : p2pcrypto.PublicKey := p2pcrypto.Build_PublicKey ["a"%byte].
Definition keyB : p2pcrypto.PublicKey := p2pcrypto.Build_PublicKey ["b"%byte].
Definition keyC : p2pcrypto.PublicKey := p2pcrypto.Build_PublicKey ["c"%byte].
Definition keyS : p2pcrypto.PublicKey := p2pcrypto.Build_PublicKey ["s"%byte].
Definition keyLocal : p2pcrypto.PublicKey := p2pcrypto.Build_PublicKey ["l"%byte].

(** A stand-in digest: the first twelve bytes of the zero-padded input. *)
Definition sample_digest : types.Digest12 :=
  λ bs, types.Build_Hash12 (take 12 (bs ++ replicate 12 Byte.x00)).

(** A network that cannot reach [keyB] and whose validator refuses the
    sub-protocol "bad". *)
Definition sample_net : baseNetwork :=
  {| SendMessage := λ _ p _ _,
       if decide (p = keyB) then Some "unreachable"%string else None;
     ProcessGossipProtocolMessage := λ _ _ protocol _,
       if decide (protocol = "bad"%string) then Some "refused"%string else None |}.

Definition sample_world : World :=
  {| w_prot := NewProtocol sample_net keyLocal; w_trace := [] |}.

Definition sample_hash (n : N) : types.Hash12 :=
  types.Build_Hash12 (byte_of_N_total n :: replicate 11 Byte.x00).

(** Two-byte payloads, distinct below 65536, and the traffic that relays
    the first [n] of them on sub-protocol "x". *)
Definition sample_payload (i : nat) : list byte :=
  [byte_of_N_total (N.of_nat i / 256); byte_of_N_total (N.of_nat i mod 256)].

Definition sample_traffic (n : N) : list submission :=
  (λ i, ViaRelay keyS "x" (service.DataBytes (sample_payload i))) <$> seq 0 (N.to_nat n).

(** A message that the validator of [sample_net] refuses. *)
Definition sample_refused : submission :=
  ViaRelay keyS "bad" (service.DataBytes []).

(** A run of the whole pipeline: [Start]; three peers, the sender among
    them; a priority; a message relayed from [keyS] and accepted by the
    validator; the feeding loop queues it; [handlePQ] reads it and fans it
    out while [Close] is called; both loops return. *)
Definition sample_record : service.MessageValidation :=
  {| service.mv_sender := keyS; service.mv_msg := ["m"%byte]; service.mv_prot := "x" |}.

Definition sample_schedule : list Action :=
  [ActStart; ActFeederSpawn; ActAddPeer keyA; ActAddPeer keyB; ActAddPeer keyS;
   ActSetPriority "x" priorityq.High;
   ActRelay keyS "x" (service.DataBytes ["m"%byte]); ActValidated sample_record;
   ActFeederMessage; ActConsumerRead; ActConsumerSnapshot [keyS; keyB; keyA];
   ActFanout FoMain; ActFanout FoMain; ActFanout (FoSend 0); ActFanout FoMain;
   ActFanout (FoSend 1); ActFanout (FoSend 0); ActFanout (FoSend 0);
   ActFanout (FoSend 1); ActClose; ActFanout FoMain; ActFeederShutdown;
   ActConsumerRead].

(** A run up to the call of [propagateMessage] for [sample_record], and
    steps taken during that call: [keyA] leaves and [keyC] joins while the
    call is running. *)
Definition sample_before_call : list Action :=
  [ActStart; ActFeederSpawn; ActAddPeer keyA; ActAddPeer keyB; ActAddPeer keyS;
   ActValidated sample_record; ActFeederMessage; ActConsumerRead].

Definition sample_during_call : list Action :=
  [ActFanout FoMain; ActRemovePeer keyA; ActAddPeer keyC; ActFanout FoMain;
   ActFanout FoMain; ActFanout (FoSend 1); ActFanout (FoSend 0); ActFanout (FoSend 0);
   ActFanout (FoSend 0); ActFanout (FoSend 1); ActFanout FoMain].

(** What happens after the loops of [sample_schedule] have returned. *)
Definition sample_after_exit : list Action :=
  [ActBroadcast ["z"%byte] "x"; ActValidated sample_record; ActAddPeer keyC;
   ActSetPriority "x" priorityq.Low].

(** A run of the node: two peers connect, one of them disconnects, the
    controller is closed and the membership loop returns while the
    disconnection is still to be applied. *)
Definition sample_node_schedule : list NodeAction :=
  [NodeStart; NetConnect keyA; NetConnect keyB; MemberConn; NodeGo 0; NetDisconnect keyA;
   MemberConn; MemberDisc; NodeSys ActClose; MemberShutdown; NodeGo 0].

#[local] Set Warnings "-clear-no-such-hyp".

(** * Properties *)

(** ** The deduplication cache *)

Lemma dc_get_true (a : types.DoubleCache) (k : types.Hash12) :
  types.dc_get a k = true ↔ (k ∈ types.dc_current a) ∨ (k ∈ types.dc_previous a).
Proof.
  unfold types.dc_get. rewrite orb_true_iff. by rewrite !bool_decide_eq_true.
Qed.

Lemma dc_get_false (a : types.DoubleCache) (k : types.Hash12) :
  types.dc_get a k = false ↔ (k ∉ types.dc_current a) ∧ (k ∉ types.dc_previous a).
Proof.
  unfold types.dc_get. rewrite orb_false_iff. by rewrite !bool_decide_eq_false.
Qed.

Lemma dc_full_true (a : types.DoubleCache) :
  types.dc_full a = true ↔ (types.dc_cap a ≤ Z.of_nat (size (types.dc_current a)))%Z.
Proof. unfold types.dc_full. by rewrite bool_decide_eq_true. Qed.

Lemma dc_full_false (a : types.DoubleCache) :
  types.dc_full a = false ↔ (Z.of_nat (size (types.dc_current a)) < types.dc_cap a)%Z.
Proof. unfold types.dc_full. rewrite bool_decide_eq_false. lia. Qed.

Lemma dc_insert_current (a : types.DoubleCache) (k : types.Hash12) :
  k ∈ types.dc_current (types.dc_insert a k).
Proof. unfold types.dc_insert. destruct (types.dc_full a); simpl; set_solver. Qed.

Lemma dc_insert_cap (a : types.DoubleCache) (k : types.Hash12) :
  types.dc_cap (types.dc_insert a k) = types.dc_cap a.
Proof. unfold types.dc_insert. by destruct (types.dc_full a). Qed.

Lemma GetOrInsert_cap (a : types.DoubleCache) (k : types.Hash12) :
  types.dc_cap (types.GetOrInsert a k).2 = types.dc_cap a.
Proof.
  unfold types.GetOrInsert. destruct (types.dc_get a k); simpl; [done|].
  apply dc_insert_cap.
Qed.

Lemma GetOrInsert_fst (a : types.DoubleCache) (k : types.Hash12) :
  (types.GetOrInsert a k).1 = types.dc_get a k.
Proof. unfold types.GetOrInsert. by destruct (types.dc_get a k). Qed.

Lemma GetOrInsert_known (a : types.DoubleCache) (k : types.Hash12) :
  types.dc_get (types.GetOrInsert a k).2 k = true.
Proof.
  unfold types.GetOrInsert. destruct (types.dc_get a k) eqn:E; simpl; [done|].
  apply dc_get_true. left. apply dc_insert_current.
Qed.

Lemma GetOrInsert_old (a : types.DoubleCache) (k : types.Hash12) :
  types.dc_get a k = true → types.GetOrInsert a k = (true, a).
Proof. unfold types.GetOrInsert. by intros ->. Qed.

Lemma GetOrInsert_new (a : types.DoubleCache) (k : types.Hash12) :
  types.dc_get a k = false → types.GetOrInsert a k = (false, types.dc_insert a k).
Proof. unfold types.GetOrInsert. by intros ->. Qed.

Lemma dc_run_cap (ks : list types.Hash12) (a : types.DoubleCache) :
  types.dc_cap (types.dc_run a ks) = types.dc_cap a.
Proof.
  revert a. induction ks as [|k ks IH]; intros a; [done|].
  unfold types.dc_run in *. simpl. rewrite IH. apply GetOrInsert_cap.
Qed.

Lemma dc_run_cons (k : types.Hash12) (ks : list types.Hash12) (a : types.DoubleCache) :
  types.dc_run a (k :: ks) = types.dc_run (types.GetOrInsert a k).2 ks.
Proof. done. Qed.

(** Each generation stays within the capacity. *)
Lemma GetOrInsert_capped (a : types.DoubleCache) (k : types.Hash12) :
  (1 ≤ types.dc_cap a)%Z → types.dc_capped a → types.dc_capped (types.GetOrInsert a k).2.
Proof.
  intros Hn [Hp Hc]. unfold types.GetOrInsert.
  destruct (types.dc_get a k) eqn:E; simpl; [done|].
  apply dc_get_false in E as [Ec _].
  unfold types.dc_insert. destruct (types.dc_full a) eqn:F; unfold types.dc_capped;
    cbn [types.dc_previous types.dc_current types.dc_cap].
  - rewrite size_singleton. lia.
  - apply dc_full_false in F. split; [done|].
    rewrite size_union by set_solver. rewrite size_singleton. lia.
Qed.

Lemma dc_run_capped (ks : list types.Hash12) (a : types.DoubleCache) :
  (1 ≤ types.dc_cap a)%Z → types.dc_capped a → types.dc_capped (types.dc_run a ks).
Proof.
  revert a. induction ks as [|k ks IH]; intros a Hn Ha; [done|].
  rewrite dc_run_cons. apply IH.
  - by rewrite GetOrInsert_cap.
  - by apply GetOrInsert_capped.
Qed.

Lemma NewDoubleCache_capped (n : Z) : (0 ≤ n)%Z → types.dc_capped (types.NewDoubleCache n).
Proof.
  intros Hn. unfold types.dc_capped, types.NewDoubleCache.
  cbn [types.dc_previous types.dc_current types.dc_cap]. rewrite size_empty. lia.
Qed.

(** A known fingerprint stays known over a call, unless the call rotates the
    generations and the fingerprint sits in the previous one only. *)
Lemma GetOrInsert_keeps (a : types.DoubleCache) (h k : types.Hash12) :
  types.dc_get a h = true →
  types.dc_get (types.GetOrInsert a k).2 h
  = negb (types.dc_rotates a k && negb (bool_decide (h ∈ types.dc_current a))).
Proof.
  intros Hh. unfold types.dc_rotates, types.GetOrInsert.
  destruct (types.dc_get a k) eqn:E; simpl; [done|].
  unfold types.dc_insert. destruct (types.dc_full a) eqn:F; simpl.
  - assert (h ≠ k) by (intros ->; congruence).
    unfold types.dc_get at 1. simpl.
    destruct (bool_decide (h ∈ types.dc_current a)) eqn:C; simpl.
    + by rewrite orb_true_r.
    + rewrite orb_false_r. apply bool_decide_eq_false. set_solver.
  - apply dc_get_true in Hh. apply dc_get_true. simpl.
    destruct Hh as [Hh|Hh]; [left; apply elem_of_union; by right|by right].
Qed.

Lemma dc_tracks_init (c0 : types.DoubleCache) :
  (0 ≤ types.dc_cap c0)%Z → dc_tracks c0 c0 [].
Proof.
  intros Hn. exists [], [], []. simpl. repeat split; try lia; try set_solver.
Qed.

Lemma dc_tracks_step (c0 c : types.DoubleCache) (d : list types.Hash12) (h : types.Hash12) :
  (1 ≤ types.dc_cap c)%Z →
  NoDup (d ++ [h]) →
  types.dc_get c0 h = false →
  dc_tracks c0 c d →
  dc_tracks c0 (types.GetOrInsert c h).2 (d ++ [h]).
Proof.
  intros Hn Hnd Hc0 (old & pv & cu & -> & Hpv & Hcu & Hp & Hc & Hsub & Hknown).
  apply NoDup_app in Hnd as (Hnd & Hfresh & _).
  assert (Hd : h ∉ old ++ pv ++ cu) by (intros Hin; apply (Hfresh h Hin); set_solver).
  assert (Hnew : types.dc_get c h = false).
  { destruct (types.dc_get c h) eqn:E; [|done].
    destruct (Hknown h E) as [?|?]; [congruence|done]. }
  rewrite (GetOrInsert_new _ _ Hnew). cbn [snd].
  apply dc_get_false in Hnew as [Hnc Hnp].
  assert (Hlen : (Z.of_nat (length cu) ≤ Z.of_nat (size (types.dc_current c)))%Z).
  { apply NoDup_app in Hnd as (_ & _ & Hnd). apply NoDup_app in Hnd as (_ & _ & Hnd).
    rewrite <- (size_list_to_set (C:=gset types.Hash12) cu) by done.
    apply Nat2Z.inj_le, subseteq_size. intros x Hx. apply elem_of_list_to_set in Hx. auto. }
  unfold types.dc_insert. destruct (types.dc_full c) eqn:F.
  - exists (old ++ pv), cu, [h].
    cbn [types.dc_previous types.dc_current types.dc_cap].
    split; [by rewrite <- !app_assoc|].
    split; [done|]. split; [simpl; lia|].
    split; [|split; [|split]].
    + intros x Hx Hxc. apply elem_of_app in Hx as [Hx|Hx]; [by apply Hc|].
      apply list_elem_of_singleton in Hx as ->. done.
    + intros x _ Hx. apply elem_of_singleton in Hx as ->. set_solver.
    + intros x Hx. set_solver.
    + intros x Hx. apply dc_get_true in Hx. simpl in Hx.
      destruct Hx as [Hx|Hx].
      * right. apply elem_of_singleton in Hx as ->. set_solver.
      * destruct (Hknown x) as [?|?]; [apply dc_get_true; by left|by left|right; set_solver].
  - apply dc_full_false in F.
    exists old, pv, (cu ++ [h]).
    cbn [types.dc_previous types.dc_current types.dc_cap].
    split; [by rewrite <- !app_assoc|].
    split; [done|]. split; [rewrite length_app; simpl; lia|].
    split; [|split; [|split]].
    + intros x Hx Hxp. apply elem_of_app in Hx as [Hx|Hx]; [by apply Hp|].
      apply list_elem_of_singleton in Hx as ->. done.
    + intros x Hx Hxc. apply elem_of_union in Hxc as [Hxc|Hxc].
      * apply elem_of_singleton in Hxc as ->. set_solver.
      * apply elem_of_app in Hx as [Hx|Hx]; [|apply list_elem_of_singleton in Hx as ->; done].
        apply elem_of_app. left. by apply Hc.
    + intros x Hx. apply elem_of_app in Hx as [Hx|Hx]; [set_solver|].
      apply list_elem_of_singleton in Hx as ->. set_solver.
    + intros x Hx. apply dc_get_true in Hx. simpl in Hx.
      destruct Hx as [Hx|Hx].
      * apply elem_of_union in Hx as [Hx|Hx].
        -- right. apply elem_of_singleton in Hx as ->. set_solver.
        -- destruct (Hknown x) as [?|?]; [apply dc_get_true; by left|by left|right; set_solver].
      * destruct (Hknown x) as [?|?]; [apply dc_get_true; by right|by left|right; set_solver].
Qed.

Lemma dc_tracks_run (c0 : types.DoubleCache) (hs d : list types.Hash12) (c : types.DoubleCache) :
  (1 ≤ types.dc_cap c)%Z →
  NoDup (d ++ hs) →
  (∀ x, x ∈ hs → types.dc_get c0 x = false) →
  dc_tracks c0 c d →
  dc_tracks c0 (types.dc_run c hs) (d ++ hs).
Proof.
  revert d c. induction hs as [|h hs IH]; intros d c Hn Hnd Hnov Ht.
  - by rewrite app_nil_r.
  - rewrite dc_run_cons. replace (d ++ h :: hs) with ((d ++ [h]) ++ hs) in *
      by (by rewrite <- app_assoc).
    apply IH.
    + by rewrite GetOrInsert_cap.
    + done.
    + intros x Hx. apply Hnov. set_solver.
    + apply dc_tracks_step; [done| |apply Hnov; set_solver|done].
      by apply NoDup_app in Hnd as (? & _ & _).
Qed.

(** What lies beyond the last [2 * dc_cap] inserted fingerprints is not
    known. *)
Lemma dc_tracks_bound (c0 c : types.DoubleCache) (d : list types.Hash12)
  (i : nat) (h : types.Hash12) :
  NoDup d →
  dc_tracks c0 c d →
  types.dc_get c0 h = false →
  d !! i = Some h →
  (Z.of_nat i + 2 * types.dc_cap c < Z.of_nat (length d))%Z →
  types.dc_get c h = false.
Proof.
  intros Hnd (old & pv & cu & -> & Hpv & Hcu & Hp & Hc & Hsub & Hknown) Hc0 Hi Hlen.
  rewrite !length_app in Hlen.
  assert (Hio : (i < length old)%nat) by lia.
  rewrite lookup_app_l in Hi by done.
  assert (Hold : h ∈ old) by (apply list_elem_of_lookup; eauto).
  apply NoDup_app in Hnd as (_ & Hdis & _).
  apply dc_get_false. split; intros Hin.
  - apply (Hdis h Hold). apply elem_of_app. right. apply Hc; [set_solver|done].
  - apply (Hdis h Hold). apply elem_of_app. left. apply Hp; [set_solver|done].
Qed.

(** A fingerprint of the current generation survives the next [dc_cap]
    calls, whatever they insert. *)
Lemma dc_run_retains (ks : list types.Hash12) (c : types.DoubleCache) (h : types.Hash12) :
  (h ∈ types.dc_current c ∧ (Z.of_nat (length ks) ≤ types.dc_cap c)%Z) ∨
  (h ∈ types.dc_previous c ∧
   (Z.of_nat (size (types.dc_current c)) + Z.of_nat (length ks) ≤ types.dc_cap c)%Z) →
  types.dc_get (types.dc_run c ks) h = true.
Proof.
  revert c. induction ks as [|k ks IH]; intros c Hc.
  - apply dc_get_true. simpl. tauto.
  - rewrite dc_run_cons. apply IH. rewrite GetOrInsert_cap.
    unfold types.GetOrInsert. destruct (types.dc_get c k) eqn:E; cbn [snd].
    + simpl in Hc. destruct Hc as [[? ?]|[? ?]]; [left|right]; split; try done; lia.
    + apply dc_get_false in E as [Ec Ep].
      unfold types.dc_insert. destruct (types.dc_full c) eqn:F;
        cbn [types.dc_previous types.dc_current types.dc_cap].
      * apply dc_full_true in F. simpl in Hc.
        destruct Hc as [[? ?]|[? ?]]; [|lia].
        right. split; [done|]. rewrite size_singleton. lia.
      * simpl in Hc. destruct Hc as [[? ?]|[? ?]].
        -- left. split; [set_solver|lia].
        -- right. split; [done|]. rewrite size_union by set_solver.
           rewrite size_singleton. lia.
Qed.

Lemma dc_run_app (l1 l2 : list types.Hash12) (c : types.DoubleCache) :
  types.dc_run c (l1 ++ l2) = types.dc_run (types.dc_run c l1) l2.
Proof. unfold types.dc_run. apply foldl_app. Qed.

(** Of the novel fingerprints inserted, those beyond the newest
    [2 * dc_cap] are not known. *)
Lemma dc_run_forgets (c0 : types.DoubleCache) (hs : list types.Hash12) (i : nat)
  (h : types.Hash12) :
  (1 ≤ types.dc_cap c0)%Z →
  NoDup hs →
  (∀ x, x ∈ hs → types.dc_get c0 x = false) →
  hs !! i = Some h →
  (Z.of_nat i + 2 * types.dc_cap c0 < Z.of_nat (length hs))%Z →
  types.dc_get (types.dc_run c0 hs) h = false.
Proof.
  intros Hn Hnd Hnov Hi Hlen.
  apply (dc_tracks_bound c0 _ hs i); try done.
  - apply (dc_tracks_run c0 hs [] c0); [done|done|done|apply dc_tracks_init; lia].
  - apply Hnov. apply list_elem_of_lookup. eauto.
  - by rewrite dc_run_cap.
Qed.

(** The newest [dc_cap + 1] of the novel fingerprints inserted are known. *)
Lemma dc_run_recent (c0 : types.DoubleCache) (hs : list types.Hash12) (i : nat) (h : types.Hash12) :
  (1 ≤ types.dc_cap c0)%Z →
  NoDup hs →
  (∀ x, x ∈ hs → types.dc_get c0 x = false) →
  hs !! i = Some h →
  (Z.of_nat (length hs) ≤ Z.of_nat i + 1 + types.dc_cap c0)%Z →
  types.dc_get (types.dc_run c0 hs) h = true.
Proof.
  intros Hn Hnd Hnov Hi Hlen.
  pose proof (take_drop_middle hs i h Hi) as Hsplit.
  rewrite <- Hsplit in Hnd, Hlen |- *.
  rewrite dc_run_app, dc_run_cons.
  assert (Ht : dc_tracks c0 (types.dc_run c0 (take i hs)) ([] ++ take i hs)).
  { apply dc_tracks_run; [done| | |apply dc_tracks_init; lia].
    - simpl. by apply NoDup_app in Hnd as (? & _ & _).
    - intros x Hx. apply Hnov. rewrite <- Hsplit. apply elem_of_app. by left. }
  simpl in Ht. destruct Ht as (old & pv & cu & Heq & _ & _ & _ & _ & _ & Hknown).
  assert (Hnew : types.dc_get (types.dc_run c0 (take i hs)) h = false).
  { destruct (types.dc_get (types.dc_run c0 (take i hs)) h) eqn:E; [|done].
    destruct (Hknown h E) as [Hk|Hk].
    - rewrite Hnov in Hk; [done|]. apply list_elem_of_lookup. eauto.
    - apply NoDup_app in Hnd as (_ & Hdis & _). destruct (Hdis h Hk). by left. }
  rewrite (GetOrInsert_new _ _ Hnew). cbn [snd].
  apply dc_run_retains. left. split; [apply dc_insert_current|].
  rewrite dc_insert_cap, dc_run_cap.
  rewrite length_app in Hlen. simpl in Hlen.
  rewrite length_take in Hlen.
  apply lookup_lt_Some in Hi. lia.
Qed.

(** C4. The deduplication cache holds two generations, each capped at the
    per-generation capacity, which is 10000 for the controller's cache.  A
    fingerprint that is known stays known over a call unless the call
    rotates the generations while the fingerprint sits in the previous one,
    the generation that the rotation drops.  After more than twice the
    capacity of distinct novel fingerprints have been inserted, those beyond
    the newest [2 * capacity] are not reported as known, while the newest
    [capacity + 1] still are. *)
Theorem double_cache_generations (n : Z) (Hn : (1 ≤ n)%Z) :
  (oldMessageCacheSize = 10000%Z ∧
   ∀ base key, oldMessageQ (NewProtocol base key)
               = types.NewDoubleCache oldMessageCacheSize) ∧
  (∀ ks : list types.Hash12,
     let c := types.dc_run (types.NewDoubleCache n) ks in
     types.dc_cap c = n ∧
     (Z.of_nat (size (types.dc_previous c)) ≤ n)%Z ∧
     (Z.of_nat (size (types.dc_current c)) ≤ n)%Z) ∧
  (∀ (c : types.DoubleCache) (h k : types.Hash12),
     types.dc_get c h = true →
     types.dc_get (types.GetOrInsert c k).2 h
     = negb (types.dc_rotates c k && negb (bool_decide (h ∈ types.dc_current c)))) ∧
  (∀ (c0 : types.DoubleCache) (hs : list types.Hash12) (i : nat) (h : types.Hash12),
     types.dc_cap c0 = n →
     NoDup hs →
     (∀ x, x ∈ hs → types.dc_get c0 x = false) →
     hs !! i = Some h →
     ((Z.of_nat i + 2 * n < Z.of_nat (length hs))%Z →
      types.dc_get (types.dc_run c0 hs) h = false) ∧
     ((Z.of_nat (length hs) ≤ Z.of_nat i + 1 + n)%Z →
      types.dc_get (types.dc_run c0 hs) h = true)).
Proof.
  split; [done|]. split; [|split].
  - intros ks c. subst c. split; [by rewrite dc_run_cap|].
    destruct (dc_run_capped ks (types.NewDoubleCache n)) as [Hp Hc];
      [done|apply NewDoubleCache_capped; lia|].
    rewrite dc_run_cap in Hp, Hc. done.
  - intros c h k. apply GetOrInsert_keeps.
  - intros c0 hs i h Hcap Hnd Hnov Hi. split; intros Hlen.
    + apply (dc_run_forgets c0 hs i); try done; lia.
    + apply (dc_run_recent c0 hs i); try done; lia.
Qed.

(** With capacity 2: of five distinct fingerprints the first is forgotten
    and the last three are known. *)
Lemma double_cache_generations_witness :
  let hs := map sample_hash [1; 2; 3; 4; 5]%N in
  let c := types.dc_run (types.NewDoubleCache 2) hs in
  (Z.of_nat (size (types.dc_previous c)) ≤ 2)%Z ∧
  (Z.of_nat (size (types.dc_current c)) ≤ 2)%Z ∧
  types.dc_get c (sample_hash 1) = false ∧
  types.dc_get c (sample_hash 3) = true ∧
  types.dc_get c (sample_hash 5) = true.
Proof.
  intros hs c.
  destruct (double_cache_generations 2 ltac:(lia)) as (_ & Hcap & _ & Hbound).
  destruct (Hcap hs) as (_ & Hp & Hc).
  assert (Hnd : NoDup hs) by (subst hs; compute_done).
  assert (Hnov : ∀ x, x ∈ hs → types.dc_get (types.NewDoubleCache 2) x = false) by done.
  split; [exact Hp|]. split; [exact Hc|]. split; [|split].
  - apply (Hbound _ hs 0%nat); [done|done|done|done|simpl; lia].
  - apply (Hbound _ hs 2%nat); [done|done|done|done|simpl; lia].
  - apply (Hbound _ hs 4%nat); [done|done|done|done|simpl; lia].
Defined.

Example double_cache_sample :
  let c := types.dc_run (types.NewDoubleCache 2) (map sample_hash [1; 2; 3; 4; 5]%N) in
  (elements (types.dc_previous c), elements (types.dc_current c))
  = ([sample_hash 4; sample_hash 3], [sample_hash 5]).
Proof. vm_compute. reflexivity. Qed.

(** ** Message intake *)

Lemma events_since_app (w w' : World) (new : Trace) :
  w_trace w' = new ++ w_trace w → events_since w w' = new.
Proof.
  intros E. unfold events_since. rewrite E, length_app.
  replace (length new + length (w_trace w) - length (w_trace w)) with (length new) by lia.
  by rewrite take_app_length.
Qed.

Section Intake.
Context `{types.Digest12}.

(** What [processMessage] does with a fingerprint that is known. *)
Lemma processMessage_old (w : World) (sender : p2pcrypto.PublicKey) (protocol : string)
  (msg : service.Data) :
  let h := types.CalcMessageHash12 (service.Bytes msg) protocol in
  types.dc_get (oldMessageQ (w_prot w)) h = true →
  processMessage sender protocol msg w
  = (None,
     {| w_prot := set_oldMessageQ (oldMessageQ (w_prot w)) (w_prot w);
        w_trace :=
          EvLog log.Debug "old_gossip_message"
            [log.Key "from" sender; log.String "protocol" protocol; log.Hash "hash" h]
          :: EvMetricAdd metrics.OldGossipMessages protocol 1
          :: w_trace w |}).
Proof.
  intros h Hold. unfold processMessage, markMessageAsOld.
  unfold mbind, M_bind, bind, gets, modify, emit, Log, ret; simpl.
  fold h. rewrite (GetOrInsert_old _ _ Hold). done.
Qed.

(** What it does with a novel one: the fingerprint is recorded, then the
    validator is called. *)
Lemma processMessage_new (w : World) (sender : p2pcrypto.PublicKey) (protocol : string)
  (msg : service.Data) :
  let h := types.CalcMessageHash12 (service.Bytes msg) protocol in
  let tr :=
    EvMetricAdd metrics.NewGossipMessages protocol 1
    :: EvLog log.Debug "new_gossip_message"
         [log.Key "from" sender; log.String "protocol" protocol; log.Hash "hash" h]
    :: w_trace w in
  let err := ProcessGossipProtocolMessage (net (w_prot w)) tr sender protocol msg in
  types.dc_get (oldMessageQ (w_prot w)) h = false →
  processMessage sender protocol msg w
  = (err,
     {| w_prot := set_oldMessageQ (types.dc_insert (oldMessageQ (w_prot w)) h) (w_prot w);
        w_trace := EvProcessGossipProtocolMessage sender protocol msg err :: tr |}).
Proof.
  intros h tr err Hnew. unfold processMessage, markMessageAsOld.
  unfold mbind, M_bind, bind, gets, modify, emit, Log, ret, net_ProcessGossipProtocolMessage;
    simpl.
  fold h. rewrite (GetOrInsert_new _ _ Hnew). done.
Qed.

(** [processMessage] touches the cache through one [GetOrInsert] and nothing
    else of the controller. *)
Lemma processMessage_prot (w : World) (sender : p2pcrypto.PublicKey) (protocol : string)
  (msg : service.Data) :
  w_prot (processMessage sender protocol msg w).2
  = set_oldMessageQ
      (types.GetOrInsert (oldMessageQ (w_prot w))
         (types.CalcMessageHash12 (service.Bytes msg) protocol)).2
      (w_prot w).
Proof.
  destruct (types.dc_get (oldMessageQ (w_prot w))
              (types.CalcMessageHash12 (service.Bytes msg) protocol)) eqn:E.
  - rewrite (processMessage_old w sender protocol msg E).
    by rewrite (GetOrInsert_old _ _ E).
  - rewrite (processMessage_new w sender protocol msg E).
    by rewrite (GetOrInsert_new _ _ E).
Qed.

(** A submission is [processMessage] on its hand-off arguments, after the
    log line of [Broadcast]. *)
Lemma submit_processMessage (s : submission) (w : World) :
  let '(sender, protocol, msg) := sub_handoff (localNodePubkey (w_prot w)) s in
  submit s w
  = processMessage sender protocol msg
      {| w_prot := w_prot w; w_trace := sub_prelude s ++ w_trace w |}.
Proof. destruct s, w; done. Qed.

Lemma sub_handoff_hash (local : p2pcrypto.PublicKey) (s : submission) :
  let '(sender, protocol, msg) := sub_handoff local s in
  types.CalcMessageHash12 (service.Bytes msg) protocol = sub_hash s.
Proof. destruct s; done. Qed.

Lemma sub_handoff_protocol (local : p2pcrypto.PublicKey) (s : submission) :
  (sub_handoff local s).1.2 = sub_protocol s.
Proof. destruct s; done. Qed.

Lemma submit_prot (s : submission) (w : World) :
  w_prot (submit s w).2
  = set_oldMessageQ (types.GetOrInsert (oldMessageQ (w_prot w)) (sub_hash s)).2 (w_prot w).
Proof.
  pose proof (submit_processMessage s w) as E.
  pose proof (sub_handoff_hash (localNodePubkey (w_prot w)) s) as Eh.
  destruct (sub_handoff (localNodePubkey (w_prot w)) s) as [[sender protocol] msg].
  rewrite E, processMessage_prot. simpl. by rewrite Eh.
Qed.

Lemma submits_cache (l : list submission) (w : World) :
  oldMessageQ (w_prot (submits l w))
  = types.dc_run (oldMessageQ (w_prot w)) (map sub_hash l).
Proof.
  revert w. induction l as [|s l IH]; intros w; [done|].
  unfold submits in *. simpl. rewrite IH, submit_prot. done.
Qed.

Lemma submits_local (l : list submission) (w : World) :
  localNodePubkey (w_prot (submits l w)) = localNodePubkey (w_prot w) ∧
  net (w_prot (submits l w)) = net (w_prot w).
Proof.
  revert w. induction l as [|s l IH]; intros w; [done|].
  unfold submits in *. simpl. destruct (IH (submit s w).2) as [-> ->].
  by rewrite submit_prot.
Qed.

(** A submission whose fingerprint is known: no hand-off, no error, one
    duplicate counted and logged. *)
Lemma submit_old (s : submission) (w : World) :
  types.dc_get (oldMessageQ (w_prot w)) (sub_hash s) = true →
  ∃ sender,
    submit s w
    = (None,
       {| w_prot := set_oldMessageQ (oldMessageQ (w_prot w)) (w_prot w);
          w_trace :=
            EvLog log.Debug "old_gossip_message"
              [log.Key "from" sender; log.String "protocol" (sub_protocol s);
               log.Hash "hash" (sub_hash s)]
            :: EvMetricAdd metrics.OldGossipMessages (sub_protocol s) 1
            :: sub_prelude s ++ w_trace w |}).
Proof.
  intros Hold.
  pose proof (submit_processMessage s w) as E.
  pose proof (sub_handoff_hash (localNodePubkey (w_prot w)) s) as Eh.
  pose proof (sub_handoff_protocol (localNodePubkey (w_prot w)) s) as Ep.
  destruct (sub_handoff (localNodePubkey (w_prot w)) s) as [[sender protocol] msg].
  simpl in Ep. subst protocol. exists sender. rewrite E.
  rewrite processMessage_old; simpl; rewrite Eh; done.
Qed.

(** A submission whose fingerprint is novel: the fingerprint is recorded
    and the validator is called once; what the validator answers is what
    the submission returns. *)
Lemma submit_new (s : submission) (w : World) :
  types.dc_get (oldMessageQ (w_prot w)) (sub_hash s) = false →
  ∃ sender tr,
    let err := ProcessGossipProtocolMessage (net (w_prot w)) tr sender (sub_protocol s)
                 (sub_handoff (localNodePubkey (w_prot w)) s).2 in
    sender = (sub_handoff (localNodePubkey (w_prot w)) s).1.1 ∧
    tr = EvMetricAdd metrics.NewGossipMessages (sub_protocol s) 1
         :: EvLog log.Debug "new_gossip_message"
              [log.Key "from" sender; log.String "protocol" (sub_protocol s);
               log.Hash "hash" (sub_hash s)]
         :: sub_prelude s ++ w_trace w ∧
    submit s w
    = (err,
       {| w_prot := set_oldMessageQ (types.dc_insert (oldMessageQ (w_prot w)) (sub_hash s))
                      (w_prot w);
          w_trace :=
            EvProcessGossipProtocolMessage sender (sub_protocol s)
              (sub_handoff (localNodePubkey (w_prot w)) s).2 err :: tr |}).
Proof.
  intros Hnew.
  pose proof (submit_processMessage s w) as E.
  pose proof (sub_handoff_hash (localNodePubkey (w_prot w)) s) as Eh.
  pose proof (sub_handoff_protocol (localNodePubkey (w_prot w)) s) as Ep.
  destruct (sub_handoff (localNodePubkey (w_prot w)) s) as [[sender protocol] msg].
  simpl in Ep. subst protocol. exists sender. eexists. simpl.
  split; [done|]. split; [done|]. rewrite E.
  rewrite processMessage_new; simpl; rewrite Eh; done.
Qed.

End Intake.

(** ** Reading traces *)

Lemma handoffs_app (t1 t2 : Trace) : handoffs (t1 ++ t2) = handoffs t1 ++ handoffs t2.
Proof.
  induction t1 as [|e t1 IH]; [done|]. destruct e; simpl; by rewrite ?IH.
Qed.

Lemma duplicates_app (t1 t2 : Trace) : duplicates (t1 ++ t2) = duplicates t1 ++ duplicates t2.
Proof.
  induction t1 as [|e t1 IH]; [done|].
  destruct e as [| m | | |]; simpl; try done. destruct m; simpl; by rewrite ?IH.
Qed.

Lemma handoffs_prelude (s : submission) : handoffs (sub_prelude s) = [].
Proof. by destruct s. Qed.

Lemma duplicates_prelude (s : submission) : duplicates (sub_prelude s) = [].
Proof. by destruct s. Qed.

Section IntakeClaims.
Context `{types.Digest12}.

(** C1. On a controller that does not know the message's fingerprint (a
    new controller in particular), submitting the identical (payload,
    sub-protocol) twice, each time through [Broadcast] or through [Relay],
    hands the message to the validator exactly once, at the first
    submission.  The second submission returns [nil], makes no hand-off,
    and is counted and logged as a duplicate. *)
Theorem intake_twice_one_handoff (w : World) (s1 s2 : submission) :
  sub_payload s1 = sub_payload s2 →
  sub_protocol s1 = sub_protocol s2 →
  types.dc_get (oldMessageQ (w_prot w)) (sub_hash s1) = false →
  let w1 := (submit s1 w).2 in
  let r2 := (submit s2 w1).1 in
  let w2 := (submit s2 w1).2 in
  handoffs (events_since w w1) = [sub_handoff (localNodePubkey (w_prot w)) s1] ∧
  handoffs (events_since w1 w2) = [] ∧
  handoffs (events_since w w2) = [sub_handoff (localNodePubkey (w_prot w)) s1] ∧
  r2 = None ∧
  duplicates (events_since w w1) = [] ∧
  duplicates (events_since w1 w2) = [sub_protocol s2] ∧
  ∃ sender,
    head (events_since w1 w2)
    = Some (EvLog log.Debug "old_gossip_message"
              [log.Key "from" sender; log.String "protocol" (sub_protocol s2);
               log.Hash "hash" (sub_hash s2)]).
Proof.
  intros Hpay Hprot Hnew w1 r2 w2.
  assert (Hh : sub_hash s2 = sub_hash s1) by (unfold sub_hash; by rewrite Hpay, Hprot).
  destruct (submit_new s1 w Hnew) as (sender1 & tr1 & Hs1 & Htr1 & E1).
  assert (Hknown : types.dc_get (oldMessageQ (w_prot w1)) (sub_hash s2) = true).
  { subst w1. rewrite submit_prot, Hh. simpl. apply GetOrInsert_known. }
  destruct (submit_old s2 w1 Hknown) as (sender2 & E2).
  assert (T1 : w_trace w1
               = (EvProcessGossipProtocolMessage sender1 (sub_protocol s1)
                    (sub_handoff (localNodePubkey (w_prot w)) s1).2
                    (ProcessGossipProtocolMessage (net (w_prot w)) tr1 sender1
                       (sub_protocol s1) (sub_handoff (localNodePubkey (w_prot w)) s1).2)
                  :: EvMetricAdd metrics.NewGossipMessages (sub_protocol s1) 1
                  :: EvLog log.Debug "new_gossip_message"
                       [log.Key "from" sender1; log.String "protocol" (sub_protocol s1);
                        log.Hash "hash" (sub_hash s1)]
                  :: sub_prelude s1) ++ w_trace w).
  { subst w1. rewrite E1. simpl. by rewrite Htr1. }
  assert (T2 : w_trace w2
               = (EvLog log.Debug "old_gossip_message"
                    [log.Key "from" sender2; log.String "protocol" (sub_protocol s2);
                     log.Hash "hash" (sub_hash s2)]
                  :: EvMetricAdd metrics.OldGossipMessages (sub_protocol s2) 1
                  :: sub_prelude s2) ++ w_trace w1).
  { subst w2. by rewrite E2. }
  assert (T12 : w_trace w2 = _ ++ w_trace w) by (rewrite T2, T1, app_assoc; done).
  rewrite (events_since_app _ _ _ T1), (events_since_app _ _ _ T2),
    (events_since_app _ _ _ T12).
  assert (Hho : sub_handoff (localNodePubkey (w_prot w)) s1
                = (sender1, sub_protocol s1, (sub_handoff (localNodePubkey (w_prot w)) s1).2)).
  { rewrite Hs1, <- (sub_handoff_protocol (localNodePubkey (w_prot w)) s1).
    by destruct (sub_handoff _ s1) as [[? ?] ?]. }
  split; [simpl; by rewrite handoffs_prelude, <- Hho|].
  split; [simpl; apply handoffs_prelude|].
  split; [rewrite handoffs_app; simpl; by rewrite !handoffs_prelude, <- Hho|].
  split; [subst r2; by rewrite E2|].
  split; [simpl; apply duplicates_prelude|].
  split; [simpl; by rewrite duplicates_prelude|].
  by exists sender2.
Qed.

End IntakeClaims.

(** On a new controller: a broadcast, then the same message relayed by
    [keyS]. *)
Lemma intake_twice_one_handoff_witness :
  let s1 := ViaBroadcast ["h"%byte; "i"%byte] "x" in
  let s2 := ViaRelay keyS "x" (service.DataBytes ["h"%byte; "i"%byte]) in
  let w1 := (@submit sample_digest s1 sample_world).2 in
  let w2 := (@submit sample_digest s2 w1).2 in
  handoffs (events_since sample_world w2)
  = [(keyLocal, "x"%string, service.DataBytes ["h"%byte; "i"%byte])] ∧
  (@submit sample_digest s2 w1).1 = None ∧
  duplicates (events_since w1 w2) = ["x"%string].
Proof.
  intros s1 s2 w1 w2.
  destruct (@intake_twice_one_handoff sample_digest sample_world s1 s2)
    as (_ & _ & H3 & H4 & _ & H6 & _); [reflexivity|reflexivity|reflexivity|].
  split; [exact H3|]. split; [exact H4|exact H6].
Defined.

(** ** Intake after a failed hand-off *)

Section FailedHandoff.
Context `{types.Digest12}.

(** C10, as amended.  [processMessage] records the fingerprint before it
    calls the validator, so the fingerprint is recorded whatever the call
    returns, an error included.  A resubmission of the same (payload,
    sub-protocol) that follows at most 10000 other submissions is dropped as
    a duplicate: it returns [nil] and does not reach the validator. *)
Theorem failed_handoff_stays_recorded (w : World) (s s' : submission)
  (mid : list submission) :
  types.dc_cap (oldMessageQ (w_prot w)) = oldMessageCacheSize →
  sub_payload s = sub_payload s' →
  sub_protocol s = sub_protocol s' →
  types.dc_get (oldMessageQ (w_prot w)) (sub_hash s) = false →
  (Z.of_nat (length mid) ≤ 10000)%Z →
  let r := (submit s w).1 in
  let w1 := (submit s w).2 in
  let w2 := submits mid w1 in
  let r' := (submit s' w2).1 in
  let w3 := (submit s' w2).2 in
  (∃ sender msg,
     sub_handoff (localNodePubkey (w_prot w)) s = (sender, sub_protocol s, msg) ∧
     head (w_trace w1) = Some (EvProcessGossipProtocolMessage sender (sub_protocol s) msg r)) ∧
  types.dc_get (oldMessageQ (w_prot w1)) (sub_hash s) = true ∧
  types.dc_get (oldMessageQ (w_prot w2)) (sub_hash s) = true ∧
  r' = None ∧
  handoffs (events_since w2 w3) = [] ∧
  duplicates (events_since w2 w3) = [sub_protocol s'].
Proof.
  intros Hcap Hpay Hprot Hnew Hlen r w1 w2 r' w3.
  assert (Hh : sub_hash s' = sub_hash s) by (unfold sub_hash; by rewrite Hpay, Hprot).
  destruct (submit_new s w Hnew) as (sender & tr & Hs & Htr & E).
  assert (Hc1 : oldMessageQ (w_prot w1)
                = types.dc_insert (oldMessageQ (w_prot w)) (sub_hash s)).
  { subst w1. by rewrite E. }
  assert (Hk2 : types.dc_get (oldMessageQ (w_prot w2)) (sub_hash s) = true).
  { subst w2. rewrite submits_cache. apply dc_run_retains. left.
    rewrite Hc1. split; [apply dc_insert_current|].
    rewrite dc_insert_cap, Hcap, length_map. unfold oldMessageCacheSize. lia. }
  rewrite <- Hh in Hk2.
  destruct (submit_old s' w2 Hk2) as (sender' & E').
  assert (T : w_trace w3
              = (EvLog log.Debug "old_gossip_message"
                   [log.Key "from" sender'; log.String "protocol" (sub_protocol s');
                    log.Hash "hash" (sub_hash s')]
                 :: EvMetricAdd metrics.OldGossipMessages (sub_protocol s') 1
                 :: sub_prelude s') ++ w_trace w2).
  { subst w3. by rewrite E'. }
  rewrite (events_since_app _ _ _ T).
  split.
  { exists sender, (sub_handoff (localNodePubkey (w_prot w)) s).2. split.
    - rewrite Hs, <- (sub_handoff_protocol (localNodePubkey (w_prot w)) s).
      by destruct (sub_handoff _ s) as [[? ?] ?].
    - subst w1 r. by rewrite E. }
  split; [rewrite Hc1; apply dc_get_true; left; apply dc_insert_current|].
  split; [by rewrite <- Hh|].
  split; [subst r'; by rewrite E'|].
  split; [simpl; apply handoffs_prelude|].
  simpl. by rewrite duplicates_prelude.
Qed.

End FailedHandoff.

(** The validator refuses the message; three other messages later the
    same message is dropped as a duplicate. *)
Lemma failed_handoff_stays_recorded_witness :
  let w1 := (@submit sample_digest sample_refused sample_world).2 in
  let w2 := @submits sample_digest (sample_traffic 3) w1 in
  (@submit sample_digest sample_refused sample_world).1 = Some "refused"%string ∧
  (@submit sample_digest sample_refused w2).1 = None ∧
  handoffs (events_since w2 (@submit sample_digest sample_refused w2).2) = [].
Proof.
  intros w1 w2.
  destruct (@failed_handoff_stays_recorded sample_digest sample_world
              sample_refused sample_refused (sample_traffic 3))
    as (_ & _ & _ & H4 & H5 & _);
    [reflexivity|reflexivity|reflexivity|reflexivity|simpl; lia|].
  split; [reflexivity|]. split; [exact H4|exact H5].
Defined.

(** *** The sample traffic has pairwise distinct fingerprints *)

Lemma byte_of_N_total_inj (n m : N) :
  (n < 256)%N → (m < 256)%N → byte_of_N_total n = byte_of_N_total m → n = m.
Proof.
  intros Hn Hm. unfold byte_of_N_total.
  destruct (Byte.of_N n) as [b|] eqn:En; [|apply Byte.of_N_None_iff in En; lia].
  destruct (Byte.of_N m) as [c|] eqn:Em; [|apply Byte.of_N_None_iff in Em; lia].
  simpl. intros ->. apply Byte.to_of_N in En, Em. congruence.
Qed.

Lemma sample_traffic_hash (i : nat) :
  @sub_hash sample_digest (ViaRelay keyS "x" (service.DataBytes (sample_payload i)))
  = types.Build_Hash12
      (byte_of_N_total (N.of_nat i / 256) :: byte_of_N_total (N.of_nat i mod 256)
       :: "x"%byte :: replicate 9 Byte.x00).
Proof. reflexivity. Qed.

Lemma sample_traffic_hash_inj (i j : nat) :
  (N.of_nat i < 65536)%N → (N.of_nat j < 65536)%N →
  @sub_hash sample_digest (ViaRelay keyS "x" (service.DataBytes (sample_payload i)))
  = @sub_hash sample_digest (ViaRelay keyS "x" (service.DataBytes (sample_payload j))) →
  i = j.
Proof.
  intros Hi Hj. rewrite !sample_traffic_hash. intros E.
  injection E as E1 E2.
  apply byte_of_N_total_inj in E1;
    [|apply N.Div0.div_lt_upper_bound; lia|apply N.Div0.div_lt_upper_bound; lia].
  apply byte_of_N_total_inj in E2; [|apply N.mod_lt; lia|apply N.mod_lt; lia].
  apply Nat2N.inj.
  rewrite (N.div_mod (N.of_nat i) 256), (N.div_mod (N.of_nat j) 256) by lia.
  by rewrite E1, E2.
Qed.

Lemma sample_traffic_NoDup (n : N) :
  (n ≤ 65536)%N →
  NoDup (@sub_hash sample_digest sample_refused
         :: map (@sub_hash sample_digest) (sample_traffic n)).
Proof.
  intros Hn. unfold sample_traffic.
  change (map (@sub_hash sample_digest) ?l) with (@sub_hash sample_digest <$> l).
  rewrite <- list_fmap_compose.
  apply NoDup_cons. split.
  - intros Hin. apply list_elem_of_fmap in Hin as (i & E & _).
    unfold compose in E. rewrite sample_traffic_hash in E. discriminate E.
  - apply NoDup_fmap_2_strong; [|apply NoDup_seq].
    intros i j Hi%elem_of_seq Hj%elem_of_seq E.
    apply sample_traffic_hash_inj; [lia|lia|done].
Qed.

(** After the refused message and [n] other messages, with [n] at least
    20000, the cache has forgotten the refused message. *)
Lemma sample_traffic_evicts (n : N) :
  (20000 ≤ n ≤ 65536)%N →
  let w1 := (@submit sample_digest sample_refused sample_world).2 in
  let w2 := @submits sample_digest (sample_traffic n) w1 in
  types.dc_get (oldMessageQ (w_prot w2)) (@sub_hash sample_digest sample_refused) = false.
Proof.
  intros Hn w1 w2. subst w2. rewrite submits_cache. subst w1. rewrite submit_prot.
  cbn [oldMessageQ set_oldMessageQ].
  rewrite <- dc_run_cons.
  apply (dc_run_forgets (oldMessageQ (w_prot sample_world)) _ 0%nat).
  - done.
  - apply sample_traffic_NoDup. lia.
  - intros x _. reflexivity.
  - reflexivity.
  - change (length (?a :: ?l)) with (S (length l)).
    change (types.dc_cap (oldMessageQ (w_prot sample_world))) with 10000%Z.
    rewrite length_map. unfold sample_traffic. rewrite length_fmap, length_seq. lia.
Qed.

Lemma sample_traffic_resubmission (n : N) :
  (20000 ≤ n ≤ 65536)%N →
  let w1 := (@submit sample_digest sample_refused sample_world).2 in
  let w2 := @submits sample_digest (sample_traffic n) w1 in
  (@submit sample_digest sample_refused sample_world).1 = Some "refused"%string ∧
  (@submit sample_digest sample_refused w2).1 = Some "refused"%string ∧
  handoffs (events_since w2 (@submit sample_digest sample_refused w2).2)
  = [(keyS, "bad"%string, service.DataBytes [])].
Proof.
  intros Hn w1 w2. split; [reflexivity|].
  pose proof (sample_traffic_evicts n Hn) as Hnew. cbv zeta in Hnew. fold w1 w2 in Hnew.
  destruct (@submit_new sample_digest sample_refused w2 Hnew) as (sender & tr & Hs & Htr & E).
  destruct (@submits_local sample_digest (sample_traffic n) w1) as [Hl Hnet].
  fold w2 in Hl, Hnet.
  assert (Hnet' : net (w_prot w2) = sample_net) by (rewrite Hnet; reflexivity).
  assert (Hloc : localNodePubkey (w_prot w2) = keyLocal) by (rewrite Hl; reflexivity).
  clearbody w2. clear Hl Hnet w1.
  rewrite Hnet', Hloc in E. rewrite Hloc in Hs.
  cbn [sub_handoff sample_refused sub_protocol fst snd] in E, Hs, Htr.
  subst sender. rewrite E. cbn [fst snd]. split; [reflexivity|].
  rewrite (events_since_app w2 _
             [EvProcessGossipProtocolMessage keyS "bad" (service.DataBytes [])
                (ProcessGossipProtocolMessage sample_net tr keyS "bad" (service.DataBytes []));
              EvMetricAdd metrics.NewGossipMessages "bad" 1;
              EvLog log.Debug "new_gossip_message"
                [log.Key "from" keyS; log.String "protocol" "bad";
                 log.Hash "hash" (@sub_hash sample_digest sample_refused)]]).
  - reflexivity.
  - cbn [w_trace]. rewrite Htr. reflexivity.
Qed.

(** C10, counterexample.  The validator refuses a message; 20000 other
    messages later the same message is handed to the validator again. *)
Lemma resubmission_after_eviction :
  let w1 := (@submit sample_digest sample_refused sample_world).2 in
  let w2 := @submits sample_digest (sample_traffic 20000) w1 in
  (@submit sample_digest sample_refused sample_world).1 = Some "refused"%string ∧
  (@submit sample_digest sample_refused w2).1 = Some "refused"%string ∧
  handoffs (events_since w2 (@submit sample_digest sample_refused w2).2)
  = [(keyS, "bad"%string, service.DataBytes [])].
Proof. apply (sample_traffic_resubmission 20000). lia. Qed.

(** ** The fingerprint at intake and at propagation *)

Section Fingerprint.
Context `{types.Digest12}.

Lemma processMessage_logged (w : World) (sender : p2pcrypto.PublicKey) (protocol : string)
  (msg : service.Data) :
  logged_hashes (events_since w (processMessage sender protocol msg w).2)
  = [types.CalcMessageHash12 (service.Bytes msg) protocol].
Proof.
  destruct (types.dc_get (oldMessageQ (w_prot w))
              (types.CalcMessageHash12 (service.Bytes msg) protocol)) eqn:E.
  - rewrite (processMessage_old w sender protocol msg E).
    erewrite (events_since_app w _ [_; _]); cycle 1; [reflexivity|done].
  - rewrite (processMessage_new w sender protocol msg E).
    erewrite (events_since_app w _ [_; _; _]); cycle 1; [reflexivity|done].
Qed.

(** C9. The fingerprint is a function of the payload bytes and the
    sub-protocol name alone.  Whoever the sender is and whatever the state,
    [processMessage] marks and logs [CalcMessageHash12 payload protocol];
    and for a validation record with the same payload and sub-protocol,
    from any sender, [handlePQ] recomputes the same fingerprint and hands it
    to [propagateMessage]. *)
Theorem fingerprint_recomputed (w w' : World) (sender : p2pcrypto.PublicKey)
  (protocol : string) (msg : service.Data) (m : service.MessageValidation)
  (q : priorityq.Queue) :
  service.Message m = service.Bytes msg →
  service.Protocol m = protocol →
  let h := types.CalcMessageHash12 (service.Bytes msg) protocol in
  let intake := processMessage sender protocol msg w in
  let relay := handlePQ_read (priorityq.ReadItem (priorityq.ItemValidation m) q) w' in
  logged_hashes (events_since w intake.2) = [h] ∧
  types.dc_get (oldMessageQ (w_prot intake.2)) h = true ∧
  logged_hashes (events_since w' relay.2) = [h] ∧
  relay.1 = Some (ConsumerCall (service.Message m) h (service.Protocol m) (service.Sender m)).
Proof.
  intros Hmsg Hprot h intake relay. subst intake relay h.
  split; [apply processMessage_logged|].
  split; [rewrite processMessage_prot; simpl; apply GetOrInsert_known|].
  rewrite <- Hmsg, <- Hprot.
  split; [|done].
  erewrite (events_since_app w' _ [_]); cycle 1; [reflexivity|done].
Qed.

End Fingerprint.

(** The local node broadcasts "hi" on "x"; the record that comes back from
    the validator names [keyS] as the sender. *)
Lemma fingerprint_recomputed_witness :
  let m := {| service.mv_sender := keyS; service.mv_msg := ["h"%byte; "i"%byte];
              service.mv_prot := "x" |} in
  let intake := @processMessage sample_digest keyLocal "x"
                  (service.DataBytes ["h"%byte; "i"%byte]) sample_world in
  let relay := @handlePQ_read sample_digest
                 (priorityq.ReadItem (priorityq.ItemValidation m) priorityq.New)
                 sample_world in
  logged_hashes (events_since sample_world intake.2)
  = logged_hashes (events_since sample_world relay.2).
Proof.
  intros m intake relay.
  destruct (@fingerprint_recomputed sample_digest sample_world sample_world keyLocal "x"
              (service.DataBytes ["h"%byte; "i"%byte]) m priorityq.New)
    as (H1 & _ & H3 & _); [reflexivity|reflexivity|].
  subst intake relay. rewrite H1, H3. reflexivity.
Defined.

(** ** The peer registry *)

Lemma addPeer_peers (p : p2pcrypto.PublicKey) (w : World) :
  peers (w_prot (addPeer p w).2) = <[ p := newPeer (net (w_prot w)) p ]> (peers (w_prot w)).
Proof. done. Qed.

Lemma removePeer_peers (p : p2pcrypto.PublicKey) (w : World) :
  peers (w_prot (removePeer p w).2) = delete p (peers (w_prot w)).
Proof. done. Qed.

Lemma snapshot_NoDup (ps : gmap p2pcrypto.PublicKey peer) (order : list p2pcrypto.PublicKey) :
  is_snapshot ps order → NoDup order.
Proof.
  unfold is_snapshot. intros ->. apply NoDup_fst_map_to_list.
Qed.

Lemma snapshot_elem (ps : gmap p2pcrypto.PublicKey peer) (order : list p2pcrypto.PublicKey)
  (p : p2pcrypto.PublicKey) :
  is_snapshot ps order → p ∈ order ↔ is_Some (ps !! p).
Proof.
  unfold is_snapshot. intros ->. rewrite list_elem_of_fmap. split.
  - intros ([k v] & -> & Hin). apply elem_of_map_to_list in Hin. simpl. eauto.
  - intros [v Hv]. exists (p, v). split; [done|]. by apply elem_of_map_to_list.
Qed.

(** C7. After every sequence of [addPeer] and [removePeer] calls: no key
    comes up twice when the registry is listed; adding a key that is
    present overwrites its entry and leaves the count and the other entries
    as they were; removing a key that is absent leaves the registry
    unchanged. *)
Theorem registry_one_entry_per_key (w : World) (ops : list peer_op)
  (p : p2pcrypto.PublicKey) :
  let w' := apply_ops ops w in
  (∀ order, is_snapshot (peers (w_prot w')) order → NoDup order) ∧
  (is_Some (peers (w_prot w') !! p) →
   (peersCount (addPeer p w').2).1 = (peersCount w').1 ∧
   peers (w_prot (addPeer p w').2) !! p = Some (newPeer (net (w_prot w')) p) ∧
   ∀ q, q ≠ p → peers (w_prot (addPeer p w').2) !! q = peers (w_prot w') !! q) ∧
  (peers (w_prot w') !! p = None →
   peers (w_prot (removePeer p w').2) = peers (w_prot w') ∧
   (peersCount (removePeer p w').2).1 = (peersCount w').1).
Proof.
  intros w'. split; [intros order; apply snapshot_NoDup|]. split.
  - intros Hin. rewrite addPeer_peers. split; [|split].
    + unfold peersCount, gets. cbn [fst]. rewrite addPeer_peers.
      destruct Hin as [v Hv]. by rewrite map_size_insert_Some.
    + apply lookup_insert_eq.
    + intros q Hq. by apply lookup_insert_ne.
  - intros Hnone. rewrite removePeer_peers. split.
    + by apply delete_id.
    + unfold peersCount, gets. cbn [fst]. rewrite removePeer_peers.
      by rewrite delete_id.
Qed.

(** [keyA] is added twice and [keyC], which is absent, is removed. *)
Lemma registry_one_entry_per_key_witness :
  let w := apply_ops [OpAdd keyA; OpAdd keyB; OpAdd keyA] sample_world in
  (peersCount (addPeer keyA w).2).1 = 2%Z ∧
  peers (w_prot (removePeer keyC w).2) = peers (w_prot w) ∧
  NoDup (map_to_list (peers (w_prot w))).*1.
Proof.
  intros w.
  destruct (registry_one_entry_per_key sample_world [OpAdd keyA; OpAdd keyB; OpAdd keyA] keyA)
    as (Hnd & Hadd & _).
  destruct (registry_one_entry_per_key sample_world [OpAdd keyA; OpAdd keyB; OpAdd keyA] keyC)
    as (_ & _ & Hrem).
  subst w. split; [|split].
  - destruct Hadd as (-> & _); [by eexists|reflexivity].
  - apply Hrem. reflexivity.
  - apply Hnd. unfold is_snapshot. reflexivity.
Defined.

(** ** The priority classifier *)

Lemma set_priorities_all_lookup (sets : list (string * priorityq.Priority)) (w : World)
  (name : string) :
  priorities (w_prot (set_priorities_all sets w)) !! name
  = match last_set sets name with
    | Some p => Some p
    | None => priorities (w_prot w) !! name
    end.
Proof.
  revert w. induction sets as [|[n p] sets IH]; intros w; [done|].
  unfold set_priorities_all in *. simpl. rewrite IH.
  destruct (last_set sets name); [done|].
  unfold SetPriority, modify; simpl.
  destruct (decide (n = name)) as [->|Hne].
  - by rewrite lookup_insert_eq.
  - by rewrite lookup_insert_ne.
Qed.

Lemma getPriority_lookup (name : string) (w : World) :
  (getPriority name w).1 = default priorityq.Low (priorities (w_prot w) !! name).
Proof.
  unfold getPriority, mbind, M_bind, bind, gets. simpl.
  by destruct (priorities (w_prot w) !! name).
Qed.

(** C8. After any sequence of [SetPriority] calls, [getPriority] returns
    the priority last set for the name; for a name with no configured
    priority it returns [Low], the lowest level, logs a warning and changes
    nothing else.  [getPriority] returns a priority and no error. *)
Theorem getPriority_default_and_configured (w : World)
  (sets : list (string * priorityq.Priority)) (name : string) :
  let w' := set_priorities_all sets w in
  (∀ p, last_set sets name = Some p → getPriority name w' = (p, w')) ∧
  (last_set sets name = None → priorities (w_prot w) !! name = None →
   getPriority name w'
   = (priorityq.Low,
      {| w_prot := w_prot w';
         w_trace := EvLog log.Warning "note: no priority found for protocol"
                      [log.String "protoName" name] :: w_trace w' |})) ∧
  (∀ p, priorityq.rank priorityq.Low ≤ priorityq.rank p).
Proof.
  intros w'. pose proof (set_priorities_all_lookup sets w name) as L. fold w' in L.
  split; [|split].
  - intros p Hp. rewrite Hp in L.
    unfold getPriority, mbind, M_bind, bind, gets. simpl. by rewrite L.
  - intros Hnone Hw. rewrite Hnone, Hw in L.
    unfold getPriority, mbind, M_bind, bind, gets. simpl. by rewrite L.
  - intros []; simpl; lia.
Qed.

(** "x" is set to [Mid], then to [High]; "y" is never set. *)
Lemma getPriority_default_and_configured_witness :
  let w := set_priorities_all [("x"%string, priorityq.Mid); ("z"%string, priorityq.Mid);
                               ("x"%string, priorityq.High)] sample_world in
  (getPriority "x" w).1 = priorityq.High ∧ (getPriority "y" w).1 = priorityq.Low.
Proof.
  intros w.
  destruct (getPriority_default_and_configured sample_world
              [("x"%string, priorityq.Mid); ("z"%string, priorityq.Mid);
               ("x"%string, priorityq.High)] "x") as (Hx & _ & _).
  destruct (getPriority_default_and_configured sample_world
              [("x"%string, priorityq.Mid); ("z"%string, priorityq.Mid);
               ("x"%string, priorityq.High)] "y") as (_ & Hy & _).
  split.
  - subst w. by rewrite (Hx priorityq.High eq_refl).
  - subst w. by rewrite (Hy eq_refl eq_refl).
Defined.

(** ** Shutdown *)

(** C6, as amended.  A first [Close] closes the shutdown signal and changes
    nothing else; a second [Close] on the controller so closed panics, as
    Go's [close] does on a closed channel. *)
Theorem Close_twice_panics (w : World) :
  shutdown (w_prot w) = ChanOpen →
  ∃ w1,
    Close w = Ok w1 ∧
    shutdown (w_prot w1) = ChanClosed ∧
    w_prot w1 = set_shutdown ChanClosed (w_prot w) ∧
    w_trace w1 = w_trace w ∧
    Close w1 = Panic "close of closed channel".
Proof.
  intros Hopen. unfold Close. rewrite Hopen. simpl. eexists. split; [done|]. done.
Qed.

Lemma Close_twice_panics_witness :
  ∃ w1, Close sample_world = Ok w1 ∧ Close w1 = Panic "close of closed channel".
Proof.
  destruct (Close_twice_panics sample_world eq_refl) as (w1 & H1 & _ & _ & _ & H2).
  exists w1. split; [exact H1|exact H2].
Defined.

(** C6, counterexample.  On a new controller the second [Close] panics. *)
Lemma second_Close_panics :
  Close sample_world
  = Ok {| w_prot := set_shutdown ChanClosed (w_prot sample_world); w_trace := [] |} ∧
  Close {| w_prot := set_shutdown ChanClosed (w_prot sample_world); w_trace := [] |}
  = Panic "close of closed channel" ∧
  @run sample_digest [ActStart; ActClose; ActClose] (NewSys sample_net keyLocal)
  = Crash "close of closed channel".
Proof. split; [reflexivity|]. split; reflexivity. Qed.

(** ** Fan-out *)

Lemma sent_to_app (t1 t2 : Trace) : sent_to (t1 ++ t2) = sent_to t1 ++ sent_to t2.
Proof. induction t1 as [|e t1 IH]; [done|]. destruct e; simpl; by rewrite ?IH. Qed.

(** *** Goroutine bookkeeping *)

Lemma keys_where_app (P : send_pc → bool) (g1 g2 : list (p2pcrypto.PublicKey * send_pc)) :
  keys_where P (g1 ++ g2) = keys_where P g1 ++ keys_where P g2.
Proof.
  induction g1 as [|[p pc] g1 IH]; [done|]. simpl. rewrite IH. by destruct (P pc).
Qed.

Lemma keys_where_insert (P : send_pc → bool) (gos : list (p2pcrypto.PublicKey * send_pc))
  (i : nat) (p : p2pcrypto.PublicKey) (pc pc' : send_pc) :
  gos !! i = Some (p, pc) →
  (if P pc then [p] else []) ++ keys_where P (<[ i := (p, pc') ]> gos)
  ≡ₚ (if P pc' then [p] else []) ++ keys_where P gos.
Proof.
  revert i. induction gos as [|[q qc] gos IH]; intros i Hi; [done|].
  destruct i as [|i]; simpl in *.
  - injection Hi as -> ->. destruct (P pc), (P pc'); simpl; done.
  - specialize (IH i Hi). destruct (P qc); [|done].
    rewrite <- !Permutation_middle. by apply Permutation_skip.
Qed.

Lemma keys_where_insert_same (P : send_pc → bool)
  (gos : list (p2pcrypto.PublicKey * send_pc)) (i : nat) (p : p2pcrypto.PublicKey)
  (pc pc' : send_pc) :
  gos !! i = Some (p, pc) → P pc = P pc' →
  keys_where P (<[ i := (p, pc') ]> gos) = keys_where P gos.
Proof.
  revert i. induction gos as [|[q qc] gos IH]; intros i Hi HP; [done|].
  destruct i as [|i]; simpl in *.
  - injection Hi as -> ->. by rewrite HP.
  - by rewrite (IH i Hi HP).
Qed.

Lemma keys_insert (gos : list (p2pcrypto.PublicKey * send_pc)) (i : nat)
  (p : p2pcrypto.PublicKey) (pc pc' : send_pc) :
  gos !! i = Some (p, pc) → (<[ i := (p, pc') ]> gos).*1 = gos.*1.
Proof.
  revert i. induction gos as [|[q qc] gos IH]; intros i Hi; [done|].
  destruct i as [|i]; csimpl in *.
  - by injection Hi as -> ->.
  - by rewrite (IH i Hi).
Qed.

Lemma keys_where_subset (P : send_pc → bool) (gos : list (p2pcrypto.PublicKey * send_pc)) :
  keys_where P gos ⊆ gos.*1.
Proof.
  induction gos as [|[p pc] gos IH]; [done|]. simpl. destruct (P pc); set_solver.
Qed.

Lemma keys_where_all (P : send_pc → bool) (gos : list (p2pcrypto.PublicKey * send_pc)) :
  Forall (λ g, P g.2 = true) gos → keys_where P gos = gos.*1.
Proof.
  induction 1 as [|[p pc] gos Hp _ IH]; [done|]. simpl in *. by rewrite Hp, IH.
Qed.

Lemma keys_where_none (P : send_pc → bool) (gos : list (p2pcrypto.PublicKey * send_pc)) :
  keys_where P gos = [] ↔ Forall (λ g, P g.2 = false) gos.
Proof.
  induction gos as [|[p pc] gos IH]; [done|]. simpl. destruct (P pc) eqn:E.
  - split; [done|]. intros HF. apply Forall_cons in HF as [HF _]. simpl in HF. congruence.
  - rewrite IH. split; [by constructor|]. by intros [_ HF]%Forall_cons.
Qed.

Lemma unfinished_zero (gos : list (p2pcrypto.PublicKey * send_pc)) :
  unfinished gos = 0 ↔ Forall (λ g, g.2 = SendExit) gos.
Proof.
  unfold unfinished. rewrite length_zero_iff_nil, keys_where_none.
  apply Forall_iff. intros [p pc]. destruct pc; cbv; split; congruence.
Qed.

Lemma sum_steps_insert (gos : list (p2pcrypto.PublicKey * send_pc)) (i : nat)
  (p : p2pcrypto.PublicKey) (pc pc' : send_pc) :
  gos !! i = Some (p, pc) →
  sum_list_with (λ g, steps_left g.2) (<[ i := (p, pc') ]> gos) + steps_left pc
  = sum_list_with (λ g, steps_left g.2) gos + steps_left pc'.
Proof.
  revert i. induction gos as [|[q qc] gos IH]; intros i Hi; [done|].
  destruct i as [|i]; csimpl in *.
  - injection Hi as -> ->. lia.
  - specialize (IH i Hi). lia.
Qed.

(** *** The steps of a call *)

Lemma main_skip (f : fanout) (w : World) (p : p2pcrypto.PublicKey)
  (rest : list p2pcrypto.PublicKey) :
  fo_range f = p :: rest → fo_exclude f = p →
  propagateMessage_main f w = (FoStep (set_range rest f), w).
Proof.
  intros Hr He. unfold propagateMessage_main. rewrite Hr.
  by destruct (decide (fo_exclude f = p)).
Qed.

Lemma main_launch (f : fanout) (w : World) (p : p2pcrypto.PublicKey)
  (rest : list p2pcrypto.PublicKey) :
  fo_range f = p :: rest → fo_exclude f ≠ p →
  propagateMessage_main f w = (FoStep (launch p (set_range rest f)), w).
Proof.
  intros Hr He. unfold propagateMessage_main. rewrite Hr.
  by destruct (decide (fo_exclude f = p)).
Qed.

Lemma main_wait (f : fanout) (w : World) :
  fo_range f = [] →
  propagateMessage_main f w = (if decide (fo_wg f = 0%Z) then FoReturn else FoBlocked, w).
Proof.
  intros Hr. unfold propagateMessage_main. rewrite Hr.
  by destruct (decide (fo_wg f = 0%Z)).
Qed.

Lemma send_call (f : fanout) (w : World) (i : nat) (p : p2pcrypto.PublicKey) :
  fo_gos f !! i = Some (p, SendCall) →
  let err := SendMessage (net (w_prot w)) (w_trace w) p (fo_nextProt f) (fo_payload f) in
  propagateMessage_send i f w
  = (FoStep (set_go i (p, match err with Some e => SendWarn e | None => SendDone end) f),
     {| w_prot := w_prot w;
        w_trace := EvSendMessage p (fo_nextProt f) (fo_payload f) err :: w_trace w |}).
Proof.
  intros Hi err. unfold propagateMessage_send. rewrite Hi.
  unfold mbind, M_bind, bind, net_SendMessage. fold err. by destruct err.
Qed.

Lemma send_warn (f : fanout) (w : World) (i : nat) (p : p2pcrypto.PublicKey) (e : error) :
  fo_gos f !! i = Some (p, SendWarn e) →
  propagateMessage_send i f w
  = (FoStep (set_go i (p, SendDone) f),
     {| w_prot := w_prot w;
        w_trace :=
          EvLog log.Warning "Failed sending"
            [log.String "protocol" (fo_nextProt f); log.Hash "hash" (fo_h f);
             log.Key "to" p; log.Err e] :: w_trace w |}).
Proof. intros Hi. unfold propagateMessage_send. by rewrite Hi. Qed.

Lemma send_done (f : fanout) (w : World) (i : nat) (p : p2pcrypto.PublicKey) :
  fo_gos f !! i = Some (p, SendDone) →
  propagateMessage_send i f w = (FoStep (wg_done (set_go i (p, SendExit) f)), w).
Proof. intros Hi. unfold propagateMessage_send. by rewrite Hi. Qed.

Lemma send_blocked (f : fanout) (w : World) (i : nat) :
  (∀ p pc, fo_gos f !! i = Some (p, pc) → pc = SendExit) →
  propagateMessage_send i f w = (FoBlocked, w).
Proof.
  intros Hi. unfold propagateMessage_send.
  destruct (fo_gos f !! i) as [[p pc]|] eqn:E; [|done].
  by rewrite (Hi p pc eq_refl).
Qed.

Lemma step_cases (t : fo_thread) (f : fanout) (w : World) :
  step_case f w t (propagateMessage_step t f w).1 (propagateMessage_step t f w).2.
Proof.
  destruct t as [|i]; simpl.
  - destruct (fo_range f) as [|p rest] eqn:Hr.
    + rewrite main_wait by done. destruct (decide (fo_wg f = 0%Z)); simpl.
      * by apply case_return.
      * by apply case_wait.
    + destruct (decide (fo_exclude f = p)) as [He|He].
      * rewrite (main_skip f w p rest Hr He). by eapply case_skip.
      * rewrite (main_launch f w p rest Hr He). by eapply case_launch.
  - destruct (fo_gos f !! i) as [[p pc]|] eqn:Hi.
    + destruct pc as [|e| |].
      * rewrite (send_call f w i p Hi). simpl. by apply case_call.
      * rewrite (send_warn f w i p e Hi). simpl. by apply case_warn.
      * rewrite (send_done f w i p Hi). simpl. by apply case_done.
      * assert (Hx : ∀ q qc, fo_gos f !! i = Some (q, qc) → qc = SendExit)
          by (intros q qc E; rewrite Hi in E; by injection E as _ <-).
        rewrite send_blocked by done. by apply case_idle.
    + assert (Hx : ∀ q qc, fo_gos f !! i = Some (q, qc) → qc = SendExit)
        by (intros q qc E; by rewrite Hi in E).
      rewrite send_blocked by done. by apply case_idle.
Qed.

(** *** The invariant is kept *)

Lemma targets_cons (exclude p : p2pcrypto.PublicKey) (rest : list p2pcrypto.PublicKey) :
  targets exclude (p :: rest)
  = if decide (exclude = p) then targets exclude rest else p :: targets exclude rest.
Proof.
  unfold targets. rewrite filter_cons.
  destruct (decide (exclude = p)), (decide (exclude ≠ p)); done.
Qed.

Lemma unfinished_app (g1 g2 : list (p2pcrypto.PublicKey * send_pc)) :
  unfinished (g1 ++ g2) = unfinished g1 + unfinished g2.
Proof. unfold unfinished. by rewrite keys_where_app, length_app. Qed.

Lemma fanout_inv_init (payload : list byte) (h : types.Hash12) (nextProt : string)
  (exclude : p2pcrypto.PublicKey) (order : list p2pcrypto.PublicKey) :
  let f0 := propagateMessage_init payload h nextProt exclude order in
  fanout_inv f0 f0 [].
Proof. intros f0. repeat split; done. Qed.

(** A step keeps the wait group sound and uses up the measure. *)
Lemma step_case_wf (f f' : fanout) (w w' : World) (t : fo_thread) :
  fanout_wf f →
  step_case f w t (FoStep f') w' →
  fanout_wf f' ∧ fanout_measure f' < fanout_measure f.
Proof.
  unfold fanout_wf. intros Hwf Hcase.
  inversion Hcase as [p rest Hr He|p rest Hr He| | |i p Hi err|i p e Hi|i p Hi|];
    subst; unfold fanout_measure; simpl.
  - rewrite Hr. simpl. lia.
  - rewrite Hr, unfinished_app, Hwf, sum_list_with_app. simpl.
    change (unfinished [(p, SendCall)]) with 1. lia.
  - pose proof (sum_steps_insert (fo_gos f) i p SendCall
                  (match err with Some e => SendWarn e | None => SendDone end) Hi) as HS.
    unfold unfinished in *.
    rewrite (keys_where_insert_same not_exit _ i p SendCall); [|done|by destruct err].
    split; [done|]. destruct err; simpl in HS; lia.
  - pose proof (sum_steps_insert (fo_gos f) i p (SendWarn e) SendDone Hi) as HS.
    unfold unfinished in *.
    rewrite (keys_where_insert_same not_exit _ i p (SendWarn e)); [|done|done].
    split; [done|]. simpl in HS; lia.
  - pose proof (sum_steps_insert (fo_gos f) i p SendDone SendExit Hi) as HS.
    pose proof (keys_where_insert not_exit (fo_gos f) i p SendDone SendExit Hi) as K.
    simpl in K. apply Permutation_length in K. simpl in K, HS.
    unfold unfinished in *. lia.
Qed.

Lemma step_case_prot (f : fanout) (w w' : World) (t : fo_thread) (o : fo_outcome) :
  step_case f w t o w' → w_prot w' = w_prot w.
Proof. by destruct 1. Qed.

Lemma step_case_inv (f0 f : fanout) (new tr0 : Trace) (w w' : World) (t : fo_thread)
  (o : fo_outcome) :
  fanout_inv f0 f new →
  w_trace w = new ++ tr0 →
  step_case f w t o w' →
  match o with
  | FoStep f' => ∃ new', w_trace w' = new' ++ tr0 ∧ fanout_inv f0 f' new'
  | FoReturn => w' = w ∧ fanout_done f0 new
  | FoBlocked => w' = w
  end.
Proof.
  intros (Hwf & (Hpay & Hh & Hnp & Hex) & Hkeys & Hsent & Hfail & Hev) Htr Hcase.
  assert (Hwf' : ∀ f', o = FoStep f' → fanout_wf f').
  { intros f' ->. by destruct (step_case_wf f f' w w' t Hwf Hcase). }
  unfold fanout_wf in Hwf.
  destruct Hcase as [p rest Hr He|p rest Hr He|Hr Hwg|Hr Hwg|i p Hi err|i p e Hi|i p Hi|i Hi].
  - (* the excluded key is skipped *)
    exists new. split; [done|].
    rewrite Hr, targets_cons in Hkeys.
    destruct (decide (fo_exclude f0 = p)); [|congruence].
    split; [by apply Hwf'|]. repeat split; done.
  - (* a goroutine is launched *)
    exists new. split; [done|].
    rewrite Hr, targets_cons in Hkeys.
    destruct (decide (fo_exclude f0 = p)); [congruence|].
    split; [by apply Hwf'|]. split; [done|]. split; [|split; [|split; [|done]]].
    + simpl. rewrite fmap_app, <- app_assoc. done.
    + simpl. rewrite keys_where_app. simpl. by rewrite app_nil_r.
    + simpl. rewrite keys_where_app. simpl. by rewrite app_nil_r.
  - (* the wait returns *)
    split; [done|].
    assert (Hall : Forall (λ g, g.2 = SendExit) (fo_gos f)).
    { apply unfinished_zero. lia. }
    rewrite Hr in Hkeys. unfold targets at 1 in Hkeys. rewrite filter_nil, app_nil_r in Hkeys.
    split; [|split; [|done]].
    + rewrite Hsent, <- Hkeys. rewrite keys_where_all; [done|].
      eapply Forall_impl; [exact Hall|]. intros [q qc] Hq. simpl in *. by subst qc.
    + rewrite Hfail. replace (keys_where is_warn (fo_gos f)) with (@nil p2pcrypto.PublicKey);
        [by rewrite app_nil_r|].
      symmetry. apply keys_where_none.
      eapply Forall_impl; [exact Hall|]. intros [q qc] Hq. simpl in *. by subst qc.
  - done.
  - (* SendMessage is called *)
    exists (EvSendMessage p (fo_nextProt f) (fo_payload f) err :: new).
    split; [simpl; by rewrite Htr|].
    split; [by apply Hwf'|]. split; [done|]. split; [|split; [|split]].
    + simpl. by rewrite (keys_insert _ i p SendCall).
    + simpl. rewrite Hsent.
      pose proof (keys_where_insert past_call (fo_gos f) i p SendCall
                    (match err with Some e => SendWarn e | None => SendDone end) Hi) as K.
      simpl in K. rewrite K. by destruct err.
    + simpl. destruct err as [e|].
      * pose proof (keys_where_insert is_warn (fo_gos f) i p SendCall (SendWarn e) Hi) as K.
        simpl in K. rewrite K, Hfail. by rewrite Permutation_middle.
      * by rewrite (keys_where_insert_same is_warn _ i p SendCall).
    + constructor; [|done]. simpl. by rewrite Hnp, Hpay.
  - (* the failure is logged *)
    exists (EvLog log.Warning "Failed sending"
              [log.String "protocol" (fo_nextProt f); log.Hash "hash" (fo_h f);
               log.Key "to" p; log.Err e] :: new).
    split; [simpl; by rewrite Htr|].
    split; [by apply Hwf'|]. split; [done|]. split; [|split; [|split]].
    + simpl. by rewrite (keys_insert _ i p (SendWarn e)).
    + simpl. by rewrite (keys_where_insert_same past_call _ i p (SendWarn e)).
    + simpl.
      pose proof (keys_where_insert is_warn (fo_gos f) i p (SendWarn e) SendDone Hi) as K.
      simpl in K. rewrite Hfail, <- K. by rewrite Permutation_middle.
    + constructor; [|done]. simpl. by rewrite Hnp, Hh.
  - (* wg.Done *)
    exists new. split; [done|].
    split; [by apply Hwf'|]. split; [done|]. split; [|split; [|split; [|done]]].
    + simpl. by rewrite (keys_insert _ i p SendDone).
    + simpl. by rewrite (keys_where_insert_same past_call _ i p SendDone).
    + simpl. by rewrite (keys_where_insert_same is_warn _ i p SendDone).
  - done.
Qed.

(** *** Runs of a call *)

Lemma run_returned (sched : list fo_thread) (w : World) :
  propagateMessage_run sched Returned w = (Returned, w).
Proof. by destruct sched. Qed.

Lemma run_cons (t : fo_thread) (sched : list fo_thread) (f : fanout) (w : World) :
  propagateMessage_run (t :: sched) (Running f) w
  = match (propagateMessage_step t f w).1 with
    | FoStep f' => propagateMessage_run sched (Running f') (propagateMessage_step t f w).2
    | FoReturn => (Returned, (propagateMessage_step t f w).2)
    | FoBlocked => propagateMessage_run sched (Running f) w
    end.
Proof.
  simpl. destruct (propagateMessage_step t f w) as [[f'| |] w']; simpl; [done| |done].
  apply run_returned.
Qed.

Lemma run_app (s1 s2 : list fo_thread) (st : fo_status) (w : World) :
  propagateMessage_run (s1 ++ s2) st w
  = propagateMessage_run s2 (propagateMessage_run s1 st w).1 (propagateMessage_run s1 st w).2.
Proof.
  revert st w. induction s1 as [|t s1 IH]; intros st w.
  - by destruct st.
  - destruct st as [f|]; [|by rewrite !run_returned].
    rewrite <- app_comm_cons, !run_cons.
    destruct (propagateMessage_step t f w).1; [apply IH|by rewrite run_returned|apply IH].
Qed.

Lemma run_prot (sched : list fo_thread) (st : fo_status) (w : World) :
  w_prot (propagateMessage_run sched st w).2 = w_prot w.
Proof.
  revert st w. induction sched as [|t sched IH]; intros st w; [by destruct st|].
  destruct st as [f|]; [|by rewrite run_returned].
  rewrite run_cons. pose proof (step_case_prot _ _ _ _ _ (step_cases t f w)) as Hp.
  destruct (propagateMessage_step t f w).1; [by rewrite IH|done|by rewrite IH].
Qed.

Lemma run_inv (f0 : fanout) (sched : list fo_thread) (f : fanout) (new tr0 : Trace)
  (w : World) :
  fanout_inv f0 f new →
  w_trace w = new ++ tr0 →
  ∃ new',
    w_trace (propagateMessage_run sched (Running f) w).2 = new' ++ tr0 ∧
    fanout_status_inv f0 (propagateMessage_run sched (Running f) w).1 new'.
Proof.
  revert f new w. induction sched as [|t sched IH]; intros f new w Hinv Htr.
  - simpl. by exists new.
  - rewrite run_cons.
    pose proof (step_cases t f w) as Hcase.
    pose proof (step_case_inv f0 f new tr0 w _ t _ Hinv Htr Hcase) as Ho.
    destruct (propagateMessage_step t f w) as [[f'| |] w']; simpl in *.
    + destruct Ho as (new' & Htr' & Hinv'). by apply (IH f' new' w').
    + destruct Ho as [-> Hdone]. by exists new.
    + by apply (IH f new w).
Qed.

(** A running call is never stuck: some thread can move. *)
Lemma fanout_progress (f : fanout) (w : World) :
  fanout_wf f → ∃ t, (propagateMessage_step t f w).1 ≠ FoBlocked.
Proof.
  intros Hwf. unfold fanout_wf in Hwf.
  destruct (fo_range f) as [|p rest] eqn:Hr.
  - destruct (decide (fo_wg f = 0%Z)) as [Hz|Hz].
    + exists FoMain. simpl. rewrite main_wait by done. by rewrite decide_True.
    + assert (Hne : ¬ Forall (λ g : p2pcrypto.PublicKey * send_pc, g.2 = SendExit) (fo_gos f)).
      { intros Hall. apply unfinished_zero in Hall. lia. }
      apply not_Forall_Exists in Hne; [|apply _].
      apply Exists_exists in Hne as ([q qc] & Hin & Hq).
      apply list_elem_of_lookup in Hin as [i Hi]. simpl in Hq.
      exists (FoSend i). simpl. destruct qc as [|e| |]; [| | |done].
      * by rewrite (send_call f w i q Hi).
      * by rewrite (send_warn f w i q e Hi).
      * by rewrite (send_done f w i q Hi).
  - exists FoMain. simpl. destruct (decide (fo_exclude f = p)) as [He|He].
    + by rewrite (main_skip f w p rest Hr He).
    + by rewrite (main_launch f w p rest Hr He).
Qed.

(** Every running call can be run to its return. *)
Lemma fanout_completes (n : nat) (f : fanout) (w : World) :
  fanout_measure f ≤ n →
  fanout_wf f →
  ∃ sched, (propagateMessage_run sched (Running f) w).1 = Returned.
Proof.
  revert f w. induction n as [|n IH]; intros f w Hn Hwf.
  - unfold fanout_measure in Hn. lia.
  - destruct (fanout_progress f w Hwf) as [t Ht].
    pose proof (step_cases t f w) as Hcase.
    destruct (propagateMessage_step t f w) as [[f'| |] w'] eqn:E; simpl in *.
    + destruct (step_case_wf f f' w w' t Hwf Hcase) as [Hwf' Hlt].
      destruct (IH f' w') as [sched Hs]; [lia|done|].
      exists (t :: sched). by rewrite run_cons, E.
    + exists [t]. by rewrite run_cons, E.
    + done.
Qed.

(** The caller returns only when every goroutine has finished. *)
Lemma return_iff_resolved (f : fanout) (w : World) :
  fanout_wf f →
  (propagateMessage_main f w).1 = FoReturn
  ↔ fo_range f = [] ∧ Forall (λ g, g.2 = SendExit) (fo_gos f).
Proof.
  intros Hwf. unfold fanout_wf in Hwf. rewrite <- unfinished_zero.
  destruct (fo_range f) as [|p rest] eqn:Hr.
  - rewrite main_wait by done. simpl.
    destruct (decide (fo_wg f = 0%Z)) as [Hz|Hz].
    + split; [|done]. intros _. split; [done|lia].
    + split; [done|]. intros [_ ?]. lia.
  - split; [|by intros [? _]].
    destruct (decide (fo_exclude f = p)) as [He|He].
    + by rewrite (main_skip f w p rest Hr He).
    + by rewrite (main_launch f w p rest Hr He).
Qed.

Lemma targets_spec (exclude p : p2pcrypto.PublicKey) (order : list p2pcrypto.PublicKey) :
  p ∈ targets exclude order ↔ p ∈ order ∧ exclude ≠ p.
Proof. unfold targets. rewrite list_elem_of_filter. tauto. Qed.

Lemma targets_NoDup (exclude : p2pcrypto.PublicKey) (order : list p2pcrypto.PublicKey) :
  NoDup order → NoDup (targets exclude order).
Proof. apply NoDup_filter. Qed.

(** While a call runs, every send so far went to a key that the loop does
    not skip. *)
Lemma fanout_inv_sent (f0 f : fanout) (new : Trace) (p : p2pcrypto.PublicKey) :
  fanout_inv f0 f new → p ∈ sent_to new → p ∈ targets (fo_exclude f0) (fo_range f0).
Proof.
  intros (_ & _ & Hkeys & Hsent & _) Hp.
  rewrite Hsent in Hp. apply keys_where_subset in Hp.
  rewrite <- Hkeys. apply elem_of_app. by left.
Qed.

(** ** The consumer loop *)

Section Loops.
Context `{types.Digest12}.

Lemma exec_next {A : Type} (m : M A) (s : Sys) (k : A → feeder_pc * consumer_pc) :
  exec m s k
  = Next {| sys_world := (m (sys_world s)).2;
            feeder := (k (m (sys_world s)).1).1;
            consumer := (k (m (sys_world s)).1).2 |}.
Proof. unfold exec. by destruct (m (sys_world s)). Qed.

(** What [handlePQ] does with what [Read] returned. *)
Lemma handlePQ_read_cases (r : priorityq.read_result) (w : World) :
  match r with
  | priorityq.ReadBlocks => handlePQ_read r w = (None, w)
  | priorityq.ReadError err =>
      handlePQ_read r w
      = (Some ConsumerExited,
         {| w_prot := w_prot w;
            w_trace := EvLog log.Info "priority queue was closed, existing" [log.Err err]
                       :: w_trace w |})
  | priorityq.ReadItem mi q' =>
      w_prot (handlePQ_read r w).2 = set_pq q' (w_prot w) ∧
      ∃ c, (handlePQ_read r w).1 = Some c ∧ c ≠ ConsumerExited ∧ c ≠ ConsumerNotStarted ∧
           ∀ f, c ≠ ConsumerFanout f
  end.
Proof.
  destruct r as [mi q'|err|]; [|done|done].
  destruct mi as [m|]; (split; [done|]); eexists; (split; [reflexivity|]); done.
Qed.

Lemma Read_closed (q : priorityq.Queue) :
  priorityq.closed q = true → priorityq.Read q = priorityq.ReadError priorityq.ErrQueueClosed.
Proof. unfold priorityq.Read. by intros ->. Qed.

Lemma Read_open (q : priorityq.Queue) :
  priorityq.closed q = false →
  match priorityq.Read q with
  | priorityq.ReadItem _ q' => priorityq.closed q' = false
  | priorityq.ReadError _ => False
  | priorityq.ReadBlocks => True
  end.
Proof.
  unfold priorityq.Read. intros ->. by destruct (priorityq.next (priorityq.pending q)) as [[? ?]|].
Qed.

(** A step of the fan-out leaves the consumer inside the call or back at
    [Read]: a failed send does not end the loop. *)
Lemma fanout_step_continues (t : fo_thread) (s s' : Sys) (f : fanout) :
  consumer s = ConsumerFanout f →
  step (ActFanout t) s = Next s' →
  feeder s' = feeder s ∧
  w_prot (sys_world s') = w_prot (sys_world s) ∧
  ((∃ f', consumer s' = ConsumerFanout f' ∧
          (propagateMessage_step t f (sys_world s)).1 = FoStep f') ∨
   (consumer s' = ConsumerRead ∧ (propagateMessage_step t f (sys_world s)).1 = FoReturn)).
Proof.
  intros Hc Hstep. simpl in Hstep. rewrite Hc in Hstep.
  pose proof (step_case_prot _ _ _ _ _ (step_cases t f (sys_world s))) as Hp.
  destruct (propagateMessage_step t f (sys_world s)) as [[f'| |] w']; simplify_eq; simpl in *.
  - split; [done|]. split; [done|]. left. by exists f'.
  - split; [done|]. split; [done|]. by right.
Qed.

(** The consumer returns in one way only: [Read] on a closed queue. *)
Lemma consumer_exits_on_closed_read (a : Action) (s s' : Sys) :
  step a s = Next s' →
  consumer s' = ConsumerExited →
  consumer s = ConsumerExited ∨
  (a = ActConsumerRead ∧ consumer s = ConsumerRead ∧
   priorityq.closed (pq (w_prot (sys_world s))) = true).
Proof.
  intros Hstep Hexit.
  destruct a; simpl in Hstep; rewrite ?exec_next in Hstep;
    try (injection Hstep as <-; simpl in Hexit; by left).
  - destruct (feeder s); simplify_eq. by left.
  - destruct (Close (sys_world s)); simplify_eq. by left.
  - case_decide; [|done]. rewrite ?exec_next in Hstep. simplify_eq. by left.
  - destruct (feeder s); simplify_eq.
  - destruct (feeder s); try done. destruct (propagateQ _); [done|].
    rewrite ?exec_next in Hstep. simplify_eq. by left.
  - destruct (feeder s); try done. destruct (shutdown _); [done|].
    rewrite ?exec_next in Hstep. simplify_eq. by left.
  - destruct (consumer s) eqn:Hc; try done.
    right. split; [done|]. split; [done|].
    destruct (priorityq.closed (pq (w_prot (sys_world s)))) eqn:Hcl; [done|].
    pose proof (Read_open _ Hcl) as Ho.
    pose proof (handlePQ_read_cases (priorityq.Read (pq (w_prot (sys_world s)))) (sys_world s))
      as Hr.
    destruct (priorityq.Read (pq (w_prot (sys_world s)))) as [mi q'|err|]; [|done|].
    + destruct Hr as (_ & c & Hc' & Hne & _).
      destruct (handlePQ_read _ _) as [[c'|] w']; simplify_eq. simpl in *. congruence.
    + rewrite Hr in Hstep. done.
  - destruct (consumer s); try done. case_decide; simplify_eq.
  - destruct (consumer s) as [| | |f|] eqn:Hc; try done.
    destruct (fanout_step_continues t s s' f Hc) as (_ & _ & [(f' & Hf & _)|[Hf _]]);
      [by simpl; rewrite Hc|congruence|congruence].
Qed.


(** C2. Whatever the schedule of the goroutines and whatever each send
    returns: when [propagateMessage] has returned, the trace holds exactly
    one [SendMessage] call for each peer of the snapshot other than the
    excluded sender and none for anyone else, each failed send is followed
    by its warning, and the registry is as it was.  The caller returns only
    from the wait, and the wait lets it through only when every goroutine
    has finished; until then some thread can always move and the call can
    always be run to its return, so a failed send neither stops the other
    sends nor is repeated.  A step of the fan-out leaves [handlePQ] inside
    the call or back at [Read]: the loop ends only on a closed queue. *)
Theorem fanout_sends_once_and_waits (w : World) (payload : list byte) (h : types.Hash12)
  (nextProt : string) (exclude : p2pcrypto.PublicKey) (order : list p2pcrypto.PublicKey)
  (sched : list fo_thread) :
  is_snapshot (peers (w_prot w)) order →
  let f0 := propagateMessage_init payload h nextProt exclude order in
  let st := (propagateMessage_run sched (Running f0) w).1 in
  let w' := (propagateMessage_run sched (Running f0) w).2 in
  let new := events_since w w' in
  w_prot w' = w_prot w ∧
  (st = Returned →
   sent_to new ≡ₚ targets exclude order ∧
   NoDup (sent_to new) ∧
   (∀ p, p ∈ sent_to new ↔ is_Some (peers (w_prot w) !! p) ∧ exclude ≠ p) ∧
   failed_to new ≡ₚ warned_to new ∧
   Forall (fanout_event f0) new) ∧
  (∀ f, st = Running f →
   ((propagateMessage_main f w').1 = FoReturn
    ↔ fo_range f = [] ∧ Forall (λ g, g.2 = SendExit) (fo_gos f)) ∧
   (∃ t, (propagateMessage_step t f w').1 ≠ FoBlocked) ∧
   (∃ sched', (propagateMessage_run (sched ++ sched') (Running f0) w).1 = Returned)) ∧
  (∀ (s s' : Sys) (t : fo_thread) (f : fanout),
     consumer s = ConsumerFanout f →
     step (ActFanout t) s = Next s' →
     consumer s' = ConsumerRead ∨ ∃ f', consumer s' = ConsumerFanout f') ∧
  (∀ (a : Action) (s s' : Sys),
     step a s = Next s' →
     consumer s' = ConsumerExited →
     consumer s = ConsumerExited ∨
     (a = ActConsumerRead ∧ priorityq.closed (pq (w_prot (sys_world s))) = true)).
Proof.
  intros Hsnap f0 st w' new.
  destruct (run_inv f0 sched f0 [] (w_trace w) w) as (new' & Htr & Hst);
    [apply fanout_inv_init|done|].
  fold w' in Htr. fold st in Hst.
  assert (Hnew : new = new') by (by apply events_since_app).
  rewrite Hnew. clear Hnew new.
  split; [apply run_prot|]. split; [|split; [|split]].
  - intros Hret. rewrite Hret in Hst. destruct Hst as (Hsent & Hfail & Hev).
    simpl in Hsent.
    split; [done|]. split; [|split; [|done]].
    + rewrite Hsent. apply targets_NoDup. by eapply snapshot_NoDup.
    + intros p. rewrite Hsent, targets_spec. by rewrite (snapshot_elem _ _ p Hsnap).
  - intros f Hrun. rewrite Hrun in Hst. simpl in Hst.
    assert (Hwf : fanout_wf f) by (by destruct Hst).
    split; [by apply return_iff_resolved|]. split; [by apply fanout_progress|].
    destruct (fanout_completes (fanout_measure f) f w') as [sched' Hs]; [done|done|].
    exists sched'. rewrite run_app. fold st w'. by rewrite Hrun.
  - intros s s' t f Hc Hstep.
    destruct (fanout_step_continues t s s' f Hc Hstep) as (_ & _ & [(f' & Hf & _)|[Hf _]]);
      [right; by exists f'|by left].
  - intros a s s' Hstep Hexit.
    destruct (consumer_exits_on_closed_read a s s' Hstep Hexit) as [?|(? & _ & ?)];
      [by left|by right].
Qed.

(** C3. Whatever the registry holds, whatever the order in which its keys
    come up and whatever the schedule, at no point of a fan-out has a send
    gone to the excluded key; and the key that [handlePQ] has
    [propagateMessage] exclude is the sender of the record it read. *)
Theorem fanout_never_sends_to_sender (w : World) (payload : list byte) (h : types.Hash12)
  (nextProt : string) (exclude : p2pcrypto.PublicKey) (order : list p2pcrypto.PublicKey)
  (sched : list fo_thread) :
  let f0 := propagateMessage_init payload h nextProt exclude order in
  let w' := (propagateMessage_run sched (Running f0) w).2 in
  (exclude ∉ sent_to (events_since w w')) ∧
  (∀ (m : service.MessageValidation) (q : priorityq.Queue) (w0 : World),
     ∃ h', (handlePQ_read (priorityq.ReadItem (priorityq.ItemValidation m) q) w0).1
           = Some (ConsumerCall (service.Message m) h' (service.Protocol m)
                     (service.Sender m))) ∧
  (∀ (s s' : Sys) (order' : list p2pcrypto.PublicKey),
     consumer s = ConsumerCall payload h nextProt exclude →
     step (ActConsumerSnapshot order') s = Next s' →
     is_snapshot (peers (w_prot (sys_world s))) order' ∧
     consumer s' = ConsumerFanout (propagateMessage_init payload h nextProt exclude order')).
Proof.
  intros f0 w'.
  destruct (run_inv f0 sched f0 [] (w_trace w) w) as (new' & Htr & Hst);
    [apply fanout_inv_init|done|].
  fold w' in Htr. rewrite (events_since_app w w' new' Htr).
  split; [|split].
  - intros Hin.
    assert (Ht : exclude ∈ targets (fo_exclude f0) (fo_range f0)).
    { destruct (propagateMessage_run sched (Running f0) w).1 as [f|]; simpl in Hst.
      - by eapply fanout_inv_sent.
      - destruct Hst as (Hsent & _). by rewrite <- Hsent. }
    apply targets_spec in Ht as [_ Hne]. by apply Hne.
  - intros m q w0. by eexists.
  - intros s s' order' Hc Hstep. simpl in Hstep. rewrite Hc in Hstep.
    case_decide; [|done]. by simplify_eq.
Qed.

End Loops.

(** The registry holds [keyA], [keyB], [keyC] and [keyS]; a message from
    [keyS] is propagated; the send to [keyB] fails; the goroutines are
    interleaved with the loop. *)
Lemma fanout_sends_once_and_waits_witness :
  let w := apply_ops [OpAdd keyA; OpAdd keyB; OpAdd keyC; OpAdd keyS] sample_world in
  let order := [keyB; keyS; keyC; keyA] in
  let sched := [FoMain; FoSend 0; FoMain; FoMain; FoSend 1; FoMain; FoMain; FoSend 2;
                FoSend 0; FoSend 2; FoSend 1; FoMain; FoSend 0; FoMain] in
  let f0 := propagateMessage_init ["m"%byte] (sample_hash 1) "x" keyS order in
  let w' := (propagateMessage_run sched (Running f0) w).2 in
  (propagateMessage_run sched (Running f0) w).1 = Returned ∧
  sent_to (events_since w w') ≡ₚ [keyB; keyC; keyA] ∧
  failed_to (events_since w w') ≡ₚ warned_to (events_since w w') ∧
  warned_to (events_since w w') = [keyB].
Proof.
  intros w order sched f0 w'.
  destruct (@fanout_sends_once_and_waits sample_digest w ["m"%byte] (sample_hash 1) "x" keyS order sched)
    as (_ & Hret & _).
  { unfold is_snapshot. subst w order. compute_done. }
  destruct Hret as (Hsent & _ & _ & Hfail & _); [reflexivity|].
  split; [reflexivity|]. split; [exact Hsent|]. split; [exact Hfail|reflexivity].
Defined.

(** [keyS] is in the registry and is the sender: nothing is sent to it. *)
Lemma fanout_never_sends_to_sender_witness :
  let w := apply_ops [OpAdd keyA; OpAdd keyS] sample_world in
  let f0 := propagateMessage_init ["m"%byte] (sample_hash 1) "x" keyS [keyS; keyA] in
  let w' := (propagateMessage_run [FoMain; FoMain; FoSend 0; FoSend 0; FoMain]
               (Running f0) w).2 in
  is_Some (peers (w_prot w) !! keyS) ∧
  (keyS ∉ sent_to (events_since w w')) ∧
  sent_to (events_since w w') = [keyA].
Proof.
  intros w f0 w'.
  split; [by eexists|]. split; [|reflexivity].
  apply (@fanout_never_sends_to_sender sample_digest w ["m"%byte] (sample_hash 1) "x" keyS [keyS; keyA]
           [FoMain; FoMain; FoSend 0; FoSend 0; FoMain]).
Defined.

(** ** Shutdown of the pipeline *)

Lemma Write_closed (q : priorityq.Queue) (prio : priorityq.Priority) (m : priorityq.item) :
  priorityq.closed (priorityq.Write q prio m).2 = priorityq.closed q.
Proof. unfold priorityq.Write. by destruct (priorityq.closed q) eqn:E. Qed.

Lemma message_prot (m : service.MessageValidation) (rest : list service.MessageValidation)
  (w : World) :
  w_prot ((modify (set_propagateQ rest);; propagationEventLoop_message m) w).2
  = set_pq (priorityq.Write (pq (w_prot w)) (getPriority (service.Protocol m) w).1
              (priorityq.ItemValidation m)).2
      (set_propagateQ rest (w_prot w)).
Proof.
  unfold propagationEventLoop_message, getPriority, mbind, M_bind, bind, gets, modify,
    emit, Log, ret. simpl.
  destruct (priorities (w_prot w) !! service.Protocol m); simpl;
    unfold priorityq.Write; simpl; by destruct (priorityq.closed (pq (w_prot w))).
Qed.

Section Pipeline.
Context `{types.Digest12}.

Lemma Broadcast_prot (payload : list byte) (nextProt : string) (w : World) :
  w_prot (Broadcast payload nextProt w).2
  = set_oldMessageQ
      (types.GetOrInsert (oldMessageQ (w_prot w))
         (sub_hash (ViaBroadcast payload nextProt))).2 (w_prot w).
Proof. apply (submit_prot (ViaBroadcast payload nextProt)). Qed.

Lemma Relay_prot (sender : p2pcrypto.PublicKey) (protocol : string) (msg : service.Data)
  (w : World) :
  w_prot (Relay sender protocol msg w).2
  = set_oldMessageQ
      (types.GetOrInsert (oldMessageQ (w_prot w))
         (sub_hash (ViaRelay sender protocol msg))).2 (w_prot w).
Proof. apply (submit_prot (ViaRelay sender protocol msg)). Qed.

(** What a step does to the queue's closed flag, to the shutdown signal
    and to the feeding loop. *)
Lemma step_flags (a : Action) (s s' : Sys) :
  step a s = Next s' →
  priorityq.closed (pq (w_prot (sys_world s')))
  = match a with
    | ActFeederShutdown => true
    | _ => priorityq.closed (pq (w_prot (sys_world s)))
    end ∧
  shutdown (w_prot (sys_world s'))
  = match a with
    | ActClose => ChanClosed
    | _ => shutdown (w_prot (sys_world s))
    end ∧
  feeder s'
  = match a with
    | ActStart => FeederSpawn
    | ActFeederSpawn => FeederSelect
    | ActFeederShutdown => FeederExited
    | _ => feeder s
    end ∧
  match a with
  | ActStart => feeder s = FeederNotStarted
  | ActFeederSpawn => feeder s = FeederSpawn
  | ActFeederMessage => feeder s = FeederSelect
  | ActFeederShutdown =>
      feeder s = FeederSelect ∧ shutdown (w_prot (sys_world s)) = ChanClosed
  | ActClose => shutdown (w_prot (sys_world s)) = ChanOpen
  | _ => True
  end.
Proof.
  intros Hstep. destruct a; simpl in Hstep.
  - destruct (feeder s) eqn:Hf; simplify_eq. done.
  - unfold Close in Hstep. destruct (shutdown (w_prot (sys_world s))) eqn:Hs;
      simpl in Hstep; simplify_eq. done.
  - rewrite exec_next in Hstep. simplify_eq. simpl. by rewrite Broadcast_prot.
  - rewrite exec_next in Hstep. simplify_eq. simpl. by rewrite Relay_prot.
  - rewrite exec_next in Hstep. by simplify_eq.
  - rewrite exec_next in Hstep. by simplify_eq.
  - rewrite exec_next in Hstep. by simplify_eq.
  - case_decide; [|done]. rewrite exec_next in Hstep. by simplify_eq.
  - destruct (feeder s) eqn:Hf; simplify_eq. done.
  - destruct (feeder s) eqn:Hf; try done.
    destruct (propagateQ (w_prot (sys_world s))) as [|m rest]; [done|].
    rewrite exec_next in Hstep. simplify_eq. simpl. rewrite message_prot. simpl.
    by rewrite Write_closed.
  - destruct (feeder s) eqn:Hf; try done.
    destruct (shutdown (w_prot (sys_world s))) eqn:Hs; [done|].
    rewrite exec_next in Hstep. by simplify_eq.
  - destruct (consumer s) eqn:Hc; try done.
    pose proof (handlePQ_read_cases (priorityq.Read (pq (w_prot (sys_world s)))) (sys_world s))
      as Hr.
    destruct (priorityq.closed (pq (w_prot (sys_world s)))) eqn:Hcl.
    + rewrite (Read_closed _ Hcl) in Hr, Hstep. rewrite Hr in Hstep. simplify_eq.
      simpl. by rewrite Hcl.
    + pose proof (Read_open _ Hcl) as Ho.
      destruct (priorityq.Read (pq (w_prot (sys_world s)))) as [mi q'|err|]; [|done|].
      * destruct Hr as (Hp & c & Hc' & _).
        destruct (handlePQ_read _ _) as [[c'|] w']; simplify_eq. simpl in *.
        rewrite Hp. simpl. by rewrite Ho.
      * rewrite Hr in Hstep. done.
  - destruct (consumer s); try done. case_decide; by simplify_eq.
  - destruct (consumer s) as [| | |f|] eqn:Hc; try done.
    destruct (fanout_step_continues t s s' f Hc) as (Hf & Hp & _);
      [by simpl; rewrite Hc|]. by rewrite Hp, Hf.
Qed.

(** What a step does to [handlePQ]. *)
Lemma step_consumer (a : Action) (s s' : Sys) :
  step a s = Next s' →
  match a with
  | ActFeederSpawn => consumer s' = ConsumerRead
  | ActConsumerRead =>
      consumer s = ConsumerRead ∧ consumer s' ≠ ConsumerNotStarted ∧
      (∀ f, consumer s' ≠ ConsumerFanout f) ∧
      (consumer s' = ConsumerExited
       ↔ priorityq.closed (pq (w_prot (sys_world s))) = true)
  | ActConsumerSnapshot order =>
      ∃ payload h nextProt exclude,
        consumer s = ConsumerCall payload h nextProt exclude ∧
        consumer s' = ConsumerFanout (propagateMessage_init payload h nextProt exclude order)
  | ActFanout t =>
      ∃ f, consumer s = ConsumerFanout f ∧
           (consumer s' = ConsumerRead ∨
            ∃ f', consumer s' = ConsumerFanout f' ∧
                  (propagateMessage_step t f (sys_world s)).1 = FoStep f')
  | _ => consumer s' = consumer s
  end.
Proof.
  intros Hstep. destruct a; simpl in Hstep; rewrite ?exec_next in Hstep;
    try (by simplify_eq).
  - destruct (feeder s); by simplify_eq.
  - destruct (Close (sys_world s)); by simplify_eq.
  - case_decide; [|done]. rewrite ?exec_next in Hstep. by simplify_eq.
  - destruct (feeder s); by simplify_eq.
  - destruct (feeder s); try done. destruct (propagateQ _); [done|].
    rewrite ?exec_next in Hstep. by simplify_eq.
  - destruct (feeder s); try done. destruct (shutdown _); [done|].
    rewrite ?exec_next in Hstep. by simplify_eq.
  - destruct (consumer s) eqn:Hc; try done. split; [done|].
    pose proof (handlePQ_read_cases (priorityq.Read (pq (w_prot (sys_world s)))) (sys_world s))
      as Hr.
    destruct (priorityq.closed (pq (w_prot (sys_world s)))) eqn:Hcl.
    + rewrite (Read_closed _ Hcl) in Hr, Hstep. rewrite Hr in Hstep. simplify_eq.
      simpl. done.
    + pose proof (Read_open _ Hcl) as Ho.
      destruct (priorityq.Read (pq (w_prot (sys_world s)))) as [mi q'|err|]; [|done|].
      * destruct Hr as (Hp & c & Hc' & Hne & Hns & Hnf).
        destruct (handlePQ_read _ _) as [[c'|] w']; simplify_eq. simpl in *.
        injection Hc' as ->. split; [done|]. split; [done|]. split; [done|congruence].
      * rewrite Hr in Hstep. done.
  - destruct (consumer s); try done. case_decide; simplify_eq. eauto 10.
  - destruct (consumer s) as [| | |f|] eqn:Hc; try done. exists f. split; [done|].
    destruct (fanout_step_continues t s s' f Hc) as (_ & _ & [(f' & Hf & Hs)|[Hf _]]);
      [by simpl; rewrite Hc|right; by exists f'|by left].
Qed.

(** The invariant of the runs. *)
Lemma NewSys_wf (base : baseNetwork) (local : p2pcrypto.PublicKey) :
  sys_wf (NewSys base local).
Proof.
  unfold sys_wf, NewSys. simpl. split; [done|]. split; [split; auto|].
  split; [split; done|]. split; done.
Qed.

Lemma step_wf (a : Action) (s s' : Sys) :
  sys_wf s → step a s = Next s' → sys_wf s'.
Proof.
  intros (Hfo & Hns & Hcl & Hex & Hsh) Hstep.
  destruct (step_flags a s s' Hstep) as (Fc & Fs & Ff & Fpre).
  pose proof (step_consumer a s s' Hstep) as Fcons.
  unfold sys_wf. rewrite Fc, Fs, Ff.
  destruct a; simpl in *;
    try (rewrite Fcons; split; [done|split; [done|split; [done|split; done]]]).
  - (* ActStart *)
    rewrite Fcons. split; [done|]. split; [split; [auto|intros _; apply Hns; auto]|].
    split; [|split; [intros Hc; apply Hex in Hc; congruence|done]].
    rewrite Hcl, Fpre. split; done.
  - (* ActFeederSpawn *)
    rewrite Fcons. split; [done|]. split; [split; [done|intros [?|?]; done]|].
    split; [|split; done]. rewrite Hcl, Fpre. split; done.
  - (* ActFeederShutdown *)
    rewrite Fcons. destruct Fpre as [Fpre Fsh].
    split; [done|]. split; [|split; [done|split; done]].
    rewrite Hns, Fpre. split; intros [?|?]; done.
  - (* ActConsumerRead *)
    destruct Fcons as (Hc & Hn & Hnf & Hexit).
    split; [intros f Hf; by destruct (Hnf f)|].
    split; [|split; [done|split; [|done]]].
    + split; [done|]. intros Hfe. apply Hns in Hfe. congruence.
    + intros He. apply Hcl. by apply Hexit.
  - (* ActConsumerSnapshot *)
    destruct Fcons as (payload & h & np & ex & Hc & Hc').
    rewrite Hc'. split; [|split; [|split; [done|split; done]]].
    + intros f [= <-]. done.
    + split; [done|]. intros Hfe. apply Hns in Hfe. congruence.
  - (* ActFanout *)
    destruct Fcons as (f & Hc & [Hc'|(f' & Hc' & Hs)]); rewrite Hc'.
    + split; [done|]. split; [|split; [done|split; done]].
      split; [done|]. intros Hfe. apply Hns in Hfe. congruence.
    + split; [|split; [|split; [done|split; done]]].
      * intros f'' [= <-].
        pose proof (step_cases t f (sys_world s)) as Hcase. rewrite Hs in Hcase.
        by destruct (step_case_wf f f' _ _ t (Hfo f Hc) Hcase).
      * split; [done|]. intros Hfe. apply Hns in Hfe. congruence.
Qed.

Lemma run_wf (sched : list Action) (s s' : Sys) :
  sys_wf s → run sched s = Next s' → sys_wf s'.
Proof.
  revert s. induction sched as [|a sched IH]; intros s Hwf Hrun; simpl in Hrun.
  - by simplify_eq.
  - destruct (step a s) as [s1| |] eqn:E; [|done|done].
    apply (IH s1); [by eapply step_wf|done].
Qed.

Lemma run_cons_sys (a : Action) (sched : list Action) (s : Sys) :
  run (a :: sched) s = match step a s with Next s' => run sched s' | o => o end.
Proof. done. Qed.

Lemma run_app_sys (s1 s2 : list Action) (s : Sys) :
  run (s1 ++ s2) s = match run s1 s with Next s' => run s2 s' | o => o end.
Proof.
  revert s. induction s1 as [|a s1 IH]; intros s; [done|]. simpl.
  destruct (step a s); [apply IH|done|done].
Qed.


(** Once a step can be taken off a state, the loops that have returned stay
    returned and a fired signal stays fired. *)
Lemma step_permanent (a : Action) (s s' : Sys) :
  sys_wf s → step a s = Next s' →
  (feeder s = FeederExited → feeder s' = FeederExited) ∧
  (consumer s = ConsumerExited → consumer s' = ConsumerExited) ∧
  (shutdown (w_prot (sys_world s)) = ChanClosed →
   shutdown (w_prot (sys_world s')) = ChanClosed).
Proof.
  intros (_ & Hns & _ & Hex & _) Hstep.
  destruct (step_flags a s s' Hstep) as (_ & Fs & Ff & Fpre).
  pose proof (step_consumer a s s' Hstep) as Fcons.
  rewrite Fs, Ff. split; [|split].
  - intros Hf. destruct a; try done; simpl in Fpre; try congruence.
  - intros Hc. destruct a; simpl in Fcons; try congruence.
    + apply Hex in Hc. simpl in Fpre. congruence.
    + destruct Fcons as [? _]. congruence.
    + destruct Fcons as (? & ? & ? & ? & ? & _). congruence.
    + destruct Fcons as (? & ? & _). congruence.
  - intros Hs. by destruct a.
Qed.

Lemma run_permanent (sched : list Action) (s s' : Sys) :
  sys_wf s → run sched s = Next s' →
  (feeder s = FeederExited → feeder s' = FeederExited) ∧
  (consumer s = ConsumerExited → consumer s' = ConsumerExited) ∧
  (shutdown (w_prot (sys_world s)) = ChanClosed →
   shutdown (w_prot (sys_world s')) = ChanClosed).
Proof.
  revert s. induction sched as [|a sched IH]; intros s Hwf Hrun; simpl in Hrun.
  - by simplify_eq.
  - destruct (step a s) as [s1| |] eqn:E; [|done|done].
    destruct (step_permanent a s s1 Hwf E) as (P1 & P2 & P3).
    destruct (IH s1) as (Q1 & Q2 & Q3); [by eapply step_wf|done|]. auto.
Qed.

(** [Read] on a closed queue: [handlePQ] logs and returns. *)
Lemma read_on_closed_exits (s : Sys) :
  consumer s = ConsumerRead →
  priorityq.closed (pq (w_prot (sys_world s))) = true →
  step ActConsumerRead s
  = Next {| sys_world :=
              {| w_prot := w_prot (sys_world s);
                 w_trace := EvLog log.Info "priority queue was closed, existing"
                              [log.Err priorityq.ErrQueueClosed]
                            :: w_trace (sys_world s) |};
            feeder := feeder s;
            consumer := ConsumerExited |}.
Proof. intros Hc Hcl. simpl. rewrite Hc, (Read_closed _ Hcl). done. Qed.

(** A running fan-out can be run to its return, by steps of its own
    threads. *)
Lemma sys_fanout_completes (n : nat) (s : Sys) (f : fanout) :
  fanout_measure f ≤ n →
  consumer s = ConsumerFanout f →
  fanout_wf f →
  ∃ sched s',
    run sched s = Next s' ∧ consumer s' = ConsumerRead ∧ feeder s' = feeder s ∧
    w_prot (sys_world s') = w_prot (sys_world s).
Proof.
  revert s f. induction n as [|n IH]; intros s f Hn Hc Hwf.
  - unfold fanout_measure in Hn. lia.
  - destruct (fanout_progress f (sys_world s) Hwf) as [t Ht].
    pose proof (step_cases t f (sys_world s)) as Hcase.
    destruct (step (ActFanout t) s) as [s1| |] eqn:E.
    + destruct (fanout_step_continues t s s1 f Hc E) as (Hf & Hp & [(f' & Hc' & Hs)|[Hc' _]]).
      * rewrite Hs in Hcase.
        destruct (step_case_wf f f' _ _ t Hwf Hcase) as [Hwf' Hlt].
        destruct (IH s1 f') as (sched & s' & Hrun & ? & ? & ?); [lia|done|done|].
        exists (ActFanout t :: sched), s'. rewrite run_cons_sys, E.
        split; [done|]. split; [done|]. split; congruence.
      * exists [ActFanout t], s1. by rewrite run_cons_sys, E.
    + simpl in E. rewrite Hc in E.
      destruct (propagateMessage_step t f (sys_world s)) as [[?| |] ?]; done.
    + simpl in E. rewrite Hc in E.
      destruct (propagateMessage_step t f (sys_world s)) as [[?| |] ?]; done.
Qed.

(** With the queue closed, [handlePQ] can be run to its return from
    wherever it stands. *)
Lemma sys_drain (s : Sys) :
  sys_wf s →
  consumer s ≠ ConsumerNotStarted →
  priorityq.closed (pq (w_prot (sys_world s))) = true →
  ∃ sched s', run sched s = Next s' ∧ consumer s' = ConsumerExited ∧ feeder s' = feeder s.
Proof.
  intros Hwf Hns Hcl.
  assert (Hread : ∀ s1, consumer s1 = ConsumerRead → feeder s1 = feeder s →
                        w_prot (sys_world s1) = w_prot (sys_world s) →
                        ∃ s', run [ActConsumerRead] s1 = Next s' ∧
                              consumer s' = ConsumerExited ∧ feeder s' = feeder s).
  { intros s1 Hc Hf Hp. eexists. rewrite run_cons_sys.
    rewrite (read_on_closed_exits s1 Hc) by (by rewrite Hp). by split. }
  destruct (consumer s) as [| |payload h np ex|f|] eqn:Hc; [done| | | |].
  - destruct (Hread s Hc eq_refl eq_refl) as (s' & ? & ? & ?). by exists [ActConsumerRead], s'.
  - pose (order := (map_to_list (peers (w_prot (sys_world s)))).*1).
    pose (s1 := {| sys_world := sys_world s; feeder := feeder s;
                   consumer := ConsumerFanout (propagateMessage_init payload h np ex order) |}).
    assert (E1 : step (ActConsumerSnapshot order) s = Next s1).
    { simpl. rewrite Hc. rewrite decide_True; [done|]. unfold is_snapshot. done. }
    destruct (sys_fanout_completes _ s1 _ (le_n _) eq_refl) as (sched & s2 & Hrun & Hc2 & Hf2 & Hp2).
    { unfold fanout_wf. done. }
    destruct (Hread s2 Hc2 Hf2 Hp2) as (s' & Hr & ? & ?).
    exists (ActConsumerSnapshot order :: sched ++ [ActConsumerRead]), s'.
    split; [|done]. rewrite run_cons_sys, E1, run_app_sys, Hrun. done.
  - destruct Hwf as (Hfo & _).
    destruct (sys_fanout_completes _ s f (le_n _) Hc (Hfo f Hc))
      as (sched & s2 & Hrun & Hc2 & Hf2 & Hp2).
    destruct (Hread s2 Hc2 Hf2 Hp2) as (s' & Hr & ? & ?).
    exists (sched ++ [ActConsumerRead]), s'.
    split; [|done]. rewrite run_app_sys, Hrun. done.
  - by exists [], s.
Qed.

(** C5.  In every state that a run of the controller reaches: [Close]
    fires the shutdown signal; the feeding loop takes its shutdown branch
    only if the signal has fired, and the branch closes the propagation
    queue and ends the loop; on a closed queue the consumer's [Read]
    returns the closed-error, upon which the consumer logs and returns; the
    queue is closed by the shutdown branch alone and the consumer has
    returned only if the queue is closed.  A loop that has returned stays
    returned in every continuation of the run, and once the signal has
    fired after [Start], the run can be continued until both loops have
    returned. *)
Theorem shutdown_stops_pipeline (base : baseNetwork) (local : p2pcrypto.PublicKey)
  (sched : list Action) (s : Sys) :
  run sched (NewSys base local) = Next s →
  (shutdown (w_prot (sys_world s)) = ChanOpen →
   ∃ s', step ActClose s = Next s' ∧
         shutdown (w_prot (sys_world s')) = ChanClosed ∧
         feeder s' = feeder s ∧ consumer s' = consumer s) ∧
  (feeder s = FeederSelect →
   (shutdown (w_prot (sys_world s)) = ChanOpen → step ActFeederShutdown s = Blocked) ∧
   (shutdown (w_prot (sys_world s)) = ChanClosed →
    ∃ s', step ActFeederShutdown s = Next s' ∧
          feeder s' = FeederExited ∧
          priorityq.closed (pq (w_prot (sys_world s'))) = true ∧
          consumer s' = consumer s)) ∧
  (priorityq.closed (pq (w_prot (sys_world s))) = true →
   priorityq.Read (pq (w_prot (sys_world s))) = priorityq.ReadError priorityq.ErrQueueClosed ∧
   (consumer s = ConsumerRead →
    ∃ s', step ActConsumerRead s = Next s' ∧
          consumer s' = ConsumerExited ∧
          head (w_trace (sys_world s'))
          = Some (EvLog log.Info "priority queue was closed, existing"
                    [log.Err priorityq.ErrQueueClosed]))) ∧
  (priorityq.closed (pq (w_prot (sys_world s))) = true ↔ feeder s = FeederExited) ∧
  (feeder s = FeederExited → shutdown (w_prot (sys_world s)) = ChanClosed) ∧
  (consumer s = ConsumerExited → priorityq.closed (pq (w_prot (sys_world s))) = true) ∧
  (∀ sched' s',
     run sched' s = Next s' →
     (feeder s = FeederExited → feeder s' = FeederExited) ∧
     (consumer s = ConsumerExited → consumer s' = ConsumerExited) ∧
     (shutdown (w_prot (sys_world s)) = ChanClosed →
      shutdown (w_prot (sys_world s')) = ChanClosed)) ∧
  (feeder s ≠ FeederNotStarted →
   shutdown (w_prot (sys_world s)) = ChanClosed →
   ∃ sched' s',
     run sched' s = Next s' ∧ feeder s' = FeederExited ∧ consumer s' = ConsumerExited).
Proof.
  intros Hrun.
  assert (Hwf : sys_wf s) by (eapply run_wf; [apply NewSys_wf|exact Hrun]).
  pose proof Hwf as (Hfo & Hns & Hcl & Hex & Hsh).
  assert (Hshut : feeder s = FeederSelect →
                  shutdown (w_prot (sys_world s)) = ChanClosed →
                  ∃ s', step ActFeederShutdown s = Next s' ∧
                        feeder s' = FeederExited ∧
                        priorityq.closed (pq (w_prot (sys_world s'))) = true ∧
                        consumer s' = consumer s).
  { intros Hf Hs. simpl. rewrite Hf, Hs, exec_next. eexists. split; [done|]. done. }
  split; [|split; [|split; [|split; [done|split; [done|split; [|split]]]]]].
  - intros Hopen. simpl. unfold Close. rewrite Hopen. simpl. eexists. split; [done|]. done.
  - intros Hf. split; [|by apply Hshut].
    intros Hopen. simpl. by rewrite Hf, Hopen.
  - intros Hc. split; [by apply Read_closed|]. intros Hr.
    rewrite (read_on_closed_exits s Hr Hc). eexists. split; [done|]. done.
  - intros Hc. apply Hcl. by apply Hex.
  - intros sched' s' Hrun'. by apply (run_permanent sched' s s').
  - intros Hstarted Hs.
    assert (Hdrain : ∀ s1, sys_wf s1 → feeder s1 = FeederExited →
                           ∃ sched1 s', run sched1 s1 = Next s' ∧
                                        feeder s' = FeederExited ∧
                                        consumer s' = ConsumerExited).
    { intros s1 (Hfo1 & Hns1 & Hcl1 & Hex1 & Hsh1) Hf1.
      destruct (sys_drain s1) as (sched1 & s' & Hr & Hc' & Hf'); [done| |by apply Hcl1|].
      - intros Hn. apply Hns1 in Hn as [?|?]; congruence.
      - exists sched1, s'. split; [done|]. split; congruence. }
    assert (Hselect : ∀ s1, sys_wf s1 → feeder s1 = FeederSelect →
                            shutdown (w_prot (sys_world s1)) = ChanClosed →
                            ∃ sched1 s', run sched1 s1 = Next s' ∧
                                         feeder s' = FeederExited ∧
                                         consumer s' = ConsumerExited).
    { intros s1 Hwf1 Hf1 Hs1.
      assert (E : ∃ s2, step ActFeederShutdown s1 = Next s2 ∧ feeder s2 = FeederExited).
      { simpl. rewrite Hf1, Hs1, exec_next. eexists. split; [done|]. done. }
      destruct E as (s2 & E & Hf2).
      destruct (Hdrain s2) as (sched2 & s' & Hr & ? & ?); [by eapply step_wf|done|].
      exists (ActFeederShutdown :: sched2), s'. by rewrite run_cons_sys, E. }
    destruct (feeder s) eqn:Hf; [done| | |].
    + assert (E : ∃ s1, step ActFeederSpawn s = Next s1 ∧ feeder s1 = FeederSelect ∧
                        shutdown (w_prot (sys_world s1)) = ChanClosed).
      { simpl. rewrite Hf. eexists. split; [done|]. done. }
      destruct E as (s1 & E & Hf1 & Hs1).
      destruct (Hselect s1) as (sched1 & s' & Hr & ? & ?); [by eapply step_wf|done|done|].
      exists (ActFeederSpawn :: sched1), s'. by rewrite run_cons_sys, E.
    + by apply Hselect.
    + by apply Hdrain.
Qed.

End Pipeline.

(** [Start], two peers, a validated record on its way, then [Close]: the
    feeding loop closes the queue and returns, and [handlePQ], which was
    inside a fan-out, returns too. *)
Lemma shutdown_stops_pipeline_witness :
  let sched := [ActStart; ActFeederSpawn; ActAddPeer keyA; ActAddPeer keyB;
                ActValidated {| service.mv_sender := keyS; service.mv_msg := ["m"%byte];
                                service.mv_prot := "x" |};
                ActFeederMessage; ActConsumerRead; ActConsumerSnapshot [keyB; keyA];
                ActFanout FoMain; ActClose] in
  ∃ s sched' s',
    @run sample_digest sched (NewSys sample_net keyLocal) = Next s ∧
    @run sample_digest sched' s = Next s' ∧
    feeder s' = FeederExited ∧ consumer s' = ConsumerExited.
Proof.
  intros sched.
  assert (Hx : match @run sample_digest sched (NewSys sample_net keyLocal) with
               | Next s => feeder s ≠ FeederNotStarted ∧
                           shutdown (w_prot (sys_world s)) = ChanClosed
               | _ => False
               end).
  { vm_compute. split; [discriminate|reflexivity]. }
  revert Hx.
  destruct (@run sample_digest sched (NewSys sample_net keyLocal)) as [s| |] eqn:E;
    intros Hx; [|destruct Hx|destruct Hx].
  destruct Hx as [Hf Hs].
  destruct (@shutdown_stops_pipeline sample_digest sample_net keyLocal sched s E)
    as (_ & _ & _ & _ & _ & _ & _ & Hend).
  destruct (Hend Hf Hs) as (sched' & s' & Hr & Hf' & Hc').
  exists s, sched', s'. split; [reflexivity|]. split; [exact Hr|]. split; [exact Hf'|exact Hc'].
Defined.

(** ** Worked runs *)

(** The sample pipeline run: one hand-off to the validator, a send to
    [keyB] that fails and is logged, a send to [keyA], none to [keyS], and
    both loops returned. *)
Example pipeline_run :
  match @run sample_digest sample_schedule (NewSys sample_net keyLocal) with
  | Next s =>
      (handoffs (w_trace (sys_world s)), sent_to (w_trace (sys_world s)),
       warned_to (w_trace (sys_world s)), feeder s, consumer s)
      = ([(keyS, "x"%string, service.DataBytes ["m"%byte])], [keyA; keyB], [keyB],
         FeederExited, ConsumerExited)
  | _ => False
  end.
Proof. vm_compute. reflexivity. Qed.

(** A second [Close] at the end of that run panics. *)
Example pipeline_run_close_again :
  @run sample_digest (sample_schedule ++ [ActClose]) (NewSys sample_net keyLocal)
  = Crash "close of closed channel".
Proof. vm_compute. reflexivity. Qed.

(** A broadcast of "hi" on "x", then the same message relayed from [keyS]:
    one hand-off, one duplicate. *)
Example intake_run :
  let w1 := (@Broadcast sample_digest ["h"%byte; "i"%byte] "x" sample_world).2 in
  let w2 := (@Relay sample_digest keyS "x" (service.DataBytes ["h"%byte; "i"%byte]) w1).2 in
  (handoffs (w_trace w2), duplicates (w_trace w2))
  = ([(keyLocal, "x"%string, service.DataBytes ["h"%byte; "i"%byte])], ["x"%string]).
Proof. vm_compute. reflexivity. Qed.

(** The queue serves the higher priority first and equal priorities in
    their order of arrival. *)
Example queue_order :
  let q1 := (priorityq.Write priorityq.New priorityq.Low priorityq.ItemOther).2 in
  let q2 := (priorityq.Write q1 priorityq.High (priorityq.ItemValidation sample_record)).2 in
  priorityq.Read q2
  = priorityq.ReadItem (priorityq.ItemValidation sample_record)
      {| priorityq.pending := [(priorityq.Low, priorityq.ItemOther)];
         priorityq.closed := false |}.
Proof. reflexivity. Qed.

(** * Further properties

    More of what the code does: the registry and its
    readers, the counters and the frame of message intake, the invariants of
    the propagation pipeline, the membership loop, and the wait group of a
    fan-out. *)

(** ** The registry, call by call *)

Lemma apply_op_world (o : peer_op) (w : World) :
  (apply_op o w).2
  = {| w_prot := set_peers (op_peers (net (w_prot w)) o) (w_prot w);
       w_trace := op_log o :: w_trace w |}.
Proof. by destruct o. Qed.

Lemma apply_ops_cons (o : peer_op) (ops : list peer_op) (w : World) :
  apply_ops (o :: ops) w = apply_ops ops (apply_op o w).2.
Proof. done. Qed.

Lemma apply_ops_app (l1 l2 : list peer_op) (w : World) :
  apply_ops (l1 ++ l2) w = apply_ops l2 (apply_ops l1 w).
Proof. unfold apply_ops. by rewrite foldl_app. Qed.

Lemma apply_ops_world (ops : list peer_op) (w : World) :
  apply_ops ops w
  = {| w_prot := set_peers (λ ps, foldl (λ ps o, op_peers (net (w_prot w)) o ps) ps ops)
                   (w_prot w);
       w_trace := rev (op_log <$> ops) ++ w_trace w |}.
Proof.
  revert w. induction ops as [|o ops IH]; intros w.
  - by destruct w as [[] ?].
  - rewrite apply_ops_cons, IH, apply_op_world. cbn [w_prot w_trace fmap list_fmap rev].
    rewrite <- app_assoc. by destruct w as [[] ?].
Qed.

Lemma apply_ops_peers (ops : list peer_op) (w : World) :
  peers (w_prot (apply_ops ops w))
  = foldl (λ ps o, op_peers (net (w_prot w)) o ps) (peers (w_prot w)) ops.
Proof. by rewrite apply_ops_world. Qed.

Lemma fold_op_peers_lookup (n : baseNetwork) (ops : list peer_op)
  (ps : gmap p2pcrypto.PublicKey peer) (key : p2pcrypto.PublicKey) :
  foldl (λ ps o, op_peers n o ps) ps ops !! key
  = match last_op ops key with
    | Some true => Some (newPeer n key)
    | Some false => None
    | None => ps !! key
    end.
Proof.
  revert ps. induction ops as [|o ops IH]; intros ps; [done|].
  cbn [foldl last_op]. rewrite IH.
  destruct (last_op ops key) as [[]|]; [done..|].
  destruct o as [p|p]; cbn [op_key op_adds op_peers]; destruct (decide (p = key)) as [->|Hne].
  - by rewrite lookup_insert_eq.
  - by rewrite lookup_insert_ne.
  - by rewrite lookup_delete_eq.
  - by rewrite lookup_delete_ne.
Qed.

(** X1.  After any sequence of [addPeer] and [removePeer] calls, [hasPeer key]
    tells what the last call on [key] did: true after an [addPeer], false
    after a [removePeer], and what it told before when no call names [key].
    [hasPeer] changes nothing, and the entry of a key added last is the
    peer made by [newPeer] for that key. *)
Theorem hasPeer_after_calls (w : World) (ops : list peer_op) (key : p2pcrypto.PublicKey) :
  let w' := apply_ops ops w in
  hasPeer key w'
  = (match last_op ops key with
     | Some b => b
     | None => (hasPeer key w).1
     end, w') ∧
  peers (w_prot w') !! key
  = match last_op ops key with
    | Some true => Some (newPeer (net (w_prot w)) key)
    | Some false => None
    | None => peers (w_prot w) !! key
    end.
Proof.
  intros w'. assert (Hl := fold_op_peers_lookup (net (w_prot w)) ops (peers (w_prot w)) key).
  rewrite <- apply_ops_peers in Hl. fold w' in Hl. split; [|done].
  unfold hasPeer, gets. f_equal. rewrite Hl.
  destruct (last_op ops key) as [[]|]; [| |done].
  - apply bool_decide_eq_true. by eexists.
  - apply bool_decide_eq_false. by intros [? ?].
Qed.

Lemma peersCount_size (w : World) :
  peersCount w = (Z.of_nat (size (peers (w_prot w))), w).
Proof. done. Qed.

Lemma snapshot_length (ps : gmap p2pcrypto.PublicKey peer) (order : list p2pcrypto.PublicKey) :
  is_snapshot ps order → length order = size ps.
Proof.
  unfold is_snapshot. intros ->. by rewrite length_fmap, length_map_to_list.
Qed.

Lemma fold_op_peers_size (n : baseNetwork) (ops : list peer_op)
  (ps : gmap p2pcrypto.PublicKey peer) :
  size (foldl (λ ps o, op_peers n o ps) ps ops) ≤ size ps + length (filter op_adds ops).
Proof.
  revert ps. induction ops as [|o ops IH]; intros ps; [cbn; lia|].
  cbn [foldl]. etrans; [apply IH|]. destruct o as [p|p]; cbn [op_peers].
  - rewrite filter_cons_True by done. rewrite map_size_insert. cbn [length].
    destruct (ps !! p); simpl; lia.
  - rewrite filter_cons_False by (by intros ?). rewrite map_size_delete.
    destruct (ps !! p); simpl; lia.
Qed.

(** X2.  [peersCount] is the number of keys in the registry: the length of any
    listing of the keys that [propagateMessage] may take; it goes up by one
    when an absent key is added and down by one when a present key is
    removed; it is zero exactly when [hasPeer] is false for every key; and
    it is never negative nor more than the count before plus the number of
    [addPeer] calls made since. *)
Theorem peersCount_counts_keys (w : World) (ops : list peer_op) (key : p2pcrypto.PublicKey) :
  let w' := apply_ops ops w in
  (∀ order, is_snapshot (peers (w_prot w')) order →
            peersCount w' = (Z.of_nat (length order), w')) ∧
  (peers (w_prot w') !! key = None →
   (peersCount (addPeer key w').2).1 = ((peersCount w').1 + 1)%Z) ∧
  (is_Some (peers (w_prot w') !! key) →
   (peersCount (removePeer key w').2).1 = ((peersCount w').1 - 1)%Z) ∧
  ((peersCount w').1 = 0%Z ↔ ∀ k, (hasPeer k w').1 = false) ∧
  (0 ≤ (peersCount w').1 ≤ (peersCount w).1 + Z.of_nat (length (filter op_adds ops)))%Z.
Proof.
  intros w'. rewrite !peersCount_size. cbn [fst].
  split; [|split; [|split; [|split; [split|split]]]].
  - intros order Hsnap. by rewrite (snapshot_length _ _ Hsnap).
  - intros Hnone. rewrite addPeer_peers, map_size_insert_None by done. lia.
  - intros Hsome. rewrite removePeer_peers, map_size_delete_Some by done.
    assert (size (peers (w_prot w')) ≠ 0); [|lia].
    apply map_size_non_empty_iff. intros E. rewrite E, lookup_empty in Hsome.
    by destruct Hsome.
  - intros Hz k. unfold hasPeer, gets. cbn [fst]. apply bool_decide_eq_false.
    assert (peers (w_prot w') = ∅) as -> by (apply map_size_empty_iff; lia).
    rewrite lookup_empty. by intros [? ?].
  - intros Hno. assert (peers (w_prot w') = ∅) as ->; [|by rewrite map_size_empty].
    apply map_empty. intros k. specialize (Hno k). unfold hasPeer, gets in Hno.
    cbn [fst] in Hno. apply bool_decide_eq_false in Hno.
    destruct (peers (w_prot w') !! k) eqn:E; [|done]. destruct Hno. by eexists.
  - lia.
  - subst w'. rewrite apply_ops_peers.
    pose proof (fold_op_peers_size (net (w_prot w)) ops (peers (w_prot w))). lia.
Qed.

Lemma last_op_elem (ops : list peer_op) (key : p2pcrypto.PublicKey) (b : bool) :
  last_op ops key = Some b → ∃ o, o ∈ ops ∧ op_key o = key ∧ op_adds o = b.
Proof.
  induction ops as [|o ops IH]; [done|]. cbn [last_op].
  destruct (last_op ops key) as [b'|].
  - intros [= ->]. destruct (IH eq_refl) as (o' & Hin & Hk & Hb).
    exists o'. split; [by right|done].
  - destruct (decide (op_key o = key)) as [Hk|]; [|done].
    intros [= <-]. exists o. split; [by left|done].
Qed.

Lemma last_op_unique (ops : list peer_op) (o : peer_op) :
  NoDup (op_key <$> ops) → o ∈ ops → last_op ops (op_key o) = Some (op_adds o).
Proof.
  induction ops as [|o' ops IH]; intros Hnd Hin; [by apply elem_of_nil in Hin|].
  rewrite fmap_cons in Hnd. apply NoDup_cons in Hnd as [Hnotin Hnd].
  cbn [last_op]. apply elem_of_cons in Hin as [->|Hin].
  - destruct (last_op ops (op_key o')) as [b'|] eqn:E.
    + exfalso. destruct (last_op_elem _ _ _ E) as (o'' & Hin & Hk & _).
      apply Hnotin. rewrite <- Hk. by apply list_elem_of_fmap_2.
    + by rewrite decide_True.
  - by rewrite (IH Hnd Hin).
Qed.

Lemma last_op_perm (ops1 ops2 : list peer_op) (key : p2pcrypto.PublicKey) :
  ops1 ≡ₚ ops2 → NoDup (op_key <$> ops1) → last_op ops1 key = last_op ops2 key.
Proof.
  intros Hp Hnd1. assert (Hnd2 : NoDup (op_key <$> ops2)) by by rewrite <- Hp.
  destruct (last_op ops1 key) as [b|] eqn:E1.
  - destruct (last_op_elem _ _ _ E1) as (o & Hin & <- & <-).
    symmetry. apply last_op_unique; [done|]. by rewrite <- Hp.
  - destruct (last_op ops2 key) as [b|] eqn:E2; [|done].
    destruct (last_op_elem _ _ _ E2) as (o & Hin & <- & <-).
    rewrite last_op_unique in E1; [done..|]. by rewrite Hp.
Qed.

(** X3.  Registry calls on pairwise distinct keys commute: two sequences of
    [addPeer] and [removePeer] calls that are permutations of one another
    and name no key twice leave the same controller, and the same log lines
    up to their order. *)
Theorem registry_calls_commute (w : World) (ops1 ops2 : list peer_op) :
  ops1 ≡ₚ ops2 →
  NoDup (op_key <$> ops1) →
  w_prot (apply_ops ops1 w) = w_prot (apply_ops ops2 w) ∧
  w_trace (apply_ops ops1 w) ≡ₚ w_trace (apply_ops ops2 w).
Proof.
  intros Hp Hnd. rewrite !apply_ops_world. cbn [w_prot w_trace]. split.
  - unfold set_peers. f_equal. apply map_eq. intros key.
    rewrite !fold_op_peers_lookup. by rewrite (last_op_perm ops1 ops2 key Hp Hnd).
  - apply Permutation_app_tail. rewrite <- !Permutation_rev. by apply fmap_Permutation.
Qed.

(** Three calls on three keys, in two orders. *)
Lemma registry_calls_commute_witness :
  let ops1 := [OpAdd keyA; OpRemove keyB; OpAdd keyC] in
  let ops2 := [OpAdd keyC; OpAdd keyA; OpRemove keyB] in
  w_prot (apply_ops ops1 sample_world) = w_prot (apply_ops ops2 sample_world).
Proof.
  intros ops1 ops2.
  refine (proj1 (registry_calls_commute sample_world ops1 ops2 _ _)).
  - subst ops1 ops2. by rewrite (Permutation_cons_append [_; _] (OpAdd keyC)).
  - subst ops1. cbn. repeat constructor; set_solver.
Defined.

(** On one key the order matters: a key added and then removed is absent,
    a key removed and then added is present. *)
Lemma registry_calls_order_matters (w : World) (key : p2pcrypto.PublicKey) :
  (hasPeer key (apply_ops [OpAdd key; OpRemove key] w)).1 = false ∧
  (hasPeer key (apply_ops [OpRemove key; OpAdd key] w)).1 = true.
Proof.
  unfold hasPeer, gets. cbn [fst]. rewrite !apply_ops_peers. cbn [foldl op_peers]. split.
  - apply bool_decide_eq_false. rewrite lookup_delete_eq. by intros [? ?].
  - apply bool_decide_eq_true. rewrite lookup_insert_eq. by eexists.
Qed.

(** X4.  [addPeer] and [removePeer] touch the registry and nothing else: after
    any sequence of them the network, the local key, the shutdown signal,
    the cache, the channel, the queue and the priorities are what they
    were, and the trace has grown by one Info line per call, in call order,
    naming the key. *)
Theorem registry_calls_frame (w : World) (ops : list peer_op) :
  let w' := apply_ops ops w in
  net (w_prot w') = net (w_prot w) ∧
  localNodePubkey (w_prot w') = localNodePubkey (w_prot w) ∧
  shutdown (w_prot w') = shutdown (w_prot w) ∧
  oldMessageQ (w_prot w') = oldMessageQ (w_prot w) ∧
  propagateQ (w_prot w') = propagateQ (w_prot w) ∧
  pq (w_prot w') = pq (w_prot w) ∧
  priorities (w_prot w') = priorities (w_prot w) ∧
  w_trace w' = rev (op_log <$> ops) ++ w_trace w.
Proof. intros w'. subst w'. by rewrite apply_ops_world. Qed.

(** ** Intake, submission by submission *)

Lemma metric_added_app (m : metrics.Metric) (label : string) (t1 t2 : Trace) :
  metric_added m label (t1 ++ t2) = (metric_added m label t1 + metric_added m label t2)%Z.
Proof.
  induction t1 as [|e t1 IH]; [done|]. destruct e; cbn [app metric_added]; rewrite ?IH; lia.
Qed.

Lemma log_levels_app (t1 t2 : Trace) : log_levels (t1 ++ t2) = log_levels t1 ++ log_levels t2.
Proof. induction t1 as [|e t1 IH]; [done|]. destruct e; cbn; by rewrite ?IH. Qed.

(** Intake sends nothing, sets no metric and logs at debug level only. *)
Lemma intake_events_quiet (new : Trace) :
  Forall intake_event new →
  sent_to new = [] ∧ failed_to new = [] ∧ warned_to new = [] ∧
  Forall (λ lvl, lvl = log.Debug) (log_levels new).
Proof.
  induction 1 as [|e new He _ (IH1 & IH2 & IH3 & IH4)]; [done|].
  destruct e as [[] ? ?| | | |]; try done; cbn; auto.
Qed.

Section IntakeExtras.
Context `{types.Digest12}.

Lemma submits_cons (s : submission) (l : list submission) (w : World) :
  submits (s :: l) w = submits l (submit s w).2.
Proof. done. Qed.

(** What one submission adds to the trace. *)
Lemma submit_events (s : submission) (w : World) :
  ∃ new,
    w_trace (submit s w).2 = new ++ w_trace w ∧
    Forall intake_event new ∧
    (∀ label,
       (metric_added metrics.NewGossipMessages label new
        + metric_added metrics.OldGossipMessages label new)%Z
       = if decide (sub_protocol s = label) then 1%Z else 0%Z) ∧
    (∀ label, metric_added metrics.PropagationQueueLen label new = 0%Z) ∧
    if types.dc_get (oldMessageQ (w_prot w)) (sub_hash s)
    then handoffs new = [] ∧ (submit s w).1 = None ∧
         ∀ label, metric_added metrics.NewGossipMessages label new = 0%Z
    else handoffs new = [sub_handoff (localNodePubkey (w_prot w)) s] ∧
         (∀ label, metric_added metrics.OldGossipMessages label new = 0%Z) ∧
         ∃ sender protocol msg tr,
           sub_handoff (localNodePubkey (w_prot w)) s = (sender, protocol, msg) ∧
           head new = Some (EvProcessGossipProtocolMessage sender protocol msg (submit s w).1) ∧
           (submit s w).1
           = ProcessGossipProtocolMessage (net (w_prot w)) (tr ++ w_trace w) sender protocol msg.
Proof.
  destruct (types.dc_get (oldMessageQ (w_prot w)) (sub_hash s)) eqn:E.
  - destruct (submit_old s w E) as (sender & ->). cbn [snd fst w_trace].
    eexists (_ :: _ :: sub_prelude s). split; [done|].
    split; [destruct s; repeat constructor|].
    split; [|split; [|split; [|split]]].
    + intros label. destruct s; cbn; repeat case_decide; naive_solver.
    + intros label. destruct s; cbn; repeat case_decide; naive_solver.
    + by destruct s.
    + done.
    + intros label. destruct s; cbn; repeat case_decide; naive_solver.
  - destruct (submit_new s w E) as (sender & tr & -> & -> & ->). cbn [snd fst w_trace].
    eexists (_ :: _ :: _ :: sub_prelude s). split; [done|].
    split; [destruct s; repeat constructor|].
    split; [|split; [|split; [|split]]].
    + intros label. destruct s; cbn; repeat case_decide; naive_solver.
    + intros label. destruct s; cbn; repeat case_decide; naive_solver.
    + by destruct s.
    + intros label. destruct s; cbn; repeat case_decide; naive_solver.
    + pose proof (sub_handoff_protocol (localNodePubkey (w_prot w)) s) as Ep.
      destruct (sub_handoff (localNodePubkey (w_prot w)) s) as [[sender protocol] msg] eqn:Eh.
      cbn in Ep. subst protocol.
      exists sender, (sub_protocol s), msg. eexists (_ :: _ :: sub_prelude s).
      split; [done|]. split; [done|]. done.
Qed.

Lemma submit_prot_frame (s : submission) (w : World) :
  w_prot (submit s w).2
  = set_oldMessageQ (oldMessageQ (w_prot (submit s w).2)) (w_prot w).
Proof. rewrite submit_prot. by destruct w as [[] ?]. Qed.

Lemma submits_prot (l : list submission) (w : World) :
  w_prot (submits l w)
  = set_oldMessageQ (types.dc_run (oldMessageQ (w_prot w)) (sub_hash <$> l)) (w_prot w).
Proof.
  revert w. induction l as [|s l IH]; intros w; [by destruct w as [[] ?]|].
  rewrite submits_cons, IH, submit_prot. by destruct w as [[] ?].
Qed.

(** What a sequence of submissions adds to the trace. *)
Lemma submits_events (l : list submission) (w : World) :
  ∃ new,
    w_trace (submits l w) = new ++ w_trace w ∧
    Forall intake_event new ∧
    (∀ label,
       (metric_added metrics.NewGossipMessages label new
        + metric_added metrics.OldGossipMessages label new)%Z
       = Z.of_nat (length (on_protocol label l))) ∧
    (∀ label,
       Z.of_nat (length (filter (λ a, a.1.2 = label) (handoffs new)))
       = metric_added metrics.NewGossipMessages label new) ∧
    handoffs new `sublist_of` rev (sub_handoff (localNodePubkey (w_prot w)) <$> l).
Proof.
  revert w. induction l as [|s l IH]; intros w.
  - exists []. split; [done|]. split; [constructor|]. done.
  - rewrite submits_cons.
    destruct (IH (submit s w).2) as (new2 & E2 & Hl2 & Hm2 & Hh2 & Hsub2).
    destruct (submit_events s w) as (new1 & E1 & Hl1 & Hm1 & _ & Hcase).
    rewrite submit_prot in Hsub2. cbn [localNodePubkey set_oldMessageQ] in Hsub2.
    exists (new2 ++ new1). rewrite E2, E1, app_assoc. split; [done|].
    rewrite Forall_app. split; [done|].
    split; [|split].
    + intros label. rewrite !metric_added_app. specialize (Hm1 label).
      specialize (Hm2 label). unfold on_protocol in *. rewrite filter_cons.
      destruct (decide (sub_protocol s = label)); cbn [length]; lia.
    + intros label. rewrite handoffs_app, filter_app, length_app, metric_added_app.
      rewrite Nat2Z.inj_add, Hh2. f_equal.
      destruct (types.dc_get (oldMessageQ (w_prot w)) (sub_hash s)).
      * destruct Hcase as (-> & _ & Hz). by rewrite Hz.
      * destruct Hcase as (-> & Hz & _). specialize (Hm1 label). rewrite Hz in Hm1.
        rewrite filter_cons, sub_handoff_protocol, filter_nil.
        destruct (decide (sub_protocol s = label)); cbn [length]; lia.
    + rewrite handoffs_app, fmap_cons. cbn [rev]. apply sublist_app; [done|].
      destruct (types.dc_get (oldMessageQ (w_prot w)) (sub_hash s)).
      * destruct Hcase as (-> & _). apply sublist_nil_l.
      * by destruct Hcase as (-> & _).
Qed.

(** X5.  Every submission is counted once.  Over any sequence of [Broadcast]
    and [Relay] calls and for every sub-protocol label: the
    [NewGossipMessages] and [OldGossipMessages] counters under that label
    advance together by the number of submissions on that sub-protocol; the
    [NewGossipMessages] counter advances by the number of hand-offs to the
    validator on that sub-protocol; and the hand-offs are submitted
    messages with their own arguments, in submission order, each submission
    handed off at most once. *)
Theorem intake_counts_every_submission (w : World) (l : list submission) (label : string) :
  let new := events_since w (submits l w) in
  (metric_added metrics.NewGossipMessages label new
   + metric_added metrics.OldGossipMessages label new)%Z
  = Z.of_nat (length (on_protocol label l)) ∧
  Z.of_nat (length (filter (λ a, a.1.2 = label) (handoffs new)))
  = metric_added metrics.NewGossipMessages label new ∧
  handoffs new `sublist_of` rev (sub_handoff (localNodePubkey (w_prot w)) <$> l).
Proof.
  intros new. destruct (submits_events l w) as (new' & E & _ & Hm & Hh & Hsub).
  subst new. rewrite (events_since_app _ _ _ E). auto.
Qed.

(** X6.  [Broadcast] and [Relay] send nothing to any peer and change nothing
    of the controller but the cache: after any sequence of submissions the
    controller is the one before with the cache advanced by the
    fingerprints submitted, no [SendMessage] call is in the new part of the
    trace, and every new log line is at debug level. *)
Theorem intake_changes_only_the_cache (w : World) (l : list submission) :
  let w' := submits l w in
  let new := events_since w w' in
  w_prot w'
  = set_oldMessageQ (types.dc_run (oldMessageQ (w_prot w)) (sub_hash <$> l)) (w_prot w) ∧
  sent_to new = [] ∧
  Forall (λ lvl, lvl = log.Debug) (log_levels new) ∧
  w_trace w' = new ++ w_trace w.
Proof.
  intros w' new. destruct (submits_events l w) as (new' & E & Hq & _).
  apply intake_events_quiet in Hq as (Hs & _ & _ & Hl).
  subst new w'. rewrite (events_since_app _ _ _ E). split; [apply submits_prot|]. auto.
Qed.

(** X7.  An error returned by [Broadcast] or [Relay] comes from the validator
    and from nowhere else: when a submission returns an error, its
    fingerprint was novel, the call of [ProcessGossipProtocolMessage] is the
    last event and returned that error, this is the one hand-off of the
    submission, and the fingerprint is recorded all the same. *)
Theorem intake_error_comes_from_validator (w : World) (s : submission) (e : error) :
  (submit s w).1 = Some e →
  types.dc_get (oldMessageQ (w_prot w)) (sub_hash s) = false ∧
  types.dc_get (oldMessageQ (w_prot (submit s w).2)) (sub_hash s) = true ∧
  handoffs (events_since w (submit s w).2) = [sub_handoff (localNodePubkey (w_prot w)) s] ∧
  ∃ sender protocol msg tr,
    sub_handoff (localNodePubkey (w_prot w)) s = (sender, protocol, msg) ∧
    head (w_trace (submit s w).2)
    = Some (EvProcessGossipProtocolMessage sender protocol msg (Some e)) ∧
    ProcessGossipProtocolMessage (net (w_prot w)) (tr ++ w_trace w) sender protocol msg
    = Some e.
Proof.
  intros He. destruct (submit_events s w) as (new & E & _ & _ & _ & Hcase).
  rewrite (events_since_app _ _ _ E).
  destruct (types.dc_get (oldMessageQ (w_prot w)) (sub_hash s)) eqn:Eg.
  - destruct Hcase as (_ & Hn & _). congruence.
  - destruct Hcase as (Hh & _ & sender & protocol & msg & tr & Ea & Ehd & Er).
    split; [done|]. split; [rewrite submit_prot; apply GetOrInsert_known|].
    split; [done|]. exists sender, protocol, msg, tr. split; [done|].
    rewrite He in Ehd, Er. split; [|done].
    rewrite E. destruct new; [done|]. done.
Qed.

Lemma Close_ok (w w1 : World) :
  Close w = Ok w1 →
  shutdown (w_prot w) = ChanOpen ∧
  w1 = {| w_prot := set_shutdown ChanClosed (w_prot w); w_trace := w_trace w |}.
Proof.
  unfold Close, close_chan. destruct (shutdown (w_prot w)); [|done].
  intros [= <-]. done.
Qed.

Lemma submit_after_Close (s : submission) (w w1 : World) :
  Close w = Ok w1 →
  (submit s w1).1 = (submit s w).1 ∧ Close (submit s w).2 = Ok (submit s w1).2.
Proof.
  intros Hc. apply Close_ok in Hc as [Ho ->].
  destruct w as [prot tr]. cbn [w_prot w_trace] in *.
  unfold Close, close_chan.
  destruct s; unfold submit, Broadcast, Relay, processMessage, markMessageAsOld;
    unfold mbind, M_bind, bind, gets, modify, emit, Log, ret,
      net_ProcessGossipProtocolMessage; cbn;
    destruct (types.GetOrInsert (oldMessageQ prot) _) as [[] q]; cbn; rewrite Ho; done.
Qed.

(** X8.  Intake does not look at the shutdown signal: after [Close], any
    sequence of submissions returns the same results, logs the same events
    and leaves the same cache as without the [Close]; closing before or
    after the submissions gives the same controller. *)
Theorem intake_ignores_shutdown (w w1 : World) (l : list submission) :
  Close w = Ok w1 →
  Close (submits l w) = Ok (submits l w1) ∧
  (∀ s, (submit s (submits l w1)).1 = (submit s (submits l w)).1) ∧
  w_trace (submits l w1) = w_trace (submits l w) ∧
  oldMessageQ (w_prot (submits l w1)) = oldMessageQ (w_prot (submits l w)).
Proof.
  intros Hc. assert (Hl : Close (submits l w) = Ok (submits l w1)).
  { revert w w1 Hc. induction l as [|s l IH]; intros w w1 Hc; [done|].
    rewrite !submits_cons. apply IH. by apply submit_after_Close. }
  split; [done|]. split; [intros s; by apply submit_after_Close|].
  apply Close_ok in Hl as [_ ->]. done.
Qed.

End IntakeExtras.

(** ** The pipeline, step by step *)

Section Effects.
Context `{types.Digest12}.

Lemma step_effects (a : Action) (s s' : Sys) :
  step a s = Next s' → step_effect s a s'.
Proof.
  intros Hstep.
  destruct a as [| |payload nextProt|sender protocol msg|protoName priority|p|p|m| | | |
                |order|t];
    simpl in Hstep; rewrite ?exec_next in Hstep.
  - destruct (feeder s) eqn:Hf; simplify_eq. by apply eff_start.
  - unfold Close in Hstep. destruct (shutdown (w_prot (sys_world s))) eqn:Hs;
      simpl in Hstep; simplify_eq. by apply eff_close.
  - simplify_eq. apply eff_broadcast.
  - simplify_eq. apply eff_relay.
  - simplify_eq. apply eff_set_priority.
  - simplify_eq. apply (eff_peer s (OpAdd p)).
  - simplify_eq. apply (eff_peer s (OpRemove p)).
  - case_decide; [|done]. rewrite ?exec_next in Hstep. simplify_eq. by apply eff_validated.
  - destruct (feeder s) eqn:Hf; simplify_eq. by apply eff_feeder_spawn.
  - destruct (feeder s) eqn:Hf; try done.
    destruct (propagateQ (w_prot (sys_world s))) as [|m rest] eqn:Hq; [done|].
    rewrite ?exec_next in Hstep. simplify_eq.
    pose proof (eff_feeder_message s m rest _ Hf Hq eq_refl) as E.
    unfold with_world in *. cbn [fst snd stay] in *.
    replace ((modify (set_propagateQ rest);; propagationEventLoop_message m) (sys_world s)).2
      with {| w_prot :=
                set_pq (priorityq.Write (pq (w_prot (sys_world s)))
                          (default priorityq.Low
                             (priorities (w_prot (sys_world s)) !! service.Protocol m))
                          (priorityq.ItemValidation m)).2
                  (set_propagateQ rest (w_prot (sys_world s)));
              w_trace := EvMetricSet metrics.PropagationQueueLen (Z.of_nat (length rest))
                         :: ((if priorityq.closed (pq (w_prot (sys_world s)))
                              then [EvLog log.Error "fatal: could not write to priority queue"
                                      [log.Err priorityq.ErrQueueClosed;
                                       log.String "protocol" (service.Protocol m)]]
                              else [])
                              ++ (match priorities (w_prot (sys_world s)) !! service.Protocol m with
                                  | Some _ => []
                                  | None => [EvLog log.Warning "note: no priority found for protocol"
                                               [log.String "protoName" (service.Protocol m)]]
                                  end)) ++ w_trace (sys_world s) |}; [exact E|].
    unfold propagationEventLoop_message, getPriority, mbind, M_bind, bind, gets, modify,
      emit, Log, ret. simpl.
    destruct (priorities (w_prot (sys_world s)) !! service.Protocol m); simpl;
      unfold priorityq.Write; simpl; by destruct (priorityq.closed (pq (w_prot (sys_world s)))).
  - destruct (feeder s) eqn:Hf; try done.
    destruct (shutdown (w_prot (sys_world s))) eqn:Hs; [done|].
    rewrite ?exec_next in Hstep. simplify_eq. by apply eff_feeder_shutdown.
  - destruct (consumer s) eqn:Hc; try done.
    destruct (priorityq.Read (pq (w_prot (sys_world s)))) as [[m|] q'|err|] eqn:Hr;
      simpl in Hstep; simplify_eq.
    + by apply (eff_read_record s m q').
    + pose proof (eff_read_other s q' Hc Hr) as E. unfold with_world in E.
      by rewrite Hc in E.
    + by apply eff_read_closed.
  - destruct (consumer s) eqn:Hc; try done. case_decide; simplify_eq.
    by eapply eff_snapshot.
  - destruct (consumer s) as [| | |f|] eqn:Hc; try done.
    pose proof (step_cases t f (sys_world s)) as Hcase.
    destruct (propagateMessage_step t f (sys_world s)) as [[f'| |] w']; simplify_eq;
      simpl in *.
    + by apply (eff_fanout_step s t f f' w').
    + by apply (eff_fanout_return s t f w').
Qed.

Lemma sends_app (t1 t2 : Trace) : sends (t1 ++ t2) = sends t1 ++ sends t2.
Proof. induction t1 as [|e t1 IH]; [done|]. destruct e; cbn; by rewrite ?IH. Qed.

Lemma logged_app (lvl : log.Level) (text : string) (t1 t2 : Trace) :
  logged lvl text (t1 ++ t2) = logged lvl text t1 ++ logged lvl text t2.
Proof.
  induction t1 as [|e t1 IH]; [done|]. destruct e; cbn; rewrite ?IH; [|done..].
  by case_decide.
Qed.

Lemma metric_values_app (m : metrics.Metric) (t1 t2 : Trace) :
  metric_values m (t1 ++ t2) = metric_values m t1 ++ metric_values m t2.
Proof.
  induction t1 as [|e t1 IH]; [done|]. destruct e; cbn; rewrite ?IH; try done.
  by case_decide.
Qed.

Lemma sends_sent_to (tr : Trace) : (λ a, a.1.1) <$> sends tr = sent_to tr.
Proof. induction tr as [|e tr IH]; [done|]. destruct e; cbn; by rewrite ?IH. Qed.

Lemma intake_events_no_sends (new : Trace) (lvl : log.Level) (text : string)
  (m : metrics.Metric) :
  Forall intake_event new →
  sends new = [] ∧ metric_values m new = [] ∧ (lvl ≠ log.Debug → logged lvl text new = []).
Proof.
  induction 1 as [|e new He _ (IH1 & IH2 & IH3)]; [done|].
  destruct e as [[] ? ?| | | |]; try done; cbn; split; try done; split; try done.
  intros Hl. rewrite decide_False by naive_solver. auto.
Qed.

(** *** The priority queue hands out what was written *)

Lemma take_Permutation (prio : priorityq.Priority) (l rest : list (priorityq.Priority * priorityq.item))
  (m : priorityq.item) :
  priorityq.take prio l = Some (m, rest) → l ≡ₚ (prio, m) :: rest.
Proof.
  revert rest. induction l as [|[p it] l IH]; intros rest; [done|]. cbn.
  destruct (decide (p = prio)) as [->|Hne].
  - by intros [= -> ->].
  - destruct (priorityq.take prio l) as [[m' r]|]; [|done]. intros [= -> <-].
    rewrite (IH r eq_refl). apply perm_swap.
Qed.

Lemma next_Permutation (l rest : list (priorityq.Priority * priorityq.item))
  (m : priorityq.item) :
  priorityq.next l = Some (m, rest) → ∃ prio, l ≡ₚ (prio, m) :: rest.
Proof.
  unfold priorityq.next.
  destruct (priorityq.take priorityq.High l) as [[m1 r1]|] eqn:E1.
  { intros [= -> ->]. eexists. by eapply take_Permutation. }
  destruct (priorityq.take priorityq.Mid l) as [[m2 r2]|] eqn:E2.
  { intros [= -> ->]. eexists. by eapply take_Permutation. }
  intros E3. eexists. by eapply take_Permutation.
Qed.

Lemma Read_item (q q' : priorityq.Queue) (m : priorityq.item) :
  priorityq.Read q = priorityq.ReadItem m q' →
  priorityq.closed q = false ∧ priorityq.closed q' = false ∧
  ∃ prio, priorityq.pending q ≡ₚ (prio, m) :: priorityq.pending q'.
Proof.
  unfold priorityq.Read. destruct (priorityq.closed q) eqn:Hc; [done|].
  destruct (priorityq.next (priorityq.pending q)) as [[m' rest]|] eqn:E; [|done].
  intros [= -> <-]. split; [done|]. split; [done|]. by apply next_Permutation.
Qed.

(** *** The invariant of the pipeline *)

Lemma pipeline_inv_mono (V V' : list service.MessageValidation) (s : Sys) :
  V ⊆ V' → pipeline_inv V s → pipeline_inv V' s.
Proof.
  intros Hsub (Hlen & Hq & Hpq & Hc & Hs & Hl & Hm).
  split; [done|]. split; [intros m Hin; apply Hsub; auto|].
  split; [intros prio it Hin; destruct (Hpq prio it Hin) as (m & -> & Hm'); eauto|].
  split; [|split; [|done]].
  - destruct (consumer s); try done.
    + destruct Hc as (m & Hin & ?). eauto.
    + destruct Hc as [(m & Hin & ?) ?]. eauto.
  - intros a Hin. destruct (Hs a Hin) as (m & Hm' & ?). eauto.
Qed.

Lemma NewSys_pipeline_inv (base : baseNetwork) (local : p2pcrypto.PublicKey) :
  pipeline_inv [] (NewSys base local).
Proof.
  unfold pipeline_inv. cbn. split; [done|].
  split; [intros m Hin; by apply elem_of_nil in Hin|].
  split; [intros prio it Hin; by apply elem_of_nil in Hin|].
  split; [done|]. split; [intros a Hin; by apply elem_of_nil in Hin|]. done.
Qed.

Lemma step_pipeline_inv (V : list service.MessageValidation) (a : Action) (s s' : Sys) :
  pipeline_inv V s → step a s = Next s' → pipeline_inv (V ++ validated [a]) s'.
Proof.
  intros Hinv Hstep. apply step_effects in Hstep.
  destruct Hstep as [Hf|Hsh|payload nextProt|sender protocol msg|protoName priority|o
                    |m Hcap|Hf|m rest new Hf Hpq' Hnew|Hf Hsh|err Hcs Hr|m q' Hcs Hr
                    |q' Hcs Hr|payload h nextProt exclude order Hcs Hsnap
                    |t f f' w' Hcs Hcase|t f w' Hcs Hcase].
  all: cbn [validated]; rewrite ?app_nil_r.
  all: destruct Hinv as (Hlen & Hq & Hpq & Hc & Hs & Hl & Hm).
  all: unfold pipeline_inv, with_world, with_consumer, with_feeder, log_event;
       cbn [sys_world w_prot w_trace feeder consumer].
  - done.
  - done.
  - destruct (submit_events (ViaBroadcast payload nextProt) (sys_world s))
      as (new & E & Hq' & _).
    destruct (intake_events_no_sends new log.Error
                "could not convert to message validation, ignoring message"
                metrics.PropagationQueueLen Hq') as (Hs' & Hm' & Hl').
    rewrite submit_prot, E, sends_app, logged_app, metric_values_app, Hs', Hm', Hl' by done.
    done.
  - destruct (submit_events (ViaRelay sender protocol msg) (sys_world s))
      as (new & E & Hq' & _).
    destruct (intake_events_no_sends new log.Error
                "could not convert to message validation, ignoring message"
                metrics.PropagationQueueLen Hq') as (Hs' & Hm' & Hl').
    rewrite submit_prot, E, sends_app, logged_app, metric_values_app, Hs', Hm', Hl' by done.
    done.
  - done.
  - rewrite apply_op_world. cbn [w_prot w_trace].
    destruct o; cbn [validated]; rewrite app_nil_r;
      cbn [propagateQ pq set_peers op_log sends logged metric_values];
      rewrite decide_False by naive_solver; done.
  - split; [|split; [|split; [|split; [|split; [|done]]]]].
    + cbn. rewrite length_app. cbn. unfold propagateHandleBufferSize in *. lia.
    + cbn. intros m' Hin. apply elem_of_app in Hin as [Hin|Hin]; apply elem_of_app; auto.
    + cbn. intros prio it Hin. destruct (Hpq prio it Hin) as (m' & -> & ?).
      exists m'. split; [done|]. apply elem_of_app; auto.
    + destruct (consumer s); try done.
      * destruct Hc as (m' & ? & ?). exists m'. split; [apply elem_of_app; auto|done].
      * destruct Hc as [(m' & ? & ?) ?]. split; [|done]. exists m'.
        split; [apply elem_of_app; auto|done].
    + intros a Hin. destruct (Hs a Hin) as (m' & ? & ?). exists m'.
      split; [apply elem_of_app; auto|done].
  - done.
  - subst new. rewrite Hpq' in Hlen, Hq. cbn [length] in Hlen.
    split; [cbn; lia|]. split; [cbn; intros m' Hin; apply Hq; by right|].
    split; [|split; [done|split; [|split]]].
    + cbn. unfold priorityq.Write.
      destruct (priorityq.closed (pq (w_prot (sys_world s)))); cbn; [done|].
      intros prio it Hin. apply elem_of_app in Hin as [Hin|Hin]; [eauto|].
      apply list_elem_of_singleton in Hin as [= -> ->]. exists m. split; [done|].
      apply Hq. by left.
    + intros a. cbn [sends]. rewrite sends_app, sends_app.
      destruct (priorityq.closed _), (priorities _ !! _); cbn; apply Hs.
    + cbn [logged]. rewrite !logged_app.
      destruct (priorityq.closed _), (priorities _ !! _); cbn; apply Hl.
    + cbn [metric_values]. rewrite decide_True by done. rewrite !metric_values_app.
      constructor; [unfold propagateHandleBufferSize in *; lia|].
      destruct (priorityq.closed _), (priorities _ !! _); cbn; apply Hm.
  - cbn [propagateQ pq set_pq priorityq.Close priorityq.pending sends logged metric_values].
    rewrite decide_False by naive_solver. done.
  - cbn [sends logged metric_values]. rewrite decide_False by naive_solver. done.
  - apply Read_item in Hr as (_ & _ & prio & Hp).
    split; [done|]. split; [done|]. split; [|split; [|split; [done|split; [|done]]]].
    + cbn. intros prio' it Hin. apply (Hpq prio' it). rewrite Hp. by right.
    + destruct (Hpq prio (priorityq.ItemValidation m)) as (m' & [= <-] & Hin).
      { rewrite Hp. by left. }
      exists m. done.
    + cbn [logged]. by rewrite decide_False by naive_solver.
  - apply Read_item in Hr as (_ & _ & prio & Hp).
    destruct (Hpq prio priorityq.ItemOther) as (m' & ? & _); [|done].
    rewrite Hp. by left.
  - rewrite Hcs in Hc. split; [done|]. split; [done|]. split; [done|].
    split; [|done]. cbn. split; [done|constructor].
  - rewrite Hcs in Hc. destruct Hc as [Hrec Hex].
    inversion Hcase as [p rest Hr He|p rest Hr He| | |i p Hi err|i p e Hi|i p Hi|];
      subst; cbn [w_prot w_trace].
    + done.
    + split; [done|]. split; [done|]. split; [done|]. split; [|done].
      cbn. split; [done|]. apply Forall_app. split; [done|]. by repeat constructor.
    + assert (Hp : fo_exclude f ≠ p).
      { rewrite Forall_lookup in Hex. apply (Hex i (p, SendCall) Hi). }
      split; [done|]. split; [done|]. split; [done|]. split; [|split; [|done]].
      * cbn. split; [done|]. apply Forall_insert; done.
      * cbn [sends]. intros a Hin. apply elem_of_cons in Hin as [->|Hin]; [|by apply Hs].
        destruct Hrec as (m & Hin & Hm1 & Hm2 & Hm3). exists m. split; [done|].
        unfold carries. cbn. rewrite Hm3. done.
    + split; [done|]. split; [done|]. split; [done|]. split; [|split; [|split; [|done]]].
      * cbn. split; [done|]. apply Forall_insert; [done|].
        rewrite Forall_lookup in Hex. apply (Hex i _ Hi).
      * done.
      * cbn [logged]. by rewrite decide_False by naive_solver.
    + split; [done|]. split; [done|]. split; [done|]. split; [|done].
      cbn. split; [done|]. apply Forall_insert; [done|].
      rewrite Forall_lookup in Hex. apply (Hex i _ Hi).
  - rewrite Hcs in Hc. inversion Hcase; subst. done.
Qed.

Lemma validated_app (l1 l2 : list Action) : validated (l1 ++ l2) = validated l1 ++ validated l2.
Proof. induction l1 as [|a l1 IH]; [done|]. destruct a; cbn; by rewrite ?IH. Qed.

Lemma run_pipeline_inv (sched : list Action) (V : list service.MessageValidation) (s s' : Sys) :
  pipeline_inv V s → run sched s = Next s' → pipeline_inv (V ++ validated sched) s'.
Proof.
  revert V s. induction sched as [|a sched IH]; intros V s Hinv Hrun.
  - cbn in Hrun. simplify_eq. by rewrite app_nil_r.
  - rewrite run_cons_sys in Hrun. destruct (step a s) as [s1| |] eqn:E; [|done..].
    change (a :: sched) with ([a] ++ sched). rewrite validated_app, app_assoc.
    apply (IH _ s1); [|done]. by apply (step_pipeline_inv V a s s1).
Qed.

Lemma failed_to_app (t1 t2 : Trace) : failed_to (t1 ++ t2) = failed_to t1 ++ failed_to t2.
Proof.
  induction t1 as [|e t1 IH]; [done|]. destruct e as [| | |? ? ? []|]; cbn; by rewrite ?IH.
Qed.

(** A step of a thread other than the fan-out's sends nothing and logs no
    failed send. *)
Lemma step_effect_quiet (a : Action) (s s' : Sys) :
  step_effect s a s' →
  (∀ t, a ≠ ActFanout t) →
  ∃ new,
    w_trace (sys_world s') = new ++ w_trace (sys_world s) ∧
    sends new = [] ∧ sent_to new = [] ∧ failed_to new = [] ∧ warned_to new = [].
Proof.
  intros Heff Hnf.
  destruct Heff as [Hf|Hsh|payload nextProt|sender protocol msg|protoName priority|o
                   |m Hcap|Hf|m rest new Hf Hpq' Hnew|Hf Hsh|err Hcs Hr|m q' Hcs Hr
                   |q' Hcs Hr|payload h nextProt exclude order Hcs Hsnap
                   |t f f' w' Hcs Hcase|t f w' Hcs Hcase];
    unfold with_world, with_consumer, with_feeder, log_event;
    cbn [sys_world w_prot w_trace feeder consumer].
  - by exists [].
  - by exists [].
  - destruct (submit_events (ViaBroadcast payload nextProt) (sys_world s))
      as (new & E & Hq' & _).
    destruct (intake_events_no_sends new log.Error "" metrics.PropagationQueueLen Hq')
      as (Hs' & _).
    destruct (intake_events_quiet new Hq') as (? & ? & ? & _). by exists new.
  - destruct (submit_events (ViaRelay sender protocol msg) (sys_world s))
      as (new & E & Hq' & _).
    destruct (intake_events_no_sends new log.Error "" metrics.PropagationQueueLen Hq')
      as (Hs' & _).
    destruct (intake_events_quiet new Hq') as (? & ? & ? & _). by exists new.
  - by exists [].
  - rewrite apply_op_world. exists [op_log o]. by destruct o.
  - by exists [].
  - by exists [].
  - eexists (_ :: new). split; [done|]. subst new.
    destruct (priorityq.closed _), (priorities _ !! _); done.
  - by eexists [_].
  - by eexists [_].
  - by eexists [_].
  - by eexists [_].
  - by exists [].
  - by destruct (Hnf t).
  - by destruct (Hnf t).
Qed.

(** While a call is running, the steps of the other threads leave it as it
    is. *)
Lemma step_keeps_call (a : Action) (s s' : Sys) (f : fanout) :
  sys_wf s →
  consumer s = ConsumerFanout f →
  (∀ t, a ≠ ActFanout t) →
  step a s = Next s' →
  consumer s' = ConsumerFanout f.
Proof.
  intros (_ & Hns & _) Hcons Hnf Hstep.
  destruct (step_flags a s s' Hstep) as (_ & _ & _ & Fpre).
  pose proof (step_consumer a s s' Hstep) as Fcons.
  destruct a; cbn in Fpre, Fcons; try congruence.
  all: try (assert (consumer s = ConsumerNotStarted) by (apply Hns; auto); congruence).
  all: try (destruct Fcons as [? _]; congruence).
  all: try (destruct Fcons as (? & ? & ? & ? & ? & _); congruence).
Qed.

Lemma step_call_inv (exclude : p2pcrypto.PublicKey) (order : list p2pcrypto.PublicKey)
  (a : Action) (s s' : Sys) (f : fanout) (new tr0 : Trace) :
  sys_wf s →
  consumer s = ConsumerFanout f →
  call_inv exclude order (consumer s) new →
  w_trace (sys_world s) = new ++ tr0 →
  step a s = Next s' →
  ∃ new', w_trace (sys_world s') = new' ++ tr0 ∧ call_inv exclude order (consumer s') new'.
Proof.
  intros Hsys Hcons Hinv Htr Hstep0. pose proof (step_effects a s s' Hstep0) as Hstep.
  assert (Hd : (∃ t, a = ActFanout t) ∨ (∀ t, a ≠ ActFanout t))
    by (destruct a; eauto; right; done).
  destruct Hd as [[t ->]|Hnf].
  - rewrite Hcons in Hinv. destruct Hinv as (Hwf & Hex & Hkeys & Hsent & Hfail).
    clear Hstep. cbn in Hstep0. rewrite Hcons in Hstep0.
    pose proof (step_cases t f (sys_world s)) as Hcase.
    destruct (propagateMessage_step t f (sys_world s)) as [[f'| |] w']; [| |done];
      simplify_eq; cbn [fst snd sys_world consumer] in *.
    + assert (Hwf' : fanout_wf f') by by destruct (step_case_wf f f' _ _ t Hwf Hcase).
      unfold fanout_wf in Hwf.
      inversion Hcase as [p rest Hr He|p rest Hr He| | |i p Hi err|i p e Hi|i p Hi|]; subst.
      * exists new. split; [done|]. rewrite Hr, targets_cons in Hkeys.
        rewrite decide_True in Hkeys by done. done.
      * exists new. split; [done|]. rewrite Hr, targets_cons in Hkeys.
        rewrite decide_False in Hkeys by done.
        split; [done|]. split; [done|]. split; [|split].
        -- cbn. by rewrite fmap_app, <- app_assoc.
        -- cbn. rewrite keys_where_app. cbn. by rewrite app_nil_r.
        -- cbn. rewrite keys_where_app. cbn. by rewrite app_nil_r.
      * exists (EvSendMessage p (fo_nextProt f) (fo_payload f) err :: new).
        split; [cbn; by rewrite Htr|].
        split; [done|]. split; [done|]. split; [|split].
        -- cbn. by rewrite (keys_insert _ i p SendCall).
        -- cbn. rewrite Hsent.
           pose proof (keys_where_insert past_call (fo_gos f) i p SendCall
                         (match err with Some e => SendWarn e | None => SendDone end) Hi) as K.
           cbn in K. rewrite K. by destruct err.
        -- cbn. destruct err as [e|].
           ++ pose proof (keys_where_insert is_warn (fo_gos f) i p SendCall (SendWarn e) Hi)
                as K.
              cbn in K. rewrite K, Hfail. by rewrite Permutation_middle.
           ++ by rewrite (keys_where_insert_same is_warn _ i p SendCall).
      * exists (EvLog log.Warning "Failed sending"
                  [log.String "protocol" (fo_nextProt f); log.Hash "hash" (fo_h f);
                   log.Key "to" p; log.Err e] :: new).
        split; [cbn; by rewrite Htr|].
        split; [done|]. split; [done|]. split; [|split].
        -- cbn. by rewrite (keys_insert _ i p (SendWarn e)).
        -- cbn. by rewrite (keys_where_insert_same past_call _ i p (SendWarn e)).
        -- cbn.
           pose proof (keys_where_insert is_warn (fo_gos f) i p (SendWarn e) SendDone Hi) as K.
           cbn in K. rewrite Hfail, <- K. by rewrite Permutation_middle.
      * exists new. split; [done|].
        split; [done|]. split; [done|]. split; [|split].
        -- cbn. by rewrite (keys_insert _ i p SendDone).
        -- cbn. by rewrite (keys_where_insert_same past_call _ i p SendDone).
        -- cbn. by rewrite (keys_where_insert_same is_warn _ i p SendDone).
    + inversion Hcase as [| |Hr Hwg| | | | |]; subst.
      exists new. split; [done|]. unfold fanout_wf in Hwf.
      assert (Hall : Forall (λ g, g.2 = SendExit) (fo_gos f)).
      { apply unfinished_zero. lia. }
      rewrite Hr in Hkeys. unfold targets at 1 in Hkeys.
      rewrite filter_nil, app_nil_r in Hkeys. split.
      * rewrite Hsent, <- Hkeys. rewrite keys_where_all; [done|].
        eapply Forall_impl; [exact Hall|]. intros [q qc] Hq. cbn in *. by subst qc.
      * rewrite Hfail.
        replace (keys_where is_warn (fo_gos f)) with (@nil p2pcrypto.PublicKey);
          [by rewrite app_nil_r|].
        symmetry. apply keys_where_none.
        eapply Forall_impl; [exact Hall|]. intros [q qc] Hq. cbn in *. by subst qc.
  - destruct (step_effect_quiet a s s' Hstep Hnf) as (e & E & _ & Hs & Hf & Hw).
    exists (e ++ new). split; [by rewrite E, Htr, app_assoc|].
    rewrite (step_keeps_call a s s' f Hsys Hcons Hnf Hstep0). rewrite Hcons in Hinv.
    destruct Hinv as (Hwf & Hex & Hkeys & Hsent & Hfail).
    split; [done|]. split; [done|]. split; [done|].
    rewrite sent_to_app, failed_to_app, Hs, Hf. cbn [app]. split; [done|].
    rewrite Hfail. apply Permutation_app_tail.
    clear -Hw. induction e as [|ev e IH]; [done|].
    destruct ev as [[] text fields| | | |]; cbn in *; try by apply IH.
    revert Hw. case_match; try (by apply IH); repeat (case_match; try by apply IH); done.
Qed.

Lemma call_steps_inv (exclude : p2pcrypto.PublicKey) (order : list p2pcrypto.PublicKey)
  (s1 s2 : Sys) :
  sys_wf s1 →
  call_inv exclude order (consumer s1) [] →
  call_steps s1 s2 →
  sys_wf s2 ∧
  ∃ new, w_trace (sys_world s2) = new ++ w_trace (sys_world s1) ∧
         call_inv exclude order (consumer s2) new.
Proof.
  intros Hwf Hinv. induction 1 as [|s s' a f _ IH Hcons Hstep].
  - split; [done|]. by exists [].
  - destruct IH as (Hwf' & new & Htr & Hinv').
    split; [by eapply step_wf|]. by eapply step_call_inv.
Qed.

Lemma call_steps_cons (a : Action) (s s1 s2 : Sys) (f : fanout) :
  consumer s = ConsumerFanout f → step a s = Next s1 → call_steps s1 s2 → call_steps s s2.
Proof.
  intros Hc Hs. induction 1 as [|s' a' s'' f' _ IH Hc' Hs'].
  - eapply call_steps_step; [apply call_steps_refl|done..].
  - eapply call_steps_step; done.
Qed.

Lemma in_call_steps (sched : list Action) (s s' : Sys) :
  in_call sched s = true → run sched s = Next s' → call_steps s s'.
Proof.
  revert s. induction sched as [|a sched IH]; intros s Hin Hrun.
  - cbn in Hrun. simplify_eq. apply call_steps_refl.
  - rewrite run_cons_sys in Hrun. cbn [in_call] in Hin.
    destruct (consumer s) as [| | |f|] eqn:Hc; try done.
    destruct (step a s) as [s1| |] eqn:Hs; try done.
    eapply call_steps_cons; [done..|]. by apply IH.
Qed.

Lemma reachable_wf (base : baseNetwork) (local : p2pcrypto.PublicKey) (sched : list Action)
  (s : Sys) :
  run sched (NewSys base local) = Next s → sys_wf s.
Proof. apply run_wf, NewSys_wf. Qed.

(** X9.  Nothing is sent that the validator has not reported.  In every run
    from a new controller, every [SendMessage] call carries the message and
    the sub-protocol of a record that the validator put on [propagateQ], to
    a peer other than that record's sender; while no record has been
    reported, nothing is sent at all, whatever is submitted through
    [Broadcast] and [Relay]. *)
Theorem only_validated_records_are_sent (base : baseNetwork) (local : p2pcrypto.PublicKey)
  (sched : list Action) (s : Sys) :
  run sched (NewSys base local) = Next s →
  (∀ p protocol payload,
     (p, protocol, payload) ∈ sends (w_trace (sys_world s)) →
     ∃ m, m ∈ validated sched ∧ service.Protocol m = protocol ∧
          service.Message m = payload ∧ service.Sender m ≠ p) ∧
  (validated sched = [] → sent_to (w_trace (sys_world s)) = []).
Proof.
  intros Hrun.
  destruct (run_pipeline_inv sched [] _ s (NewSys_pipeline_inv base local) Hrun)
    as (_ & _ & _ & _ & Hs & _).
  cbn [app] in Hs. split.
  - intros p protocol payload Hin. destruct (Hs _ Hin) as (m & Hm & Hp & Hy & Hx). eauto.
  - intros Hv. rewrite <- sends_sent_to.
    destruct (sends (w_trace (sys_world s))) as [|a l]; [done|].
    destruct (Hs a) as (m & Hm & _); [by left|]. rewrite Hv in Hm.
    by apply elem_of_nil in Hm.
Qed.

(** X10.  The type assertion in [handlePQ] never fails.  In every run from a
    new controller, with the priority queue as the spec describes it, what
    waits in the queue is a [MessageValidation] that the validator has
    reported, and the line "could not convert to message validation" is
    never logged: only [propagationEventLoop] writes to the queue, and it
    writes what it received from [propagateQ]. *)
Theorem consumer_meets_only_records (base : baseNetwork) (local : p2pcrypto.PublicKey)
  (sched : list Action) (s : Sys) :
  run sched (NewSys base local) = Next s →
  (∀ prio it, (prio, it) ∈ priorityq.pending (pq (w_prot (sys_world s))) →
              ∃ m, it = priorityq.ItemValidation m ∧ m ∈ validated sched) ∧
  logged log.Error "could not convert to message validation, ignoring message"
    (w_trace (sys_world s)) = [].
Proof.
  intros Hrun.
  destruct (run_pipeline_inv sched [] _ s (NewSys_pipeline_inv base local) Hrun)
    as (_ & _ & Hpq & _ & _ & Hl & _).
  done.
Qed.

(** X11.  [propagateQ] stays within its capacity.  In every run from a new
    controller the channel holds at most [propagateHandleBufferSize] (5000)
    records, all of them reported by the validator; every value that the
    [PropagationQueueLen] metric is set to lies between 0 and 5000; and the
    validator can put a record on the channel exactly when fewer than 5000
    are waiting. *)
Theorem propagateQ_within_capacity (base : baseNetwork) (local : p2pcrypto.PublicKey)
  (sched : list Action) (s : Sys) :
  run sched (NewSys base local) = Next s →
  (Z.of_nat (length (propagateQ (w_prot (sys_world s)))) ≤ 5000)%Z ∧
  (∀ m, m ∈ propagateQ (w_prot (sys_world s)) → m ∈ validated sched) ∧
  Forall (λ v, (0 ≤ v ≤ 5000)%Z)
    (metric_values metrics.PropagationQueueLen (w_trace (sys_world s))) ∧
  (∀ m, (Z.of_nat (length (propagateQ (w_prot (sys_world s)))) < 5000)%Z ↔
        ∃ s', step (ActValidated m) s = Next s').
Proof.
  intros Hrun.
  destruct (run_pipeline_inv sched [] _ s (NewSys_pipeline_inv base local) Hrun)
    as (Hlen & Hq & _ & _ & _ & _ & Hm).
  split; [done|]. split; [done|]. split; [done|].
  intros m. cbn [step]. unfold propagateHandleBufferSize. split.
  - intros Hlt. rewrite decide_True by done. rewrite exec_next. eauto.
  - intros [s' Hs]. by case_decide.
Qed.

Lemma step_after_exit (a : Action) (s s' : Sys) :
  sys_wf s →
  consumer s = ConsumerExited →
  step a s = Next s' →
  consumer s' = ConsumerExited ∧ feeder s' = FeederExited ∧
  sends (w_trace (sys_world s')) = sends (w_trace (sys_world s)) ∧
  pq (w_prot (sys_world s')) = pq (w_prot (sys_world s)) ∧
  propagateQ (w_prot (sys_world s)) `prefix_of` propagateQ (w_prot (sys_world s')).
Proof.
  intros Hwf Hc Hstep.
  destruct (step_permanent a s s' Hwf Hstep) as (Pf & Pc & _).
  destruct Hwf as (_ & _ & _ & Hex & Hsh). specialize (Hex Hc). specialize (Hsh Hex).
  split; [auto|]. split; [auto|].
  apply step_effects in Hstep.
  destruct Hstep as [Hf|Hsh'|payload nextProt|sender protocol msg|protoName priority|o
                    |m Hcap|Hf|m rest new Hf Hpq' Hnew|Hf Hsh'|err Hcs Hr|m q' Hcs Hr
                    |q' Hcs Hr|payload h nextProt exclude order Hcs Hsnap
                    |t f f' w' Hcs Hcase|t f w' Hcs Hcase];
    try congruence;
    unfold with_world; cbn [sys_world w_prot w_trace].
  - destruct (submit_events (ViaBroadcast payload nextProt) (sys_world s))
      as (new & E & Hq' & _).
    destruct (intake_events_no_sends new log.Error "" metrics.PropagationQueueLen Hq')
      as (Hs' & _).
    by rewrite submit_prot, E, sends_app, Hs'.
  - destruct (submit_events (ViaRelay sender protocol msg) (sys_world s))
      as (new & E & Hq' & _).
    destruct (intake_events_no_sends new log.Error "" metrics.PropagationQueueLen Hq')
      as (Hs' & _).
    by rewrite submit_prot, E, sends_app, Hs'.
  - done.
  - rewrite apply_op_world. by destruct o.
  - split; [done|]. split; [done|]. cbn. by apply prefix_app_r.
Qed.

(** X13.  Once [handlePQ] has returned the pipeline is silent for good.  From
    a reachable state in which [handlePQ] has returned, whatever happens
    next both loops stay returned, no [SendMessage] call is added to the
    trace and the priority queue stays as it is; records that the validator
    still reports only pile up on [propagateQ]. *)
Theorem nothing_sent_after_consumer_returns (base : baseNetwork)
  (local : p2pcrypto.PublicKey) (sched sched' : list Action) (s s' : Sys) :
  run sched (NewSys base local) = Next s →
  consumer s = ConsumerExited →
  run sched' s = Next s' →
  consumer s' = ConsumerExited ∧ feeder s' = FeederExited ∧
  sends (w_trace (sys_world s')) = sends (w_trace (sys_world s)) ∧
  pq (w_prot (sys_world s')) = pq (w_prot (sys_world s)) ∧
  propagateQ (w_prot (sys_world s)) `prefix_of` propagateQ (w_prot (sys_world s')).
Proof.
  intros Hrun Hc. apply reachable_wf in Hrun. clear sched.
  revert s Hrun Hc. induction sched' as [|a sched' IH]; intros s Hwf Hc Hrun'.
  - cbn in Hrun'. simplify_eq. destruct Hwf as (_ & _ & _ & Hex & _). auto.
  - rewrite run_cons_sys in Hrun'. destruct (step a s) as [s1| |] eqn:E; [|done..].
    destruct (step_after_exit a s s1 Hwf Hc E) as (Hc1 & Hf1 & Hs1 & Hpq1 & Hq1).
    destruct (IH s1) as (? & ? & Hs2 & Hpq2 & Hq2); [by eapply step_wf|done..|].
    split; [done|]. split; [done|]. rewrite Hs2, Hpq2. split; [done|]. split; [done|].
    by etrans.
Qed.

(** X14.  The targets of a call of [propagateMessage] are fixed when it copies
    the registry's keys.  Whatever the other threads do while the call is
    running ([addPeer] and [removePeer] among them), the sends made since
    the copy go to keys that were registered at the copy and differ from
    the excluded key, at most once each; and once the call has returned, to
    exactly those keys, with one warning per failed send. *)
Theorem fanout_targets_fixed_by_snapshot (base : baseNetwork) (local : p2pcrypto.PublicKey)
  (sched : list Action) (s0 s1 s2 : Sys) (payload : list byte) (h : types.Hash12)
  (nextProt : string) (exclude : p2pcrypto.PublicKey) (order : list p2pcrypto.PublicKey) :
  run sched (NewSys base local) = Next s0 →
  consumer s0 = ConsumerCall payload h nextProt exclude →
  step (ActConsumerSnapshot order) s0 = Next s1 →
  call_steps s1 s2 →
  let new := events_since (sys_world s1) (sys_world s2) in
  let registered p := is_Some (peers (w_prot (sys_world s0)) !! p) in
  NoDup (sent_to new) ∧
  (∀ p, p ∈ sent_to new → registered p ∧ exclude ≠ p) ∧
  (consumer s2 = ConsumerRead ∨ ∃ f, consumer s2 = ConsumerFanout f) ∧
  (consumer s2 = ConsumerRead →
   (∀ p, p ∈ sent_to new ↔ registered p ∧ exclude ≠ p) ∧
   failed_to new ≡ₚ warned_to new).
Proof.
  intros Hrun Hcall Hsnap Hsteps new registered.
  apply reachable_wf in Hrun.
  assert (Hwf1 : sys_wf s1) by by eapply step_wf.
  pose proof (step_consumer _ _ _ Hsnap) as Fc. cbn in Fc.
  destruct Fc as (payload' & h' & np' & ex' & Hc0 & Hc1).
  rewrite Hcall in Hc0. injection Hc0 as <- <- <- <-.
  assert (Hord : is_snapshot (peers (w_prot (sys_world s0))) order).
  { cbn in Hsnap. rewrite Hcall in Hsnap. by case_decide. }
  assert (Hinit : call_inv exclude order (consumer s1) []).
  { rewrite Hc1. cbn. done. }
  destruct (call_steps_inv exclude order s1 s2 Hwf1 Hinit Hsteps) as (_ & new' & Htr & Hinv).
  subst new. rewrite (events_since_app _ _ _ Htr).
  assert (Hnd : NoDup (targets exclude order)).
  { apply targets_NoDup. by eapply snapshot_NoDup. }
  assert (Htg : ∀ p, p ∈ targets exclude order ↔ registered p ∧ exclude ≠ p).
  { intros p. rewrite targets_spec. unfold registered.
    by rewrite (snapshot_elem _ _ p Hord). }
  destruct (consumer s2) as [| | |f|] eqn:Hc2; try done.
  - destruct Hinv as [Hsent Hfail].
    split; [by rewrite Hsent|]. split; [intros p; rewrite Hsent; apply Htg|].
    split; [by left|]. intros _. split; [intros p; rewrite Hsent; apply Htg|done].
  - destruct Hinv as (Hwf & Hex & Hkeys & Hsent & Hfail).
    assert (Hsub : ∀ p, p ∈ sent_to new' → p ∈ targets exclude order).
    { intros p. rewrite Hsent, <- Hkeys. intros Hin. apply elem_of_app. left.
      by apply (keys_where_subset past_call (fo_gos f)). }
    split; [|split; [intros p Hin; by apply Htg, Hsub|split; [right; eauto|done]]].
    rewrite Hsent. rewrite <- Hkeys in Hnd. apply NoDup_app in Hnd as (Hnd & _ & _).
    clear -Hnd. induction (fo_gos f) as [|[q qc] gos IH]; [constructor|].
    rewrite fmap_cons in Hnd. apply NoDup_cons in Hnd as [Hq Hnd]. cbn.
    destruct (past_call qc); [|by apply IH]. apply NoDup_cons. split; [|by apply IH].
    intros Hin. apply Hq. by apply (keys_where_subset past_call gos).
Qed.

Lemma submit_no_relay_line (sub : submission) (w : World) :
  logged log.Debug "new_gossip_message_relay" (w_trace (submit sub w).2)
  = logged log.Debug "new_gossip_message_relay" (w_trace w).
Proof.
  destruct (types.dc_get (oldMessageQ (w_prot w)) (sub_hash sub)) eqn:E.
  - destruct (submit_old sub w E) as (sender & ->). by destruct sub.
  - destruct (submit_new sub w E) as (sender & tr & -> & -> & ->). by destruct sub.
Qed.

(** The records in the pipeline and the records handed to
    [propagateMessage] add up to the records reported. *)
Lemma step_conserves_records (V : list service.MessageValidation) (a : Action) (s s' : Sys) :
  sys_wf s → pipeline_inv V s → step a s = Next s' →
  length (propagateQ (w_prot (sys_world s'))) + length (priorityq.pending (pq (w_prot (sys_world s'))))
  + length (logged log.Debug "new_gossip_message_relay" (w_trace (sys_world s')))
  = length (validated [a])
    + (length (propagateQ (w_prot (sys_world s)))
       + length (priorityq.pending (pq (w_prot (sys_world s))))
       + length (logged log.Debug "new_gossip_message_relay" (w_trace (sys_world s)))).
Proof.
  intros (_ & _ & Hcl & _) (_ & _ & Hpq & _) Hstep. apply step_effects in Hstep.
  destruct Hstep as [Hf|Hsh|payload nextProt|sender protocol msg|protoName priority|o
                    |m Hcap|Hf|m rest new Hf Hpq' Hnew|Hf Hsh|err Hcs Hr|m q' Hcs Hr
                    |q' Hcs Hr|payload h nextProt exclude order Hcs Hsnap
                    |t f f' w' Hcs Hcase|t f w' Hcs Hcase];
    unfold with_world, with_consumer, with_feeder, log_event;
    cbn [sys_world w_prot w_trace feeder consumer validated length].
  - done.
  - done.
  - by rewrite submit_no_relay_line, submit_prot.
  - by rewrite submit_no_relay_line, submit_prot.
  - done.
  - rewrite apply_op_world. by destruct o.
  - cbn. rewrite length_app. cbn. lia.
  - done.
  - assert (Hopen : priorityq.closed (pq (w_prot (sys_world s))) = false).
    { apply not_true_is_false. intros E. apply Hcl in E. congruence. }
    subst new. rewrite Hpq', Hopen. cbn. unfold priorityq.Write. rewrite Hopen. cbn.
    rewrite length_app. cbn. destruct (priorities _ !! _); cbn;
      rewrite ?decide_False by naive_solver; lia.
  - done.
  - done.
  - apply Read_item in Hr as (_ & _ & prio & Hp). apply Permutation_length in Hp.
    cbn. rewrite decide_True by done. cbn in *. lia.
  - apply Read_item in Hr as (_ & _ & prio & Hp).
    destruct (Hpq prio priorityq.ItemOther) as (m' & ? & _); [|done].
    rewrite Hp. by left.
  - done.
  - rewrite (step_case_prot _ _ _ _ _ Hcase). inversion Hcase; subst; done.
  - rewrite (step_case_prot _ _ _ _ _ Hcase). inversion Hcase; subst; done.
Qed.

(** X12.  No record is lost or duplicated on its way to [propagateMessage].  In
    every run from a new controller, with the priority queue as the spec
    describes it, the number of records that the validator has reported is
    the number still on [propagateQ], plus the number waiting in the
    priority queue, plus the number that [handlePQ] has taken up (one
    "new_gossip_message_relay" line each). *)
Theorem validated_records_are_conserved (base : baseNetwork) (local : p2pcrypto.PublicKey)
  (sched : list Action) (s : Sys) :
  run sched (NewSys base local) = Next s →
  let prot := w_prot (sys_world s) in
  length (validated sched)
  = length (propagateQ prot) + length (priorityq.pending (pq prot))
    + length (logged log.Debug "new_gossip_message_relay" (w_trace (sys_world s))).
Proof.
  intros Hrun prot. subst prot.
  assert (G : ∀ sched V s0 s1,
             sys_wf s0 → pipeline_inv V s0 → run sched s0 = Next s1 →
             length (propagateQ (w_prot (sys_world s1)))
             + length (priorityq.pending (pq (w_prot (sys_world s1))))
             + length (logged log.Debug "new_gossip_message_relay" (w_trace (sys_world s1)))
             = length (validated sched)
               + (length (propagateQ (w_prot (sys_world s0)))
                  + length (priorityq.pending (pq (w_prot (sys_world s0))))
                  + length (logged log.Debug "new_gossip_message_relay"
                              (w_trace (sys_world s0))))).
  { clear. intros sched. induction sched as [|a sched IH]; intros V s0 s1 Hwf Hinv Hrun.
    - cbn in Hrun. by simplify_eq.
    - rewrite run_cons_sys in Hrun. destruct (step a s0) as [s'| |] eqn:E; [|done..].
      rewrite (IH (V ++ validated [a]) s' s1); [|by eapply step_wf
                                                |by apply (step_pipeline_inv V a s0 s')|done].
      rewrite (step_conserves_records V a s0 s' Hwf Hinv E).
      change (a :: sched) with ([a] ++ sched). rewrite validated_app, length_app. lia. }
  rewrite (G sched [] _ s (NewSys_wf base local) (NewSys_pipeline_inv base local) Hrun).
  cbn. lia.
Qed.

End Effects.

(** ** The membership loop *)

Lemma applied_ops_app (t1 t2 : Trace) :
  applied_ops (t1 ++ t2) = applied_ops t1 ++ applied_ops t2.
Proof. apply omap_app. Qed.

Lemma intake_events_no_calls (new : Trace) :
  Forall intake_event new →
  applied_ops new = [] ∧ logged log.Info "Gossip protocol shutdown" new = [].
Proof.
  induction 1 as [|e new He _ [IH1 IH2]]; [done|].
  destruct e as [[] ? ?| | | |]; try done.
Qed.

Section NodeProps.
Context `{types.Digest12}.

(** What a step of the controller and of the propagation loops does to the
    registry: [addPeer] and [removePeer] change it and log the change;
    nothing else touches it or logs such a line. *)
Lemma step_registry (a : Action) (s s' : Sys) :
  step a s = Next s' →
  net (w_prot (sys_world s')) = net (w_prot (sys_world s)) ∧
  (shutdown (w_prot (sys_world s)) = ChanClosed →
   shutdown (w_prot (sys_world s')) = ChanClosed) ∧
  ∃ new,
    w_trace (sys_world s') = new ++ w_trace (sys_world s) ∧
    logged log.Info "Gossip protocol shutdown" new = [] ∧
    applied_ops new
    = match a with
      | ActAddPeer p => [OpAdd p]
      | ActRemovePeer p => [OpRemove p]
      | _ => []
      end ∧
    peers (w_prot (sys_world s'))
    = foldl (λ ps o, op_peers (net (w_prot (sys_world s))) o ps)
        (peers (w_prot (sys_world s))) (applied_ops new).
Proof.
  intros Hstep. apply step_effects in Hstep.
  destruct Hstep as [Hf|Hsh|payload nextProt|sender protocol msg|protoName priority|o
                    |m Hcap|Hf|m rest new Hf Hpq' Hnew|Hf Hsh|err Hcs Hr|m q' Hcs Hr
                    |q' Hcs Hr|payload h nextProt exclude order Hcs Hsnap
                    |t f f' w' Hcs Hcase|t f w' Hcs Hcase];
    unfold with_world, with_consumer, with_feeder, log_event;
    cbn [sys_world w_prot w_trace feeder consumer].
  - split; [done|]. split; [done|]. by exists [].
  - split; [done|]. split; [done|]. by exists [].
  - destruct (submit_events (ViaBroadcast payload nextProt) (sys_world s))
      as (new & E & Hq' & _).
    destruct (intake_events_no_calls new Hq') as [Ha Hl].
    rewrite submit_prot. split; [done|]. split; [done|]. exists new. by rewrite Ha.
  - destruct (submit_events (ViaRelay sender protocol msg) (sys_world s))
      as (new & E & Hq' & _).
    destruct (intake_events_no_calls new Hq') as [Ha Hl].
    rewrite submit_prot. split; [done|]. split; [done|]. exists new. by rewrite Ha.
  - split; [done|]. split; [done|]. by exists [].
  - rewrite apply_op_world. split; [done|]. split; [done|]. exists [op_log o].
    by destruct o.
  - split; [done|]. split; [done|]. by exists [].
  - split; [done|]. split; [done|]. by exists [].
  - split; [done|]. split; [done|]. eexists (_ :: new). split; [done|]. subst new.
    destruct (priorityq.closed _), (priorities _ !! _); done.
  - split; [done|]. split; [done|]. by eexists [_].
  - split; [done|]. split; [done|]. by eexists [_].
  - split; [done|]. split; [done|]. by eexists [_].
  - split; [done|]. split; [done|]. by eexists [_].
  - split; [done|]. split; [done|]. by exists [].
  - rewrite (step_case_prot _ _ _ _ _ Hcase). split; [done|]. split; [done|].
    inversion Hcase; subst; cbn [w_trace w_prot]; first [by exists []|by eexists [_]].
  - rewrite (step_case_prot _ _ _ _ _ Hcase). split; [done|]. split; [done|].
    inversion Hcase; subst. by exists [].
Qed.

Lemma logged_registry_app (n : baseNetwork) (new tr : Trace) :
  logged_registry n (new ++ tr)
  = foldl (λ ps o, op_peers n o ps) (logged_registry n tr) (rev (applied_ops new)).
Proof. unfold logged_registry. by rewrite applied_ops_app, rev_app_distr, foldl_app. Qed.

Lemma step_logged_registry (base : baseNetwork) (a : Action) (s s' : Sys) :
  net (w_prot (sys_world s)) = base →
  peers (w_prot (sys_world s)) = logged_registry base (w_trace (sys_world s)) →
  step a s = Next s' →
  net (w_prot (sys_world s')) = base ∧
  peers (w_prot (sys_world s')) = logged_registry base (w_trace (sys_world s')).
Proof.
  intros Hn Hp Hstep.
  destruct (step_registry a s s' Hstep) as (Hn' & _ & new & E & _ & Ha & Hp').
  split; [congruence|]. rewrite E, logged_registry_app, Hp', Hn, Hp.
  rewrite Ha. by destruct a.
Qed.

Lemma run_logged_registry (base : baseNetwork) (sched : list Action) (s s' : Sys) :
  net (w_prot (sys_world s)) = base →
  peers (w_prot (sys_world s)) = logged_registry base (w_trace (sys_world s)) →
  run sched s = Next s' →
  net (w_prot (sys_world s')) = base ∧
  peers (w_prot (sys_world s')) = logged_registry base (w_trace (sys_world s')).
Proof.
  revert s. induction sched as [|a sched IH]; intros s Hn Hp Hrun.
  - cbn in Hrun. by simplify_eq.
  - rewrite run_cons_sys in Hrun. destruct (step a s) as [s1| |] eqn:E; [|done..].
    destruct (step_logged_registry base a s s1 Hn Hp E) as [Hn1 Hp1]. by apply (IH s1).
Qed.

Lemma logged_registry_lookup (n : baseNetwork) (tr : Trace) (key : p2pcrypto.PublicKey) :
  logged_registry n tr !! key
  = match last_op (rev (applied_ops tr)) key with
    | Some true => Some (newPeer n key)
    | _ => None
    end.
Proof.
  unfold logged_registry. rewrite fold_op_peers_lookup, lookup_empty.
  by destruct (last_op _ _) as [[]|].
Qed.

(** X15.  The registry is what the log says.  In every run from a new
    controller the registry is the one obtained from the empty registry by
    applying the "adding peer" and "deleting peer" lines of the log in
    their order (a call changes the map and logs under one lock);
    [hasPeer] follows the last such line for the key; and the entry of a
    registered key is the peer made by [newPeer] for that key and the
    controller's network. *)
Theorem registry_follows_the_log (base : baseNetwork) (local : p2pcrypto.PublicKey)
  (sched : list Action) (s : Sys) (key : p2pcrypto.PublicKey) :
  run sched (NewSys base local) = Next s →
  let w := sys_world s in
  peers (w_prot w) = logged_registry base (w_trace w) ∧
  (hasPeer key w).1
  = match last_op (rev (applied_ops (w_trace w))) key with
    | Some b => b
    | None => false
    end ∧
  (∀ v, peers (w_prot w) !! key = Some v → v = newPeer base key) ∧
  (peersCount w).1 = Z.of_nat (size (logged_registry base (w_trace w))).
Proof.
  intros Hrun w.
  destruct (run_logged_registry base sched (NewSys base local) s eq_refl eq_refl Hrun)
    as [_ Hp].
  fold w in Hp. split; [done|]. split; [|split].
  2: { intros v. rewrite Hp, logged_registry_lookup.
       destruct (last_op _ _) as [[]|]; congruence. }
  - unfold hasPeer, gets. cbn [fst]. rewrite Hp, logged_registry_lookup.
    destruct (last_op _ _) as [[]|].
    + apply bool_decide_eq_true. by eexists.
    + apply bool_decide_eq_false. by intros [? ?].
    + apply bool_decide_eq_false. by intros [? ?].
  - unfold peersCount, gets. cbn [fst]. by rewrite Hp.
Qed.

Lemma step_op_action (o : peer_op) (s : Sys) :
  step (op_action o) s = Next (with_world (apply_op o (sys_world s)).2 s).
Proof. destruct o; cbn [op_action step]; by rewrite exec_next. Qed.

Lemma node_run_cons (a : NodeAction) (sched : list NodeAction) (n : Node) :
  node_run (a :: sched) n
  = match node_step a n with NodeNext n' => node_run sched n' | o => o end.
Proof. done. Qed.

Lemma node_run_app (s1 s2 : list NodeAction) (n : Node) :
  node_run (s1 ++ s2) n
  = match node_run s1 n with NodeNext n' => node_run s2 n' | o => o end.
Proof.
  revert n. induction s1 as [|a s1 IH]; intros n; [done|]. cbn.
  destruct (node_step a n); [apply IH|done|done].
Qed.

Lemma net_ops_app (l1 l2 : list NodeAction) : net_ops (l1 ++ l2) = net_ops l1 ++ net_ops l2.
Proof. induction l1 as [|a l1 IH]; [done|]. destruct a; cbn; by rewrite ?IH. Qed.

Lemma NewNode_inv (base : baseNetwork) (local : p2pcrypto.PublicKey) :
  node_inv base [] (NewNode base local).
Proof.
  unfold node_inv. cbn. split; [apply NewSys_wf|]. repeat (split; [done|]). done.
Qed.

(** A step of the controller, of the propagation loops or of a registry
    goroutine keeps the invariant. *)
Lemma node_inv_sys (base : baseNetwork) (sent : list peer_op) (n : Node) (a : Action)
  (s' : Sys) (gos' : list peer_op) (m' : member_pc) :
  node_inv base sent n →
  step a (node_sys n) = Next s' →
  node_gos n
  ≡ₚ match a with
     | ActAddPeer p => [OpAdd p]
     | ActRemovePeer p => [OpRemove p]
     | _ => []
     end ++ gos' →
  (m' = MemberExited ↔ member n = MemberExited) →
  (m' = MemberNotStarted → member n = MemberNotStarted) →
  node_inv base sent
    {| node_sys := s'; member := m'; peerConn := peerConn n; peerDisc := peerDisc n;
       node_gos := gos' |}.
Proof.
  intros (Hwf & Hn & Hsent & Hp & Hl & Hex & Hns) Hstep Hgos Hm1 Hm2.
  destruct (step_registry a (node_sys n) s' Hstep) as (Hn' & Hsh & new & E & Hl' & Ha & Hp').
  unfold node_inv. cbn [node_sys member peerConn peerDisc node_gos].
  split; [by eapply step_wf|]. split; [congruence|]. split; [|split; [|split; [|split]]].
  - rewrite Hsent. unfold node_ops. cbn [node_sys member peerConn peerDisc node_gos].
    rewrite E, applied_ops_app, Ha, Hgos.
    apply Permutation_app_head, Permutation_app_head.
    rewrite !app_assoc. apply Permutation_app_tail. apply Permutation_app_comm.
  - rewrite E, logged_registry_app, Hp', Hn, Hp. rewrite Ha. by destruct a.
  - rewrite E, logged_app, Hl', Hl. cbn [app].
    destruct (decide (m' = MemberExited)) as [Hy|Hy], (decide (member n = MemberExited));
      try done; tauto.
  - intros Hme. apply Hm1 in Hme. destruct (Hex Hme) as [?|[?|?]]; auto.
  - auto.
Qed.

Lemma node_step_inv (base : baseNetwork) (sent : list peer_op) (a : NodeAction) (n n' : Node) :
  node_inv base sent n →
  node_step a n = NodeNext n' →
  node_inv base (sent ++ net_ops [a]) n'.
Proof.
  intros Hinv Hstep. destruct a as [|a'|p|p| | | | | |i]; cbn [net_ops]; rewrite ?app_nil_r;
    cbn [node_step] in Hstep.
  - (* Start *)
    destruct (member n) eqn:Hm; try done.
    destruct (step ActStart (node_sys n)) as [s| |] eqn:Hs; try done. simplify_eq.
    apply (node_inv_sys base sent n ActStart s (node_gos n) MemberSelect Hinv Hs); try done.
    split; congruence.
  - (* the controller and the propagation loops *)
    assert (Hk : match a' with ActStart | ActAddPeer _ | ActRemovePeer _ => False | _ => True end)
      by (destruct a'; done).
    assert (Hs : step a' (node_sys n) = Next (node_sys n') ∧ n' = set_node_sys (node_sys n') n).
    { by destruct a'; try done; destruct (step _ (node_sys n)); simplify_eq. }
    destruct Hs as [Hs ->].
    apply (node_inv_sys base sent n a' _ (node_gos n) (member n) Hinv Hs); try done.
    by destruct a'.
  - (* a connect event *)
    unfold net_chan, chan_send in Hstep.
    destruct Hinv as (Hwf & Hn & Hsent & Hp & Hl & Hex & Hns).
    destruct (ch_closed (peerConn n)) eqn:Hc; [by destruct (member n)|].
    assert (Hm : member n ≠ MemberNotStarted) by (by destruct (member n)).
    assert (n' = set_peerConn {| ch_queue := ch_queue (peerConn n) ++ [p];
                                 ch_closed := false |} n) as ->
      by (destruct (member n); by simplify_eq).
    unfold node_inv. cbn. split; [done|]. split; [done|]. split; [|split; [done|split; [done|split]]].
    + rewrite Hsent. unfold node_ops. cbn. rewrite fmap_app. cbn.
      rewrite <- !app_assoc. apply Permutation_app_head. cbn.
      rewrite !app_assoc. symmetry. apply Permutation_cons_append.
    + intros Hme. destruct (Hex Hme) as [?|[?|?]]; auto; congruence.
    + done.
  - (* a disconnect event *)
    unfold net_chan, chan_send in Hstep.
    destruct Hinv as (Hwf & Hn & Hsent & Hp & Hl & Hex & Hns).
    destruct (ch_closed (peerDisc n)) eqn:Hc; [by destruct (member n)|].
    assert (Hm : member n ≠ MemberNotStarted) by (by destruct (member n)).
    assert (n' = set_peerDisc {| ch_queue := ch_queue (peerDisc n) ++ [p];
                                 ch_closed := false |} n) as ->
      by (destruct (member n); by simplify_eq).
    unfold node_inv. cbn. split; [done|]. split; [done|]. split; [|split; [done|split; [done|split]]].
    + rewrite Hsent. unfold node_ops. cbn. rewrite fmap_app. cbn.
      rewrite <- !app_assoc. apply Permutation_app_head, Permutation_app_head. cbn.
      rewrite !app_assoc. symmetry. apply Permutation_cons_append.
    + intros Hme. destruct (Hex Hme) as [?|[?|?]]; auto; congruence.
    + done.
  - (* the connect stream is closed *)
    unfold net_chan, chan_close in Hstep.
    destruct Hinv as (Hwf & Hn & Hsent & Hp & Hl & Hex & Hns).
    destruct (ch_closed (peerConn n)) eqn:Hc; [by destruct (member n)|].
    assert (Hm : member n ≠ MemberNotStarted) by (by destruct (member n)).
    assert (n' = set_peerConn {| ch_queue := ch_queue (peerConn n); ch_closed := true |} n)
      as -> by (destruct (member n); by simplify_eq).
    unfold node_inv. cbn. split; [done|]. split; [done|]. split; [done|].
    split; [done|]. split; [done|]. split; [auto|done].
  - (* the disconnect stream is closed *)
    unfold net_chan, chan_close in Hstep.
    destruct Hinv as (Hwf & Hn & Hsent & Hp & Hl & Hex & Hns).
    destruct (ch_closed (peerDisc n)) eqn:Hc; [by destruct (member n)|].
    assert (Hm : member n ≠ MemberNotStarted) by (by destruct (member n)).
    assert (n' = set_peerDisc {| ch_queue := ch_queue (peerDisc n); ch_closed := true |} n)
      as -> by (destruct (member n); by simplify_eq).
    unfold node_inv. cbn. split; [done|]. split; [done|]. split; [done|].
    split; [done|]. split; [done|]. split; [auto|done].
  - (* the loop receives from the connect stream *)
    destruct Hinv as (Hwf & Hn & Hsent & Hp & Hl & Hex & Hns).
    destruct (member n) eqn:Hm; try done.
    unfold eventLoop_recv, chan_recv in Hstep.
    destruct (ch_queue (peerConn n)) as [|p rest] eqn:Hq.
    + destruct (ch_closed (peerConn n)) eqn:Hc; [|done]. simplify_eq.
      unfold node_inv, eventLoop_return, node_ops. cbn. rewrite Hq. cbn.
      split; [done|]. split; [done|]. split; [by rewrite Hsent; unfold node_ops; rewrite Hq|].
      split; [done|]. rewrite Hl. split; [done|]. split; [auto|done].
    + simplify_eq. unfold node_inv, node_ops. cbn. rewrite Hm.
      split; [done|]. split; [done|]. split; [|done].
      rewrite Hsent. unfold node_ops. rewrite Hq. cbn.
      rewrite (Permutation_app_comm (node_gos n) [OpAdd p]). cbn.
      by rewrite <- !Permutation_middle.
  - (* the loop receives from the disconnect stream *)
    destruct Hinv as (Hwf & Hn & Hsent & Hp & Hl & Hex & Hns).
    destruct (member n) eqn:Hm; try done.
    unfold eventLoop_recv, chan_recv in Hstep.
    destruct (ch_queue (peerDisc n)) as [|p rest] eqn:Hq.
    + destruct (ch_closed (peerDisc n)) eqn:Hc; [|done]. simplify_eq.
      unfold node_inv, eventLoop_return, node_ops. cbn. rewrite Hq. cbn.
      split; [done|]. split; [done|]. split; [by rewrite Hsent; unfold node_ops; rewrite Hq|].
      split; [done|]. rewrite Hl. split; [done|]. split; [auto|done].
    + simplify_eq. unfold node_inv, node_ops. cbn. rewrite Hm.
      split; [done|]. split; [done|]. split; [|done].
      rewrite Hsent. unfold node_ops. rewrite Hq. cbn.
      rewrite (Permutation_app_comm (node_gos n) [OpRemove p]). cbn.
      by rewrite <- !Permutation_middle.
  - (* the loop takes the shutdown branch *)
    destruct Hinv as (Hwf & Hn & Hsent & Hp & Hl & Hex & Hns).
    destruct (member n) eqn:Hm; try done.
    destruct (shutdown (w_prot (sys_world (node_sys n)))) eqn:Hsh; try done. simplify_eq.
    unfold node_inv, eventLoop_return, node_ops. cbn.
    split; [done|]. split; [done|]. split; [done|].
    split; [done|]. rewrite Hl. split; [done|]. split; [auto|done].
  - (* a registry goroutine runs *)
    destruct (node_gos n !! i) as [o|] eqn:Hi; [|done]. simplify_eq.
    pose proof (step_op_action o (node_sys n)) as Hs.
    apply (node_inv_sys base sent n (op_action o) _ (delete i (node_gos n)) (member n) Hinv Hs);
      try done.
    rewrite (delete_Permutation _ _ _ Hi) at 1. by destruct o.
Qed.

Lemma node_run_inv (base : baseNetwork) (sched : list NodeAction) (sent : list peer_op)
  (n n' : Node) :
  node_inv base sent n →
  node_run sched n = NodeNext n' →
  node_inv base (sent ++ net_ops sched) n'.
Proof.
  revert sent n. induction sched as [|a sched IH]; intros sent n Hinv Hrun.
  - cbn in Hrun. simplify_eq. by rewrite app_nil_r.
  - rewrite node_run_cons in Hrun. destruct (node_step a n) as [n1| |] eqn:E; [|done..].
    change (a :: sched) with ([a] ++ sched). rewrite net_ops_app, app_assoc.
    apply (IH _ n1); [|done]. by apply (node_step_inv base sent a n n1).
Qed.

Lemma reachable_node_inv (base : baseNetwork) (local : p2pcrypto.PublicKey)
  (sched : list NodeAction) (n : Node) :
  node_run sched (NewNode base local) = NodeNext n → node_inv base (net_ops sched) n.
Proof.
  intros Hrun. apply (node_run_inv base sched [] _ n (NewNode_inv base local) Hrun).
Qed.

Lemma net_ops_elem (sched : list NodeAction) (o : peer_op) :
  o ∈ net_ops sched
  ↔ match o with OpAdd p => NetConnect p | OpRemove p => NetDisconnect p end ∈ sched.
Proof.
  induction sched as [|a sched IH].
  - cbn. destruct o; split; intros Hin; by apply elem_of_nil in Hin.
  - destruct a; cbn [net_ops]; rewrite ?elem_of_cons, IH; destruct o; naive_solver.
Qed.

(** X16.  [eventLoop] turns each peer event into one registry call.  In every
    run of the node, the events that the network has sent on the two
    streams are, as a multiset, the events still in the streams, the calls
    launched and not yet run, and the calls applied to the registry; and
    before [Start] the network has sent nothing. *)
Theorem peer_events_are_conserved (base : baseNetwork) (local : p2pcrypto.PublicKey)
  (sched : list NodeAction) (n : Node) :
  node_run sched (NewNode base local) = NodeNext n →
  net_ops sched ≡ₚ node_ops n ∧
  (member n = MemberNotStarted → net_ops sched = [] ∧ node_ops n = []).
Proof.
  intros Hrun. destruct (reachable_node_inv base local sched n Hrun)
    as (_ & _ & Hsent & _ & _ & _ & Hns).
  split; [done|]. intros Hm. specialize (Hns Hm). split; [done|].
  rewrite Hns in Hsent. by apply Permutation_nil.
Qed.

(** X17.  The registry holds announced peers only.  In every run of the node,
    a key for which [hasPeer] is true was sent by the network on the
    connect stream; [peersCount] is at most the number of connect events;
    and before [Start] the registry is empty. *)
Theorem registry_holds_announced_peers_only (base : baseNetwork)
  (local : p2pcrypto.PublicKey) (sched : list NodeAction) (n : Node) :
  node_run sched (NewNode base local) = NodeNext n →
  let w := sys_world (node_sys n) in
  (∀ key, (hasPeer key w).1 = true → NetConnect key ∈ sched) ∧
  ((peersCount w).1 ≤ Z.of_nat (length (filter op_adds (net_ops sched))))%Z ∧
  (member n = MemberNotStarted → (peersCount w).1 = 0%Z).
Proof.
  intros Hrun w. destruct (reachable_node_inv base local sched n Hrun)
    as (_ & _ & Hsent & Hp & _ & _ & Hns).
  fold w in Hp.
  assert (Hsub : ∀ o, o ∈ applied_ops (w_trace w) → o ∈ net_ops sched).
  { intros o Hin. rewrite Hsent. unfold node_ops. rewrite !elem_of_app. auto. }
  assert (Hlen : length (filter op_adds (applied_ops (w_trace w)))
                 ≤ length (filter op_adds (net_ops sched))).
  { rewrite Hsent. unfold node_ops. rewrite !filter_app, !length_app. fold w. lia. }
  split; [|split].
  - intros key Hk. unfold hasPeer, gets in Hk. cbn [fst] in Hk.
    apply bool_decide_eq_true in Hk. rewrite Hp, logged_registry_lookup in Hk.
    destruct (last_op (rev (applied_ops (w_trace w))) key) as [[]|] eqn:E;
      try (by destruct Hk).
    destruct (last_op_elem _ _ _ E) as (o & Hin & Hkey & Hadd).
    rewrite <- Permutation_rev in Hin. apply Hsub in Hin. destruct o as [q|q]; [|done]. cbn in Hkey. subst q.
    by apply net_ops_elem in Hin.
  - unfold peersCount, gets. cbn [fst]. rewrite Hp. unfold logged_registry.
    pose proof (fold_op_peers_size base (rev (applied_ops (w_trace w))) ∅) as Hs.
    rewrite map_size_empty in Hs.
    assert (length (filter op_adds (rev (applied_ops (w_trace w))))
            = length (filter op_adds (applied_ops (w_trace w)))) as Hr.
    { apply Permutation_length. apply filter_Permutation. by rewrite <- Permutation_rev. }
    lia.
  - intros Hm. specialize (Hns Hm). rewrite Hns in Hsent.
    apply Permutation_nil in Hsent. unfold node_ops in Hsent.
    apply app_eq_nil in Hsent as [_ Hsent]. apply app_eq_nil in Hsent as [_ Hsent].
    apply app_eq_nil in Hsent as [_ Hsent]. fold w in Hsent.
    unfold peersCount, gets. cbn [fst]. rewrite Hp. unfold logged_registry.
    by rewrite Hsent.
Qed.

(** Once the membership loop has returned it stays returned, receives
    nothing more and launches nothing more. *)
Lemma node_step_after_return (a : NodeAction) (n n' : Node) :
  member n = MemberExited →
  node_step a n = NodeNext n' →
  member n' = MemberExited ∧
  ch_queue (peerConn n) `prefix_of` ch_queue (peerConn n') ∧
  ch_queue (peerDisc n) `prefix_of` ch_queue (peerDisc n') ∧
  length (node_gos n') ≤ length (node_gos n).
Proof.
  intros Hm Hstep. destruct a as [|a'|p|p| | | | | |i]; cbn [node_step] in Hstep;
    rewrite ?Hm in Hstep; try done.
  - assert (n' = set_node_sys (node_sys n') n) as ->
      by (by destruct a'; try done; destruct (step _ (node_sys n)); simplify_eq).
    done.
  - unfold net_chan, chan_send in Hstep. rewrite Hm in Hstep.
    destruct (ch_closed (peerConn n)); simplify_eq. cbn.
    split; [done|]. split; [by apply prefix_app_r|done].
  - unfold net_chan, chan_send in Hstep. rewrite Hm in Hstep.
    destruct (ch_closed (peerDisc n)); simplify_eq. cbn.
    split; [done|]. split; [done|]. split; [by apply prefix_app_r|done].
  - unfold net_chan, chan_close in Hstep. rewrite Hm in Hstep.
    destruct (ch_closed (peerConn n)); simplify_eq. done.
  - unfold net_chan, chan_close in Hstep. rewrite Hm in Hstep.
    destruct (ch_closed (peerDisc n)); simplify_eq. done.
  - destruct (node_gos n !! i) as [o|] eqn:Hi; [|done]. simplify_eq. cbn.
    split; [done|]. split; [done|]. split; [done|]. rewrite length_delete; [lia|by eexists].
Qed.

Lemma node_run_after_return (sched : list NodeAction) (n n' : Node) :
  member n = MemberExited →
  node_run sched n = NodeNext n' →
  member n' = MemberExited ∧
  ch_queue (peerConn n) `prefix_of` ch_queue (peerConn n') ∧
  ch_queue (peerDisc n) `prefix_of` ch_queue (peerDisc n') ∧
  length (node_gos n') ≤ length (node_gos n).
Proof.
  revert n. induction sched as [|a sched IH]; intros n Hm Hrun.
  - cbn in Hrun. by simplify_eq.
  - rewrite node_run_cons in Hrun. destruct (node_step a n) as [n1| |] eqn:E; [|done..].
    destruct (node_step_after_return a n n1 Hm E) as (Hm1 & Hc1 & Hd1 & Hg1).
    destruct (IH n1 Hm1 Hrun) as (Hm2 & Hc2 & Hd2 & Hg2).
    split; [done|]. split; [by etrans|]. split; [by etrans|lia].
Qed.

(** X18.  How [eventLoop] returns.  In every run of the node: the loop has
    returned only if the shutdown signal has fired or a stream is closed;
    the line "Gossip protocol shutdown" is in the log once if the loop has
    returned and not at all otherwise; once the signal has fired the
    shutdown branch can be taken and ends the loop, leaving the controller
    and the launched calls as they are; while the signal and both streams
    are open no step makes the loop return; a key that waits on the connect
    stream can still be received after the signal has fired; and a loop
    that has returned stays returned, receives nothing more and launches
    nothing more. *)
Theorem membership_loop_returns (base : baseNetwork) (local : p2pcrypto.PublicKey)
  (sched : list NodeAction) (n : Node) :
  node_run sched (NewNode base local) = NodeNext n →
  let w := sys_world (node_sys n) in
  (member n = MemberExited →
   shutdown (w_prot w) = ChanClosed ∨ ch_closed (peerConn n) = true
   ∨ ch_closed (peerDisc n) = true) ∧
  logged log.Info "Gossip protocol shutdown" (w_trace w)
  = (if decide (member n = MemberExited) then [[]] else []) ∧
  (member n = MemberSelect → shutdown (w_prot w) = ChanClosed →
   ∃ n', node_step MemberShutdown n = NodeNext n' ∧ member n' = MemberExited ∧
         w_prot (sys_world (node_sys n')) = w_prot w ∧ node_gos n' = node_gos n) ∧
  (member n = MemberSelect → shutdown (w_prot w) = ChanOpen →
   ch_closed (peerConn n) = false → ch_closed (peerDisc n) = false →
   ∀ a n', node_step a n = NodeNext n' → member n' = MemberSelect) ∧
  (member n = MemberSelect →
   ∀ p rest, ch_queue (peerConn n) = p :: rest →
     ∃ n', node_step MemberConn n = NodeNext n' ∧ member n' = MemberSelect ∧
           node_gos n' = node_gos n ++ [OpAdd p] ∧ ch_queue (peerConn n') = rest) ∧
  (member n = MemberExited →
   ∀ sched' n', node_run sched' n = NodeNext n' →
     member n' = MemberExited ∧
     ch_queue (peerConn n) `prefix_of` ch_queue (peerConn n') ∧
     ch_queue (peerDisc n) `prefix_of` ch_queue (peerDisc n') ∧
     length (node_gos n') ≤ length (node_gos n)).
Proof.
  intros Hrun w. destruct (reachable_node_inv base local sched n Hrun)
    as (_ & _ & _ & _ & Hl & Hex & _).
  split; [done|]. split; [done|]. split; [|split; [|split]].
  - intros Hm Hsh. cbn [node_step]. rewrite Hm. fold w. rewrite Hsh. eauto.
  - intros Hm Hsh Hc Hd a n' Hstep.
    destruct a as [|a'|p|p| | | | | |i]; cbn [node_step] in Hstep;
      rewrite ?Hm in Hstep; try done.
    + assert (n' = set_node_sys (node_sys n') n) as ->
        by (by destruct a'; try done; destruct (step _ (node_sys n)); simplify_eq).
      done.
    + unfold net_chan, chan_send in Hstep. rewrite Hm, Hc in Hstep. by simplify_eq.
    + unfold net_chan, chan_send in Hstep. rewrite Hm, Hd in Hstep. by simplify_eq.
    + unfold net_chan, chan_close in Hstep. rewrite Hm, Hc in Hstep. by simplify_eq.
    + unfold net_chan, chan_close in Hstep. rewrite Hm, Hd in Hstep. by simplify_eq.
    + unfold eventLoop_recv, chan_recv in Hstep. rewrite Hc in Hstep.
      destruct (ch_queue (peerConn n)); by simplify_eq.
    + unfold eventLoop_recv, chan_recv in Hstep. rewrite Hd in Hstep.
      destruct (ch_queue (peerDisc n)); by simplify_eq.
    + fold w in Hstep. by rewrite Hsh in Hstep.
    + destruct (node_gos n !! i); by simplify_eq.
  - intros Hm p rest Hq. cbn [node_step]. rewrite Hm.
    unfold eventLoop_recv, chan_recv. rewrite Hq. eexists. split; [done|]. cbn.
    by rewrite Hm.
  - intros Hm sched' n'. by apply node_run_after_return.
Qed.

(** X19.  The registry calls of [eventLoop] run in goroutines of their own, so
    the order in which they are applied is not the order of the events.
    For every key: after the network has announced the key and then its
    disconnection, and the loop has received both in that order, the two
    launched calls may run in either order; in launch order the key ends up
    absent, in the other order it ends up registered, with nothing left to
    run. *)
Theorem registry_update_order_is_not_event_order (base : baseNetwork)
  (local p : p2pcrypto.PublicKey) :
  let events := [NodeStart; NetConnect p; MemberConn; NetDisconnect p; MemberDisc] in
  let settled n :=
    node_gos n = [] ∧ ch_queue (peerConn n) = [] ∧ ch_queue (peerDisc n) = [] in
  (∃ n, node_run events (NewNode base local) = NodeNext n ∧
        node_gos n = [OpAdd p; OpRemove p]) ∧
  (∃ n, node_run (events ++ [NodeGo 0; NodeGo 0]) (NewNode base local) = NodeNext n ∧
        settled n ∧ (hasPeer p (sys_world (node_sys n))).1 = false) ∧
  (∃ n, node_run (events ++ [NodeGo 1; NodeGo 0]) (NewNode base local) = NodeNext n ∧
        settled n ∧ (hasPeer p (sys_world (node_sys n))).1 = true).
Proof.
  intros events settled. split; [|split].
  - eexists. split; [reflexivity|]. done.
  - eexists. split; [reflexivity|]. split; [done|].
    unfold hasPeer, gets. cbn. apply bool_decide_eq_false.
    rewrite removePeer_peers, lookup_delete_eq. by intros [? ?].
  - eexists. split; [reflexivity|]. split; [done|].
    unfold hasPeer, gets. cbn. apply bool_decide_eq_true.
    rewrite addPeer_peers, lookup_insert_eq. by eexists.
Qed.

End NodeProps.

(** ** The wait group and the launch of the sends *)

Lemma targets_length (exclude : p2pcrypto.PublicKey) (order : list p2pcrypto.PublicKey) :
  length (targets exclude order) ≤ length order.
Proof. unfold targets. apply length_filter. Qed.

Lemma unfinished_le (gos : list (p2pcrypto.PublicKey * send_pc)) :
  unfinished gos ≤ length gos.
Proof.
  unfold unfinished. induction gos as [|[p pc] gos IH]; [done|]. cbn.
  destruct (not_exit pc); cbn; lia.
Qed.

(** X20.  The wait group of [propagateMessage] counts the goroutines that have
    not called [wg.Done].  At every point of every schedule of a call, the
    counter is the number of launched goroutines that are not finished; it
    is never negative and never more than the goroutines launched; the
    goroutines launched and the keys still to launch add up to the keys
    that are not skipped, which are at most the keys copied; and the
    counter is zero exactly when every launched goroutine has finished. *)
Theorem wait_group_counts_running_sends (w : World) (payload : list byte) (h : types.Hash12)
  (nextProt : string) (exclude : p2pcrypto.PublicKey) (order : list p2pcrypto.PublicKey)
  (sched : list fo_thread) (f : fanout) :
  let f0 := propagateMessage_init payload h nextProt exclude order in
  (propagateMessage_run sched (Running f0) w).1 = Running f →
  fo_wg f = Z.of_nat (unfinished (fo_gos f)) ∧
  (0 ≤ fo_wg f ≤ Z.of_nat (length (fo_gos f)))%Z ∧
  length (fo_gos f) + length (targets exclude (fo_range f)) = length (targets exclude order) ∧
  length (targets exclude order) ≤ length order ∧
  (fo_wg f = 0%Z ↔ Forall (λ g, g.2 = SendExit) (fo_gos f)).
Proof.
  intros f0 Hrun.
  destruct (run_inv f0 sched f0 [] (w_trace w) w (fanout_inv_init payload h nextProt exclude order)
              eq_refl) as (new & _ & Hinv).
  rewrite Hrun in Hinv. destruct Hinv as (Hwf & _ & Hkeys & _).
  unfold fanout_wf in Hwf. pose proof (unfinished_le (fo_gos f)) as Hle.
  split; [done|]. split; [lia|]. split; [|split; [apply targets_length|]].
  - apply (f_equal length) in Hkeys. rewrite length_app, length_fmap in Hkeys. done.
  - rewrite <- unfinished_zero. lia.
Qed.

Lemma main_steps_launch (order : list p2pcrypto.PublicKey) (f : fanout) (w : World) :
  fo_range f = order →
  propagateMessage_run (replicate (length order) FoMain) (Running f) w
  = (Running (all_launched f), w).
Proof.
  revert f. induction order as [|p rest IH]; intros f Hr.
  - cbn. unfold all_launched. rewrite Hr. cbn. rewrite app_nil_r, Z.add_0_r.
    by destruct f; cbn in *; subst.
  - cbn [length replicate]. rewrite run_cons. cbn [propagateMessage_step].
    destruct (decide (fo_exclude f = p)) as [He|He].
    + rewrite (main_skip f w p rest Hr He). cbn [fst snd]. rewrite IH by done.
      unfold all_launched. cbn. rewrite Hr, targets_cons, decide_True by done. done.
    + rewrite (main_launch f w p rest Hr He). cbn [fst snd]. rewrite IH by done.
      unfold all_launched. cbn. rewrite Hr, targets_cons, decide_False by done.
      cbn. rewrite <- app_assoc. cbn. f_equal. f_equal. f_equal. unfold targets. lia.
Qed.

(** X21.  [propagateMessage] launches all its sends before it waits for any.
    When the caller alone moves, after as many steps as there are keys it
    has launched one goroutine per key that is not skipped, each about to
    call [SendMessage], with the wait group at their number and the trace
    untouched; one more step returns when there is no such key (no peer, or
    only the excluded one) and blocks in [wg.Wait] otherwise. *)
Theorem fanout_launches_without_waiting (w : World) (payload : list byte) (h : types.Hash12)
  (nextProt : string) (exclude : p2pcrypto.PublicKey) (order : list p2pcrypto.PublicKey) :
  let f0 := propagateMessage_init payload h nextProt exclude order in
  let ts := targets exclude order in
  let f1 := {| fo_payload := payload; fo_h := h; fo_nextProt := nextProt;
               fo_exclude := exclude; fo_range := [];
               fo_gos := (λ p, (p, SendCall)) <$> ts;
               fo_wg := Z.of_nat (length ts) |} in
  propagateMessage_run (replicate (length order) FoMain) (Running f0) w = (Running f1, w) ∧
  propagateMessage_run (replicate (S (length order)) FoMain) (Running f0) w
  = (if decide (ts = []) then Returned else Running f1, w).
Proof.
  intros f0 ts f1.
  assert (E : propagateMessage_run (replicate (length order) FoMain) (Running f0) w
              = (Running f1, w)).
  { rewrite (main_steps_launch order f0 w eq_refl). done. }
  split; [done|].
  rewrite replicate_S_end, run_app, E. cbn [fst snd]. rewrite run_cons.
  cbn [propagateMessage_step].
  rewrite main_wait by done. cbn [fst snd fo_wg f1].
  destruct (decide (ts = [])) as [Ht|Ht].
  - rewrite Ht. cbn. done.
  - rewrite decide_False; [done|]. destruct ts; [done|]. cbn. lia.
Qed.

(** ** Sample runs *)

(** A run that a computation shows to go through has a final state. *)
Lemma run_is_next `{types.Digest12} (sched : list Action) (s0 : Sys) (P : Sys → Prop) :
  match run sched s0 with Next s => P s | _ => False end →
  ∃ s, run sched s0 = Next s ∧ P s.
Proof. destruct (run sched s0) as [s| |]; [eauto|done..]. Qed.

Lemma node_run_is_next `{types.Digest12} (sched : list NodeAction) (n0 : Node) (P : Node → Prop) :
  match node_run sched n0 with NodeNext n => P n | _ => False end →
  ∃ n, node_run sched n0 = NodeNext n ∧ P n.
Proof. destruct (node_run sched n0) as [n| |]; [eauto|done..]. Qed.

(** The sample runs go through. *)
Lemma sample_run :
  ∃ s, @run sample_digest sample_schedule (NewSys sample_net keyLocal) = Next s ∧
       consumer s = ConsumerExited ∧
       ∃ s', @run sample_digest sample_after_exit s = Next s'.
Proof.
  assert (G : match @run sample_digest sample_schedule (NewSys sample_net keyLocal) with
              | Next s => consumer s = ConsumerExited ∧
                          match @run sample_digest sample_after_exit s with
                          | Next _ => True
                          | _ => False
                          end
              | _ => False
              end) by (vm_compute; done).
  destruct (@run sample_digest sample_schedule (NewSys sample_net keyLocal)) as [s| |];
    [|done..].
  destruct G as [Hc G]. exists s. split; [done|]. split; [done|].
  destruct (@run sample_digest sample_after_exit s) as [s'| |]; [eauto|done..].
Qed.

Lemma call_is_next `{types.Digest12} (sched0 : list Action) (s_init : Sys)
  (P0 : Sys → Prop) (order : list p2pcrypto.PublicKey) (during : list Action)
  (P : Sys → Prop) :
  match run sched0 s_init with
  | Next s0 =>
      P0 s0 ∧
      match step (ActConsumerSnapshot order) s0 with
      | Next s1 =>
          in_call during s1 = true ∧
          match run during s1 with Next s2 => P s2 | _ => False end
      | _ => False
      end
  | _ => False
  end →
  ∃ s0 s1 s2,
    run sched0 s_init = Next s0 ∧ P0 s0 ∧
    step (ActConsumerSnapshot order) s0 = Next s1 ∧ call_steps s1 s2 ∧ P s2.
Proof.
  destruct (run sched0 s_init) as [s0| |] eqn:E0; [|done..]. intros [Hc G].
  destruct (step (ActConsumerSnapshot order) s0) as [s1| |] eqn:E1; [|done..].
  destruct G as [Hin G].
  destruct (run during s1) as [s2| |] eqn:E2; [|done..].
  exists s0, s1, s2. split; [done|]. split; [done|]. split; [done|].
  split; [by apply (in_call_steps during)|done].
Qed.

Lemma sample_call :
  ∃ s0 s1 s2,
    @run sample_digest sample_before_call (NewSys sample_net keyLocal) = Next s0 ∧
    (consumer s0
     = ConsumerCall ["m"%byte] (@types.CalcMessageHash12 sample_digest ["m"%byte] "x") "x" keyS ∧
     (hasPeer keyA (sys_world s0)).1 = true ∧ (hasPeer keyC (sys_world s0)).1 = false) ∧
    @step sample_digest (ActConsumerSnapshot [keyS; keyB; keyA]) s0 = Next s1 ∧
    @call_steps sample_digest s1 s2 ∧
    (consumer s2 = ConsumerRead ∧
     (hasPeer keyA (sys_world s2)).1 = false ∧ (hasPeer keyC (sys_world s2)).1 = true).
Proof.
  apply (@call_is_next sample_digest sample_before_call (NewSys sample_net keyLocal)
           (λ s0, consumer s0
                  = ConsumerCall ["m"%byte]
                      (@types.CalcMessageHash12 sample_digest ["m"%byte] "x") "x" keyS ∧
                  (hasPeer keyA (sys_world s0)).1 = true ∧
                  (hasPeer keyC (sys_world s0)).1 = false)
           [keyS; keyB; keyA] sample_during_call
           (λ s2, consumer s2 = ConsumerRead ∧
                  (hasPeer keyA (sys_world s2)).1 = false ∧
                  (hasPeer keyC (sys_world s2)).1 = true)).
  vm_compute. done.
Qed.

Lemma sample_node_run :
  ∃ n, @node_run sample_digest sample_node_schedule (NewNode sample_net keyLocal) = NodeNext n ∧
       member n = MemberExited ∧ node_gos n = [OpRemove keyA].
Proof.
  apply (@node_run_is_next sample_digest sample_node_schedule (NewNode sample_net keyLocal)
           (λ n, member n = MemberExited ∧ node_gos n = [OpRemove keyA])).
  vm_compute. done.
Qed.

Lemma fanout_is_running (sched : list fo_thread) (f0 : fanout) (w : World) (P : fanout → Prop) :
  match (propagateMessage_run sched (Running f0) w).1 with
  | Running f => P f
  | Returned => False
  end →
  ∃ f, (propagateMessage_run sched (Running f0) w).1 = Running f ∧ P f.
Proof. destruct (propagateMessage_run sched (Running f0) w).1 as [f|]; [eauto|done]. Qed.

(** *** The properties on concrete runs *)

(** The validator of [sample_net] refuses the sub-protocol "bad". *)
Lemma intake_error_comes_from_validator_witness :
  types.dc_get (oldMessageQ (w_prot (@submit sample_digest sample_refused sample_world).2))
    (@sub_hash sample_digest sample_refused) = true ∧
  handoffs (events_since sample_world (@submit sample_digest sample_refused sample_world).2)
  = [(keyS, "bad"%string, service.DataBytes [])].
Proof.
  destruct (@intake_error_comes_from_validator sample_digest sample_world sample_refused
              "refused" eq_refl) as (_ & H1 & H2 & _).
  split; [exact H1|exact H2].
Defined.

(** The refused message is resubmitted after three others, with and without a [Close] first. *)
Lemma intake_ignores_shutdown_witness :
  let w1 := {| w_prot := set_shutdown ChanClosed (w_prot sample_world); w_trace := [] |} in
  (@submit sample_digest sample_refused (@submits sample_digest (sample_traffic 3) w1)).1
  = (@submit sample_digest sample_refused
       (@submits sample_digest (sample_traffic 3) sample_world)).1.
Proof.
  intros w1.
  destruct (@intake_ignores_shutdown sample_digest sample_world w1 (sample_traffic 3) eq_refl)
    as (_ & H & _).
  apply H.
Defined.

(** The sends of the sample pipeline run. *)
Lemma only_validated_records_are_sent_witness :
  ∃ s, @run sample_digest sample_schedule (NewSys sample_net keyLocal) = Next s ∧
       ∀ p protocol payload,
         (p, protocol, payload) ∈ sends (w_trace (sys_world s)) →
         ∃ m, m ∈ validated sample_schedule ∧ service.Protocol m = protocol ∧
              service.Message m = payload ∧ service.Sender m ≠ p.
Proof.
  destruct sample_run as (s & E & _). exists s. split; [exact E|].
  exact (proj1 (@only_validated_records_are_sent sample_digest sample_net keyLocal
                  sample_schedule s E)).
Defined.

(** The sample pipeline run logs no failed type assertion. *)
Lemma consumer_meets_only_records_witness :
  ∃ s, @run sample_digest sample_schedule (NewSys sample_net keyLocal) = Next s ∧
       logged log.Error "could not convert to message validation, ignoring message"
         (w_trace (sys_world s)) = [].
Proof.
  destruct sample_run as (s & E & _). exists s. split; [exact E|].
  exact (proj2 (@consumer_meets_only_records sample_digest sample_net keyLocal
                  sample_schedule s E)).
Defined.

(** The channel at the end of the sample pipeline run. *)
Lemma propagateQ_within_capacity_witness :
  ∃ s, @run sample_digest sample_schedule (NewSys sample_net keyLocal) = Next s ∧
       (Z.of_nat (length (propagateQ (w_prot (sys_world s)))) ≤ 5000)%Z.
Proof.
  destruct sample_run as (s & E & _). exists s. split; [exact E|].
  exact (proj1 (@propagateQ_within_capacity sample_digest sample_net keyLocal
                  sample_schedule s E)).
Defined.

(** The one record of the sample pipeline run. *)
Lemma validated_records_are_conserved_witness :
  ∃ s, @run sample_digest sample_schedule (NewSys sample_net keyLocal) = Next s ∧
       length (validated sample_schedule)
       = length (propagateQ (w_prot (sys_world s)))
         + length (priorityq.pending (pq (w_prot (sys_world s))))
         + length (logged log.Debug "new_gossip_message_relay" (w_trace (sys_world s))).
Proof.
  destruct sample_run as (s & E & _). exists s. split; [exact E|].
  exact (@validated_records_are_conserved sample_digest sample_net keyLocal
           sample_schedule s E).
Defined.

(** A broadcast, a validated record and a new peer after the loops of the sample run have returned. *)
Lemma nothing_sent_after_consumer_returns_witness :
  ∃ s s', @run sample_digest sample_schedule (NewSys sample_net keyLocal) = Next s ∧
          @run sample_digest sample_after_exit s = Next s' ∧
          consumer s' = ConsumerExited ∧
          sends (w_trace (sys_world s')) = sends (w_trace (sys_world s)).
Proof.
  destruct sample_run as (s & E & Hc & s' & E'). exists s, s'.
  split; [exact E|]. split; [exact E'|].
  destruct (@nothing_sent_after_consumer_returns sample_digest sample_net keyLocal
              sample_schedule sample_after_exit s s' E Hc E') as (H1 & _ & H2 & _).
  split; [exact H1|exact H2].
Defined.

(** [keyA] is removed and [keyC] added while the call is running: the message goes to [keyA] and not to [keyC]. *)
Lemma fanout_targets_fixed_by_snapshot_witness :
  ∃ s0 s1 s2,
    @run sample_digest sample_before_call (NewSys sample_net keyLocal) = Next s0 ∧
    @step sample_digest (ActConsumerSnapshot [keyS; keyB; keyA]) s0 = Next s1 ∧
    @call_steps sample_digest s1 s2 ∧
    keyA ∈ sent_to (events_since (sys_world s1) (sys_world s2)) ∧
    (hasPeer keyA (sys_world s2)).1 = false ∧
    (keyC ∉ sent_to (events_since (sys_world s1) (sys_world s2))) ∧
    (hasPeer keyC (sys_world s2)).1 = true.
Proof.
  destruct sample_call as (s0 & s1 & s2 & E0 & (Hc & HA & HC) & E1 & Hsteps & Hr & HA2 & HC2).
  exists s0, s1, s2. split; [exact E0|]. split; [exact E1|]. split; [exact Hsteps|].
  destruct (@fanout_targets_fixed_by_snapshot sample_digest sample_net keyLocal
              sample_before_call s0 s1 s2 _ _ _ _ _ E0 Hc E1 Hsteps)
    as (_ & Hsub & _ & Hret).
  destruct (Hret Hr) as [Hiff _].
  unfold hasPeer, gets in HA, HC. cbn [fst] in HA, HC.
  apply bool_decide_eq_true in HA. apply bool_decide_eq_false in HC.
  split; [apply Hiff; split; [exact HA|done]|]. split; [exact HA2|].
  split; [|exact HC2]. intros Hin. apply Hsub in Hin as [Hin _]. by apply HC.
Defined.

(** The registry at the end of the sample pipeline run. *)
Lemma registry_follows_the_log_witness :
  ∃ s, @run sample_digest sample_schedule (NewSys sample_net keyLocal) = Next s ∧
       peers (w_prot (sys_world s)) = logged_registry sample_net (w_trace (sys_world s)).
Proof.
  destruct sample_run as (s & E & _). exists s. split; [exact E|].
  exact (proj1 (@registry_follows_the_log sample_digest sample_net keyLocal
                  sample_schedule s keyA E)).
Defined.

(** The three events of the sample run of the node. *)
Lemma peer_events_are_conserved_witness :
  ∃ n, @node_run sample_digest sample_node_schedule (NewNode sample_net keyLocal) = NodeNext n ∧
       [OpAdd keyA; OpAdd keyB; OpRemove keyA] ≡ₚ node_ops n.
Proof.
  destruct sample_node_run as (n & E & _). exists n. split; [exact E|].
  exact (proj1 (@peer_events_are_conserved sample_digest sample_net keyLocal
                  sample_node_schedule n E)).
Defined.

(** The registry at the end of the sample run of the node. *)
Lemma registry_holds_announced_peers_only_witness :
  ∃ n, @node_run sample_digest sample_node_schedule (NewNode sample_net keyLocal) = NodeNext n ∧
       ∀ key, (hasPeer key (sys_world (node_sys n))).1 = true →
              NetConnect key ∈ sample_node_schedule.
Proof.
  destruct sample_node_run as (n & E & _). exists n. split; [exact E|].
  exact (proj1 (@registry_holds_announced_peers_only sample_digest sample_net keyLocal
                  sample_node_schedule n E)).
Defined.

(** The membership loop of the sample run of the node has returned and logged it. *)
Lemma membership_loop_returns_witness :
  ∃ n, @node_run sample_digest sample_node_schedule (NewNode sample_net keyLocal) = NodeNext n ∧
       member n = MemberExited ∧
       logged log.Info "Gossip protocol shutdown" (w_trace (sys_world (node_sys n))) = [[]].
Proof.
  destruct sample_node_run as (n & E & Hm & _). exists n. split; [exact E|].
  split; [exact Hm|].
  destruct (@membership_loop_returns sample_digest sample_net keyLocal
              sample_node_schedule n E) as (_ & Hl & _).
  rewrite Hl. by rewrite decide_True.
Defined.

(** Two goroutines are launched and one has finished. *)
Lemma wait_group_counts_running_sends_witness :
  let w := apply_ops [OpAdd keyA; OpAdd keyB; OpAdd keyS] sample_world in
  let f0 := propagateMessage_init ["m"%byte] (sample_hash 1) "x" keyS [keyS; keyB; keyA] in
  ∃ f, (propagateMessage_run [FoMain; FoMain; FoMain; FoSend 0; FoSend 0; FoSend 0]
          (Running f0) w).1 = Running f ∧
       fo_wg f = Z.of_nat (unfinished (fo_gos f)) ∧ fo_wg f = 1%Z.
Proof.
  intros w f0.
  destruct (fanout_is_running [FoMain; FoMain; FoMain; FoSend 0; FoSend 0; FoSend 0] f0 w
              (λ f, fo_wg f = 1%Z)) as (f & E & Hwg); [vm_compute; reflexivity|].
  exists f. split; [exact E|]. split; [|exact Hwg].
  exact (proj1 (wait_group_counts_running_sends w ["m"%byte] (sample_hash 1) "x" keyS
                  [keyS; keyB; keyA] _ f E)).
Defined.
